(** * BLIF front end of arachne-pnr: literal decoding, directive parsing,
      net unification and consistency validation ([src/blif.cc]).

    The development is a shallow embedding of [blif.cc].  Pointers to
    netlist objects become identifiers into an explicit store, [fatal]
    becomes an outcome of the computation, and the [goto]s of
    [BlifParser::parse] become a continuation. *)

From Stdlib Require Import ZArith String Ascii List Lia.
From stdpp Require Import base option list gmap strings sorting pretty.

Local Open Scope string_scope.
Local Open Scope list_scope.
Local Open Scope nat_scope.

(* ===================================================================== *)
(** * Outcomes *)
(* ===================================================================== *)

(** A source position, as the line reader reports it ([lp]). *)
Record LexicalPosition : Type := mkLP { lp_file : string; lp_line : nat }.

(** What a call of the parser can end in: a value, [fatal] with its
    position and message, an abort without message (a failed [assert], an
    index outside a container), or a loop that never ends. *)
Inductive outcome (A : Type) : Type :=
| Ok (a : A)
| Fatal (at_lp : LexicalPosition) (msg : string)
| Abort (what : string)
| Diverge.
Arguments Ok {A} a.
Arguments Fatal {A} at_lp msg.
Arguments Abort {A} what.
Arguments Diverge {A}.

#[global] Instance outcome_ret : MRet outcome := fun A a => Ok a.
#[global] Instance outcome_bind : MBind outcome := fun A B f m =>
  match m with
  | Ok a => f a
  | Fatal p s => Fatal p s
  | Abort w => Abort w
  | Diverge => Diverge
  end.

(* ===================================================================== *)
(** * Characters and strings *)
(* ===================================================================== *)

Definition chars (s : string) : list ascii := list_ascii_of_string s.

(** [s_[k]] of a [std::string]: the character at [k], and the terminating
    zero at [k = s_.size()]. *)
Definition char_at (s : string) (k : nat) : ascii :=
  default Ascii.zero (chars s !! k).

Definition code (c : ascii) : Z := Z.of_nat (nat_of_ascii c).

Definition ascii_eqb (a b : ascii) : bool := Ascii.eqb a b.

(* ===================================================================== *)
(** * BitVector ([bitvector.hh]) *)
(* ===================================================================== *)

(** Modelled from the spec: [bitvector.hh] is not part of the sources.
    A BitVector is "an ordered, fixed-length sequence of bits,
    least-significant bit first, constructible from an integer or grown
    by explicit resize; indexable for bit assignment". *)
Abbreviation BitVector := (list bool).

Module BV.

(** Modelled from the spec: [BitVector bv(n)], of [bitvector.hh], is a
    vector of [n] cleared bits. *)
Definition make (n : nat) : BitVector := replicate n false.

(** Modelled from the spec: [BitVector(n, init)], of [bitvector.hh], is
    "constructed from an integer": the low [n] bits of [init]. *)
Definition of_int (n : nat) (init : Z) : BitVector :=
  (fun i => Z.testbit init (Z.of_nat i)) <$> seq 0 n.

(** Modelled from the spec: [bv.resize(n)], of [bitvector.hh], cuts the
    vector to [n] bits or grows it with cleared bits. *)
Definition resize (n : nat) (bv : BitVector) : BitVector :=
  take n bv ++ replicate (n - length bv) false.

(** Modelled from the spec: [bv[i] = b], of [bitvector.hh].  The vector
    is of fixed length and only [resize] grows it, so the assignment has a
    meaning for an index below the length only; any other index is
    reported as [None]. *)
Definition set (i : nat) (b : bool) (bv : BitVector) : option BitVector :=
  if decide (i < length bv) then Some (<[i := b]> bv) else None.

(** The unsigned value of a bit-vector. *)
Fixpoint to_Z (bv : BitVector) : Z :=
  match bv with
  | [] => 0%Z
  | b :: bv' => (Z.b2z b + 2 * to_Z bv')%Z
  end.

End BV.

(* ===================================================================== *)
(** * Literal decoder *)
(* ===================================================================== *)

(** The body of the [for] loop of [BlifParser::stobv], from index [i] on,
    with [k] iterations left. *)
Fixpoint stobv_loop (lp : LexicalPosition) (s_ : string) (n : nat)
    (k i : nat) (bv : BitVector) : outcome BitVector :=
  match k with
  | 0 => Ok bv
  | S k' =>
      let c := char_at s_ ((n - 1) - i) in
      if ascii_eqb c "1" then
        match BV.set i true bv with
        | Some bv' => stobv_loop lp s_ n k' (S i) bv'
        | None => Abort "BitVector index"
        end
      else if ascii_eqb c "0" || ascii_eqb c "x" || ascii_eqb c "X" then
        stobv_loop lp s_ n k' (S i) bv
      else
        Fatal lp "invalid character in integer constant"
  end.

(** [BlifParser::stobv].  [lp] is the reader's current position, which
    [fatal] reports. *)
Definition stobv (lp : LexicalPosition) (s_ : string) : outcome BitVector :=
  let n := String.length s_ in
  stobv_loop lp s_ n n 0 (BV.make n).

(** [toupper] in the C locale. *)
Definition toupper (c : ascii) : ascii :=
  if ((code "a" <=? code c) && (code c <=? code "z"))%Z
  then ascii_of_nat (nat_of_ascii c - 32)
  else c.

(** [getNumericValue]. *)
Definition getNumericValue (c : ascii) : Z :=
  let c := toupper c in
  if ((code "0" <=? code c) && (code c <=? code "9"))%Z then
    (code c - code "0")%Z
  else if ((code "A" <=? code c) && (code c <=? code "Z"))%Z then
    ((code c - code "A") + 10)%Z
  else
    (-1)%Z.

(** Arithmetic of [uint64_t]. *)
Definition u64 (z : Z) : Z := (z mod 2 ^ 64)%Z.

(** The [while (offset < s_.length())] loop of the radix-10 branch of
    [radiant_stobv], with [k = s_.length() - offset] iterations left.
    [Ok None] is [return false]. *)
Fixpoint radiant_decimal (lp : LexicalPosition) (s_ : string)
    (k offset : nat) (intval : Z) : outcome (option Z) :=
  match k with
  | 0 => Ok (Some intval)
  | S k' =>
      let cval := getNumericValue (char_at s_ offset) in
      if (cval =? -1)%Z then Ok None
      else if (u64 (intval * 10 + cval) <? intval)%Z then
        Fatal lp "decimal integer overflow in parameter"
      else
        radiant_decimal lp s_ k' (S offset) (u64 (intval * 10 + cval))
  end.

(** The inner loop [for (int j = 0; j < log2base; j++)]. *)
Fixpoint radiant_bits (cval : Z) (log2base i : nat) (k j : nat)
    (out : BitVector) : outcome BitVector :=
  match k with
  | 0 => Ok out
  | S k' =>
      let b := negb (Z.land cval (Z.shiftl 1 (Z.of_nat j)) =? 0)%Z in
      match BV.set (i * log2base + j) b out with
      | Some out' => radiant_bits cval log2base i k' (S j) out'
      | None => Abort "BitVector index"
      end
  end.

(** The loop [for (int i = 0; i < n; i++)] of the radix-2/8/16 branch.
    The boolean is the value [radiant_stobv] returns. *)
Fixpoint radiant_digits (s_ : string) (log2base : nat) (k i : nat)
    (out : BitVector) : outcome (bool * BitVector) :=
  match k with
  | 0 => Ok (true, out)
  | S k' =>
      let cval := getNumericValue (char_at s_ (String.length s_ - (1 + i))) in
      if (cval =? -1)%Z then Ok (false, out)
      else
        out' ← radiant_bits cval log2base i log2base 0 out;
        radiant_digits s_ log2base k' (S i) out'
  end.

(** The radix and the prefix length [radiant_stobv] selects:
    [(offset, base, log2base)]; [log2base] is not used when [base = 10]. *)
Definition radiant_prefix (s_ : string) : nat * nat * nat :=
  if decide (2 ≤ String.length s_) then
    if ascii_eqb (char_at s_ 0) "0" then
      if ascii_eqb (char_at s_ 1) "x" then (2, 16, 4)
      else if ascii_eqb (char_at s_ 1) "b" then (2, 2, 1)
      else (1, 8, 3)
    else (0, 10, 0)
  else (0, 10, 0).

(** [BlifParser::radiant_stobv].  The result pairs the returned boolean
    with the value left in the reference parameter [out]. *)
Definition radiant_stobv (lp : LexicalPosition) (s_ : string)
    (out : BitVector) : outcome (bool * BitVector) :=
  if decide (0 < String.length s_) then
    let '(offset, base, log2base) := radiant_prefix s_ in
    if decide (base = 10) then
      r ← radiant_decimal lp s_ (String.length s_ - offset) offset 0%Z;
      match r with
      | None => Ok (false, out)
      | Some intval => Ok (true, BV.of_int 64 intval)
      end
    else
      let n := String.length s_ - offset in
      radiant_digits s_ log2base n 0 (BV.resize n out)
  else Ok (false, out).

(* ===================================================================== *)
(** * Netlist graph ([netlist.hh]) *)
(* ===================================================================== *)

Module Netlist.

(** Modelled from the spec: [netlist.hh] is not part of the sources, and
    the data model is the one of section 3 of the specification.  A
    pointer to a Port, a Net or an Instance is the identifier of the
    object in the store of the [Design]; a pointer to a Model is the name
    the Design keys it by.  The direction tag of a port: *)
Inductive Direction : Set := IN | OUT | INOUT.

(** Modelled from the spec: the constant value of a net is "ZERO, ONE, or
    undefined/unset". *)
Inductive Value : Set := ZERO | ONE | UNSET.

(** Modelled from the spec: a port "belongs either to a Model (an
    interface pin) or to an Instance (a pin binding)"; this is
    [p->node()]. *)
Inductive Node : Set :=
| NodeModel (m : string)
| NodeInstance (i : nat).

(** Modelled from the spec: a Const is "a tagged value, either a
    bit-vector or a text string, carrying the source position at which it
    was defined". *)
Inductive Const : Type :=
| ConstBits (lp : LexicalPosition) (bv : BitVector)
| ConstString (lp : LexicalPosition) (s : string).

(** Modelled from the spec: a Port "has a name, a direction tag and at
    most one connected Net". *)
Record Port : Type := mkPort {
  port_node : Node;
  port_name : string;
  direction : Direction;
  connection : option nat }.

(** Modelled from the spec: a Net is "a named signal node" that tracks its
    "optional constant value" and "the set of Ports currently connected to
    it". *)
Record Net : Type := mkNet {
  net_name : string;
  is_constant : bool;
  constant : Value;
  connections : gset nat }.

(** Modelled from the spec: an Instance is "a call of one Model
    ([instance_of]) inside another" and owns its pins, "a string-keyed
    attribute map and a string-keyed parameter map". *)
Record Instance : Type := mkInstance {
  instance_of : string;
  inst_ports : gmap string nat;
  attrs : gmap string Const;
  params : gmap string Const }.

(** Modelled from the spec: a Model is "a named module" that owns "a
    name-keyed set of Ports, a name-keyed set of Nets, and a sequence of
    Instances". *)
Record Model : Type := mkModel {
  model_name : string;
  m_ports : gmap string nat;
  m_nets : gmap string nat;
  m_instances : list nat }.

(** Modelled from the spec: the Design "owns the set of all Models, keyed
    by name" and "holds a single designated top module".  It is also the
    store of the objects the models refer to, and counts the identifiers
    handed out. *)
Record Design : Type := mkDesign {
  models : gmap string Model;
  design_top : option string;
  ports : gmap nat Port;
  nets : gmap nat Net;
  instances : gmap nat Instance;
  id_counter : nat }.

#[global] Instance Direction_eq_dec : EqDecision Direction.
Proof. solve_decision. Defined.
#[global] Instance Value_eq_dec : EqDecision Value.
Proof. solve_decision. Defined.
#[global] Instance Node_eq_dec : EqDecision Node.
Proof. solve_decision. Defined.

Definition upd_models (f : gmap string Model → gmap string Model)
    (d : Design) : Design :=
  mkDesign (f (models d)) (design_top d) (ports d) (nets d) (instances d)
    (id_counter d).
Definition upd_ports (f : gmap nat Port → gmap nat Port) (d : Design)
    : Design :=
  mkDesign (models d) (design_top d) (f (ports d)) (nets d) (instances d)
    (id_counter d).
Definition upd_nets (f : gmap nat Net → gmap nat Net) (d : Design)
    : Design :=
  mkDesign (models d) (design_top d) (ports d) (f (nets d)) (instances d)
    (id_counter d).
Definition upd_instances (f : gmap nat Instance → gmap nat Instance)
    (d : Design) : Design :=
  mkDesign (models d) (design_top d) (ports d) (nets d) (f (instances d))
    (id_counter d).

(** Modelled from the spec: every object of the netlist has an identity;
    a new object takes the next identifier of the store. *)
Definition fresh (d : Design) : nat * Design :=
  (id_counter d,
   mkDesign (models d) (design_top d) (ports d) (nets d) (instances d)
     (S (id_counter d))).

Definition with_connection (c : option nat) (P : Port) : Port :=
  mkPort (port_node P) (port_name P) (direction P) c.
Definition with_direction (dir : Direction) (P : Port) : Port :=
  mkPort (port_node P) (port_name P) dir (connection P).
Definition with_connections (s : gset nat) (N : Net) : Net :=
  mkNet (net_name N) (is_constant N) (constant N) s.
Definition with_is_constant (b : bool) (N : Net) : Net :=
  mkNet (net_name N) b (constant N) (connections N).
Definition with_constant (v : Value) (N : Net) : Net :=
  mkNet (net_name N) (is_constant N) v (connections N).

(** The entries of a name-keyed map in the order of the names, the order
    the loops over [top->ports()] and [top->nets()] visit them in. *)
Definition name_le {A} (a b : string * A) : Prop :=
  String.leb a.1 b.1 = true.
#[global] Instance name_le_dec {A} : RelDecision (@name_le A).
Proof. intros a b. unfold name_le. apply _. Defined.
Definition by_name {A} (m : gmap string A) : list (string * A) :=
  merge_sort name_le (map_to_list m).

(** Modelled from the spec: [d->find_model(n)], of [netlist.hh], is the
    "name-based model lookup" of the Design. *)
Definition find_model (n : string) (d : Design) : option string :=
  if decide (is_Some (models d !! n)) then Some n else None.

(** Modelled from the spec: [new Model(d, n)], of [netlist.hh], is an
    empty model registered in the Design under its name.  The spec keys
    the models by name and says nothing of a second model of a name: that
    case is an abort. *)
Definition new_model (n : string) (d : Design) : outcome Design :=
  if decide (is_Some (models d !! n)) then Abort "model name in use"
  else Ok (upd_models <[n := mkModel n ∅ ∅ []]> d).

(** Modelled from the spec: [d->set_top(m)], of [netlist.hh], designates
    the top module. *)
Definition set_top (m : string) (d : Design) : Design :=
  mkDesign (models d) (Some m) (ports d) (nets d) (instances d)
    (id_counter d).

(** Modelled from the spec: [m->find_port(n)], of [netlist.hh], looks an
    interface pin of the model up by its name. *)
Definition find_port (m n : string) (d : Design) : option nat :=
  M ← models d !! m; m_ports M !! n.

(** Modelled from the spec: [m->add_port(n, dir)], of [netlist.hh], is a
    new unconnected interface pin of the model [m]. *)
Definition add_port (m n : string) (dir : Direction) (d : Design)
    : nat * Design :=
  let '(p, d) := fresh d in
  (p, upd_models
        (alter (fun M => mkModel (model_name M) (<[n := p]> (m_ports M))
                           (m_nets M) (m_instances M)) m)
        (upd_ports <[p := mkPort (NodeModel m) n dir None]> d)).

(** Modelled from the spec: [m->find_or_add_net(n)], of [netlist.hh], is
    the net of that name in the model, "created if absent" (not constant,
    without connections). *)
Definition find_or_add_net (m n : string) (d : Design) : nat * Design :=
  match models d !! m ≫= fun M => m_nets M !! n with
  | Some x => (x, d)
  | None =>
      let '(x, d) := fresh d in
      (x, upd_models
            (alter (fun M => mkModel (model_name M) (m_ports M)
                               (<[n := x]> (m_nets M)) (m_instances M)) m)
            (upd_nets <[x := mkNet n false UNSET ∅]> d))
  end.

(** Modelled from the spec: [p->set_direction(dir)], of [netlist.hh]. *)
Definition set_direction (p : nat) (dir : Direction) (d : Design) : Design :=
  upd_ports (alter (with_direction dir) p) d.

(** Modelled from the spec: [n->set_is_constant(b)] and
    [n->set_constant(v)], of [netlist.hh], set the two parts of the
    "optional constant value" of a net. *)
Definition set_is_constant (n : nat) (b : bool) (d : Design) : Design :=
  upd_nets (alter (with_is_constant b) n) d.
Definition set_constant (n : nat) (v : Value) (d : Design) : Design :=
  upd_nets (alter (with_constant v) n) d.

(** Modelled from the spec: [p->connect(n)], of [netlist.hh].  A port has
    "at most one connected net" and a net tracks "the set of ports
    currently connected to it": connecting first takes the port off the
    net it is on. *)
Definition disconnect (p : nat) (d : Design) : Design :=
  match ports d !! p ≫= connection with
  | Some n =>
      upd_ports (alter (with_connection None) p)
        (upd_nets
           (alter (fun N => with_connections (connections N ∖ {[p]}) N) n) d)
  | None => d
  end.

Definition connect (p n : nat) (d : Design) : Design :=
  let d := disconnect p d in
  upd_ports (alter (with_connection (Some n)) p)
    (upd_nets
       (alter (fun N => with_connections ({[p]} ∪ connections N) N) n) d).

(** Modelled from the spec: [n->replace(r)], of [netlist.hh], "redirects
    every connection currently on one net onto another net": every port of
    [n] is connected to [r]. *)
Definition replace (n r : nat) (d : Design) : Design :=
  match nets d !! n with
  | Some N => foldr (fun p d => connect p r d) d (elements (connections N))
  | None => d
  end.

(** Modelled from the spec: [m->remove_net(n)], of [netlist.hh]: the net
    leaves the name-keyed set of nets of its model. *)
Definition remove_net (m : string) (n : nat) (d : Design) : Design :=
  match nets d !! n with
  | Some N =>
      upd_models
        (alter (fun M => mkModel (model_name M) (m_ports M)
                           (delete (net_name N) (m_nets M)) (m_instances M)) m)
        d
  | None => d
  end.

(** [delete n]: the net leaves the store. *)
Definition delete_net (n : nat) (d : Design) : Design :=
  upd_nets (delete n) d.

(** Modelled from the spec: [m->add_instance(inst_of)], of [netlist.hh],
    is a new Instance of [inst_of] inside [m].  The instance "owns its own
    port bindings", looked up by the name of the formal pin: it comes with
    an unconnected pin for every port of [inst_of], of the same name and
    direction. *)
Definition add_instance_port (i : nat) (np : string * nat)
    (acc : gmap string nat * Design) : gmap string nat * Design :=
  let '(pins, d) := acc in
  let '(p, d) := fresh d in
  let dir := default IN (direction <$> ports d !! np.2) in
  (<[np.1 := p]> pins,
   upd_ports <[p := mkPort (NodeInstance i) np.1 dir None]> d).

Definition add_instance (m inst_of : string) (d : Design) : nat * Design :=
  let '(i, d) := fresh d in
  let formals := default [] (by_name <$> (m_ports <$> models d !! inst_of)) in
  let '(pins, d) := foldl (fun acc np => add_instance_port i np acc)
                      (∅, d) formals in
  (i, upd_models
        (alter (fun M => mkModel (model_name M) (m_ports M) (m_nets M)
                           (m_instances M ++ [i])) m)
        (upd_instances <[i := mkInstance inst_of pins ∅ ∅]> d)).

(** Modelled from the spec: [inst->find_port(n)], of [netlist.hh]. *)
Definition inst_find_port (i : nat) (n : string) (d : Design) : option nat :=
  I ← instances d !! i; inst_ports I !! n.

(** Modelled from the spec: [inst->set_attr(n, c)] and
    [inst->set_param(n, c)], of [netlist.hh], write the "string-keyed
    attribute map" and the "string-keyed parameter map". *)
Definition set_attr (i : nat) (n : string) (c : Const) (d : Design)
    : Design :=
  upd_instances
    (alter (fun I => mkInstance (instance_of I) (inst_ports I)
                       (<[n := c]> (attrs I)) (params I)) i) d.
Definition set_param (i : nat) (n : string) (c : Const) (d : Design)
    : Design :=
  upd_instances
    (alter (fun I => mkInstance (instance_of I) (inst_ports I) (attrs I)
                       (<[n := c]> (params I))) i) d.

(** Modelled from the spec: [p->is_bidir()], of [netlist.hh]: the
    direction of the port is INOUT. *)
Definition is_bidir (P : Port) : bool := bool_decide (direction P = INOUT).

(** Modelled from the spec: [p->connection_other_port()], of
    [netlist.hh]: "two ports on the same net can be queried for the other
    port when exactly one other connection exists". *)
Definition connection_other_port (p : nat) (d : Design) : option nat :=
  n ← ports d !! p ≫= connection;
  N ← nets d !! n;
  match elements (connections N ∖ {[p]}) with
  | [q] => Some q
  | _ => None
  end.

(** The connections of a net and the net of a port, read off the store. *)
Definition conns (d : Design) (n : nat) : gset nat :=
  default ∅ (connections <$> nets d !! n).
Definition conn (d : Design) (p : nat) : option nat :=
  ports d !! p ≫= connection.

End Netlist.
Import Netlist.

(* ===================================================================== *)
(** * Directive parser ([BlifParser::parse], the reading loop) *)
(* ===================================================================== *)

(** Modelled from the spec: the line reader ([line_parser.hh]) is not part
    of the sources.  It "reads the next logical line into a word sequence"
    and knows the position of that line; a line is what [read_line] leaves
    in [line], [words] and [lp], and the input is the sequence of lines
    still to be read ([eof()] is the empty sequence). *)
Record Line : Type := mkLine {
  line : string;
  words : list string;
  line_lp : LexicalPosition }.

(** The locals of [parse] that live across the reading loop. *)
Record PState : Type := mkPState {
  design : Design;
  top : option string;
  inst : option nat;
  unify : list (nat * nat);
  lp : LexicalPosition }.

Definition with_design (d : Design) (st : PState) : PState :=
  mkPState d (top st) (inst st) (unify st) (lp st).

(** [read_line()]: the position moves to the line read. *)
Definition read_line (l : Line) (st : PState) : PState :=
  mkPState (design st) (top st) (inst st) (unify st) (line_lp l).

Definition line_empty (l : Line) : bool :=
  bool_decide (String.length (line l) = 0).

(** [line[0] == '.'] *)
Definition line_is_directive (l : Line) : bool :=
  ascii_eqb (char_at (line l) 0) ".".

(** [words[i]], read after the size of [words] has been checked. *)
Definition word (l : Line) (i : nat) : string :=
  default EmptyString (words l !! i).

(** [words.size() - 1] as the messages print it. *)
Definition got (l : Line) : string := pretty (length (words l) - 1).

(** ** [.model] *)
Definition model_directive (l : Line) (st : PState) : outcome PState :=
  if decide (length (words l) ≠ 2) then
    Fatal (lp st)
      ("invalid .model directive: expected exactly 1 argument, got "
         +:+ got l)
  else if decide (is_Some (top st)) then
    Fatal (lp st) "definition of multiple models is not supported"
  else
    d' ← new_model (word l 1) (design st);
    Ok (mkPState (set_top (word l 1) d') (Some (word l 1)) (inst st)
          (unify st) (lp st)).

(** ** [.inputs] and [.outputs]

    One pass of the loop over [words[1..]]: [dir] is the direction of a new
    port (IN for [.inputs], OUT for [.outputs]) and [other] the direction
    of an existing port that makes it INOUT (OUT, respectively IN). *)
Definition declare_port (m : string) (dir other : Direction) (d : Design)
    (w : string) : Design :=
  let '(port, d) :=
    match find_port m w d with
    | Some port =>
        (port,
         if decide (direction <$> ports d !! port = Some other)
         then set_direction port INOUT d else d)
    | None => add_port m w dir d
    end in
  let '(net, d) := find_or_add_net m w d in
  connect port net d.

Definition inputs_directive (l : Line) (st : PState) : outcome PState :=
  match top st with
  | None => Fatal (lp st) ".inputs directive outside of model definition"
  | Some m =>
      Ok (with_design
            (foldl (declare_port m IN OUT) (design st) (drop 1 (words l))) st)
  end.

Definition outputs_directive (l : Line) (st : PState) : outcome PState :=
  match top st with
  | None => Fatal (lp st) ".outputs directive outside of model definition"
  | Some m =>
      Ok (with_design
            (foldl (declare_port m OUT IN) (design st) (drop 1 (words l))) st)
  end.

(** ** [.gate] *)

(** [w.find(c)]. *)
Fixpoint find_char (c : ascii) (w : string) : option nat :=
  match w with
  | EmptyString => None
  | String a w' => if ascii_eqb a c then Some 0 else S <$> find_char c w'
  end.

(** One pass of the loop over the [formal=actual] words. *)
Definition gate_actual (m : string) (i : nat) (at_lp : LexicalPosition)
    (w : string) (d : Design) : outcome Design :=
  match find_char "=" w with
  | None => Fatal at_lp "invalid formal-actual"
  | Some p =>
      let formal := substring 0 p w in
      let actual := substring (p + 1) (String.length w - (p + 1)) w in
      if decide (actual = EmptyString) then Ok d
      else
        match inst_find_port i formal d with
        | None => Fatal at_lp ("unknown formal `" +:+ formal +:+ "'")
        | Some port =>
            let '(net, d) := find_or_add_net m actual d in
            Ok (connect port net d)
        end
  end.

Fixpoint gate_actuals (m : string) (i : nat) (at_lp : LexicalPosition)
    (ws : list string) (d : Design) : outcome Design :=
  match ws with
  | [] => Ok d
  | w :: ws' => d' ← gate_actual m i at_lp w d; gate_actuals m i at_lp ws' d'
  end.

Definition gate_directive (l : Line) (st : PState) : outcome PState :=
  match top st with
  | None => Fatal (lp st) ".gate directive outside of model definition"
  | Some m =>
      if decide (length (words l) < 2) then
        Fatal (lp st) "invalid .gate directive: missing name"
      else
        let n := word l 1 in
        match find_model n (design st) with
        | None => Fatal (lp st) ("unknown model `" +:+ n +:+ "'")
        | Some inst_of =>
            let '(i, d) := add_instance m inst_of (design st) in
            d' ← gate_actuals m i (lp st) (drop 2 (words l)) d;
            Ok (mkPState d' (top st) (Some i) (unify st) (lp st))
        end
  end.

(** ** [.attr] and [.param] *)

(** [w.back()] *)
Definition back (w : string) : ascii := char_at w (String.length w - 1).

(** [w.substr(1, w.size() - 2)]; for the one-character word the count
    wraps around in [size_t] and the rest of the word, which is empty, is
    taken: the same string. *)
Definition unquote (w : string) : string :=
  substring 1 (String.length w - 2) w.

Definition attr_directive (l : Line) (st : PState) : outcome PState :=
  if decide (length (words l) ≠ 3) then
    Fatal (lp st)
      ("invalid .attr directive: expected exactly 2 arguments, got "
         +:+ got l)
  else
    match inst st with
    | None => Fatal (lp st) "no gate for .attr directive"
    | Some i =>
        if ascii_eqb (char_at (word l 2) 0) "034" then
          if ascii_eqb (back (word l 2)) "034" then
            Ok (with_design
                  (set_attr i (word l 1)
                     (ConstString (lp st) (unquote (word l 2))) (design st))
                  st)
          else Abort "assert(words[2].back() == quote)"
        else
          bv ← stobv (lp st) (word l 2);
          Ok (with_design
                (set_attr i (word l 1) (ConstBits (lp st) bv) (design st)) st)
    end.

Definition param_directive (l : Line) (st : PState) : outcome PState :=
  if decide (length (words l) ≠ 3) then
    Fatal (lp st)
      ("invalid .param directive: expected exactly 2 arguments, got "
         +:+ got l)
  else
    match inst st with
    | None => Fatal (lp st) "no gate for .param directive"
    | Some i =>
        if ascii_eqb (char_at (word l 2) 0) "034" then
          if ascii_eqb (back (word l 2)) "034" then
            r ← radiant_stobv (lp st) (unquote (word l 2)) [];
            let decoded : bool := r.1 in
            let rad_bit : BitVector := r.2 in
            if decoded then
              Ok (with_design
                    (set_param i (word l 1) (ConstBits (lp st) rad_bit)
                       (design st)) st)
            else
              Ok (with_design
                    (set_param i (word l 1)
                       (ConstString (lp st) (unquote (word l 2)))
                       (design st)) st)
          else Abort "assert(words[2].back() == quote)"
        else
          bv ← stobv (lp st) (word l 2);
          Ok (with_design
                (set_param i (word l 1) (ConstBits (lp st) bv) (design st))
                st)
    end.

(** ** [.names] *)

(** The head of the directive: what is done before the table is read.
    The result is [(n, names_net, state)].  The two nets of an edge are
    looked up from left to right; the order only decides which of two new
    nets takes the smaller identifier. *)
Definition names_head (l : Line) (st : PState)
    : outcome (nat * option nat * PState) :=
  match top st with
  | None => Fatal (lp st) ".names directive outside of model definition"
  | Some m =>
      let n := length (words l) in
      if decide (n = 2) then
        let '(names_net, d) := find_or_add_net m (word l 1) (design st) in
        let d := set_is_constant names_net true d in
        let d := set_constant names_net ZERO d in
        Ok (n, Some names_net, with_design d st)
      else if decide (n = 3) then
        let '(n1, d) := find_or_add_net m (word l 1) (design st) in
        let '(n2, d) := find_or_add_net m (word l 2) d in
        Ok (n, None,
            mkPState d (top st) (inst st) (unify st ++ [(n1, n2)]) (lp st))
      else
        Fatal (lp st)
          ("invalid .names directive: expected 1 or 2 arguments, got "
             +:+ got l)
  end.

(** The loop that reads the PLA-style table.  [goto_L] is the label [L]:
    the dispatcher, entered with the line just read, the input after it
    and the state.  The end of the input is the label [M]: the loop
    returns the state the reading ends in. *)
Fixpoint names_table
    (goto_L : Line → list Line → PState → outcome PState)
    (n : nat) (names_net : option nat) (names_lp : LexicalPosition)
    (saw11 : bool) (inp : list Line) (st : PState) {struct inp}
    : outcome PState :=
  match inp with
  | [] =>
      if bool_decide (n = 3) && negb saw11 then
        Fatal names_lp "invalid .names directive: unexpected end of file"
      else Ok st
  | l :: rest =>
      let st := read_line l st in
      if line_empty l then
        names_table goto_L n names_net names_lp saw11 rest st
      else if line_is_directive l then
        if bool_decide (n = 3) && negb saw11 then
          Fatal names_lp "invalid .names directive: .names entry expected"
        else goto_L l rest st
      else if bool_decide (length (words l) ≠ n - 1) then
        Fatal (lp st)
          "invalid .names entry: number of gates does not match specified number of nets"
      else if bool_decide (n = 2) then
        let output := word l 0 in
        if bool_decide (output = "1") then
          match names_net with
          | Some x =>
              names_table goto_L n names_net names_lp saw11 rest
                (with_design (set_constant x ONE (design st)) st)
          | None => Abort "names_net"
          end
        else if bool_decide (output ≠ "0") then
          Fatal (lp st) "invalid .names entry: gate must be either 1 or 0"
        else names_table goto_L n names_net names_lp saw11 rest st
      else if bool_decide (n ≠ 3) then Abort "assert(n == 3)"
      else if bool_decide (word l 0 ≠ "1") || bool_decide (word l 1 ≠ "1")
      then Fatal (lp st) "invalid .names entry: both gates must be 1 here"
      else names_table goto_L n names_net names_lp true rest st
  end.

(** ** The reading loop *)

(** The outer [for (;;)]: [dispatch] is the code at label [L]. *)
Fixpoint reading_loop
    (dispatch : Line → list Line → PState → outcome PState)
    (inp : list Line) (st : PState) {struct inp} : outcome PState :=
  match inp with
  | [] => Ok st
  | l :: rest =>
      let st := read_line l st in
      if line_empty l then reading_loop dispatch rest st
      else if line_is_directive l then dispatch l rest st
      else Fatal (lp st) "expected directive"
  end.

(** The code at label [L]: the directive of the line [l] is carried out
    and the reading goes on with [rest]. *)
Fixpoint dispatch (l : Line) (rest : list Line) (st : PState) {struct rest}
    : outcome PState :=
  match words l !! 0 with
  | None => Abort "words[0]"
  | Some cmd =>
      if bool_decide (cmd = ".model") then
        st' ← model_directive l st; reading_loop dispatch rest st'
      else if bool_decide (cmd = ".inputs") then
        st' ← inputs_directive l st; reading_loop dispatch rest st'
      else if bool_decide (cmd = ".outputs") then
        st' ← outputs_directive l st; reading_loop dispatch rest st'
      else if bool_decide (cmd = ".names") then
        h ← names_head l st;
        names_table dispatch h.1.1 h.1.2 (lp st) false rest h.2
      else if bool_decide (cmd = ".gate") then
        st' ← gate_directive l st; reading_loop dispatch rest st'
      else if bool_decide (cmd = ".attr") then
        st' ← attr_directive l st; reading_loop dispatch rest st'
      else if bool_decide (cmd = ".param") then
        st' ← param_directive l st; reading_loop dispatch rest st'
      else if bool_decide (cmd = ".end") then
        match top st with
        | None => Fatal (lp st) ".end directive outside of model definition"
        | Some _ => Ok st
        end
      else Fatal (lp st) ("unknown directive '" +:+ cmd +:+ "'")
  end.

(* ===================================================================== *)
(** * Net unifier ([BlifParser::parse], after label [M]) *)
(* ===================================================================== *)

(** [while (Net *t = lookup_or_default(replacement, r, nullptr)) r = t;]
    The loop takes one step for every mapping it follows; [fuel] bounds
    the steps, and [None] is a loop that has not ended within them. *)
Fixpoint find_root (fuel : nat) (replacement : gmap nat nat) (r : nat)
    : option nat :=
  match replacement !! r with
  | None => Some r
  | Some t =>
      match fuel with
      | 0 => None
      | S fuel' => find_root fuel' replacement t
      end
  end.

(** [while (x != r) { i = replacement.find(x); assert(i != end);
                      x = i->second; i->second = r; }] *)
Fixpoint compress (fuel : nat) (replacement : gmap nat nat) (x r : nat)
    : outcome (gmap nat nat) :=
  if decide (x = r) then Ok replacement
  else
    match fuel with
    | 0 => Diverge
    | S fuel' =>
        match replacement !! x with
        | None => Abort "assert(i != replacement.end())"
        | Some t => compress fuel' (<[x := r]> replacement) t r
        end
    end.

Definition newline : string := String "010" EmptyString.

(** The message of the cycle error, with the line feed the code ends it
    with. *)
Definition cycle_message : string := ".names cycle" +:+ newline.

(** One pass of the loop over [unify]: the edge [(n1, n2)], "n1 drives
    n2".  [replacement] is a [std::map] from nets to nets;
    [lookup_or_default], [contains] and [extend], of [util.hh], are its
    lookup, its membership test and the insertion of a new key.  A chain
    of mappings without a cycle visits every key at most once, so
    [size replacement] steps are enough for both inner loops (lemma
    [unify_edges_acyclic] shows the chains have no cycle). *)
Definition unify_edge (at_lp : LexicalPosition)
    (s : Design * gmap nat nat) (e : nat * nat)
    : outcome (Design * gmap nat nat) :=
  let n1 := e.1 in
  let n2 := e.2 in
  match find_root (size s.2) s.2 n1 with
  | None => Diverge
  | Some r =>
      replacement ← compress (size s.2) s.2 n1 r;
      if decide (n2 = r) then Fatal at_lp cycle_message
      else
        let d := replace n2 r s.1 in
        if decide (is_Some (replacement !! n2)) then
          Fatal at_lp "conflicting .names outputs"
        else Ok (d, <[n2 := r]> replacement)
  end.

Fixpoint unify_edges (at_lp : LexicalPosition) (es : list (nat * nat))
    (s : Design * gmap nat nat) : outcome (Design * gmap nat nat) :=
  match es with
  | [] => Ok s
  | e :: es' => s' ← unify_edge at_lp s e; unify_edges at_lp es' s'
  end.

(** The keys of [replacement] in the order of [IdLess]. *)
Definition replaced (replacement : gmap nat nat) : list nat :=
  merge_sort le (map_to_list replacement).*1.

(** [for (const auto &p : replacement) { top->remove_net(n); delete n; }] *)
Definition remove_replaced (m : string) (ns : list nat) (d : Design)
    : Design :=
  foldl (fun d n => delete_net n (remove_net m n d)) d ns.

Definition unify_nets (at_lp : LexicalPosition) (m : string)
    (es : list (nat * nat)) (d : Design) : outcome Design :=
  s ← unify_edges at_lp es (d, ∅);
  Ok (remove_replaced m (replaced s.2) s.1).

(* ===================================================================== *)
(** * Consistency validator *)
(* ===================================================================== *)

(** [!q || !isa<Instance>(q->node())
     || cast<Instance>(q->node())->instance_of() != io_model
     || q->name() != "PACKAGE_PIN"] *)
Definition not_package_pin (io_model : option string) (d : Design)
    (q : option nat) : bool :=
  match q ≫= fun q => ports d !! q with
  | None => true
  | Some Q =>
      match port_node Q with
      | NodeModel _ => true
      | NodeInstance i =>
          match instances d !! i with
          | None => true
          | Some ins =>
              bool_decide (Some (instance_of ins) ≠ io_model)
              || bool_decide (port_name Q ≠ "PACKAGE_PIN")
          end
      end
  end.

(** The test the loop over [top->ports()] makes of one port: [true] when
    the port makes the loop fail. *)
Definition bidir_violation (io_model : option string) (d : Design)
    (p : nat) : bool :=
  match ports d !! p with
  | None => false
  | Some P =>
      is_bidir P
      && bool_decide (is_Some (connection P))
      && not_package_pin io_model d (connection_other_port p d)
  end.

Definition port_name_of (d : Design) (p : nat) : string :=
  default EmptyString (port_name <$> ports d !! p).

Fixpoint check_bidir (at_lp : LexicalPosition) (io_model : option string)
    (d : Design) (ps : list (string * nat)) : outcome unit :=
  match ps with
  | [] => Ok ()
  | p :: ps' =>
      if bidir_violation io_model d p.2 then
        Fatal at_lp ("toplevel inout port '" +:+ port_name_of d p.2
                       +:+ "' not connected to SB_IO PACKAGE_PIN")
      else check_bidir at_lp io_model d ps'
  end.

(** [isa<Model>(q->node())] *)
Definition on_model (d : Design) (q : nat) : bool :=
  match port_node <$> ports d !! q with
  | Some (NodeModel _) => true
  | _ => false
  end.

(** The loop over [top->instances()] that collects [boundary_nets]. *)
Fixpoint collect_boundary (at_lp : LexicalPosition)
    (io_model : option string) (d : Design) (insts : list nat)
    (boundary_nets : gset nat) : outcome (gset nat) :=
  match insts with
  | [] => Ok boundary_nets
  | inst2 :: insts' =>
      match instances d !! inst2 with
      | None => Abort "instance"
      | Some ins =>
          if decide (Some (instance_of ins) = io_model) then
            match inst_ports ins !! "PACKAGE_PIN" with
            | None => Abort "find_port returned null"
            | Some p =>
                match conn d p, connection_other_port p d with
                | Some n, Some q =>
                    if on_model d q then
                      collect_boundary at_lp io_model d insts'
                        ({[n]} ∪ boundary_nets)
                    else
                      Fatal at_lp
                        "SB_IO PACKAGE_PIN not connected to toplevel port"
                | _, _ =>
                    Fatal at_lp
                      "SB_IO PACKAGE_PIN not connected to toplevel port"
                end
            end
          else collect_boundary at_lp io_model d insts' boundary_nets
      end
  end.

Section Drivers.

(** [Port::is_output] is declared in [netlist.hh], which is not part of
    the sources: whether the port drives the net it is on.  It is a
    parameter of the validator. *)
Variable is_output : Port → bool.

Definition port_is_output (d : Design) (p : nat) : bool :=
  match ports d !! p with
  | Some P => is_output P
  | None => false
  end.

(** [n_drivers] of the net [n]. *)
Definition n_drivers (d : Design) (n : nat) : nat :=
  match nets d !! n with
  | None => 0
  | Some N =>
      (if is_constant N then 1 else 0)
      + length (filter (fun p => port_is_output d p = true)
                  (elements (connections N)))
  end.

Definition net_name_of (d : Design) (n : nat) : string :=
  default EmptyString (net_name <$> nets d !! n).

(** The loop over [top->nets()]. *)
Fixpoint check_drivers (at_lp : LexicalPosition) (d : Design)
    (boundary_nets : gset nat) (ns : list (string * nat)) : outcome unit :=
  match ns with
  | [] => Ok ()
  | p :: ns' =>
      if decide (p.2 ∈ boundary_nets) then
        check_drivers at_lp d boundary_nets ns'
      else if decide (1 < n_drivers d p.2) then
        Fatal at_lp ("net `" +:+ net_name_of d p.2
                       +:+ "' has multiple drivers")
      else check_drivers at_lp d boundary_nets ns'
  end.

(** The three loops that follow the unification. *)
Definition validate (at_lp : LexicalPosition) (io_model : option string)
    (m : string) (d : Design) : outcome unit :=
  match models d !! m with
  | None => Abort "top"
  | Some M =>
      _ ← check_bidir at_lp io_model d (by_name (m_ports M));
      boundary_nets ← collect_boundary at_lp io_model d (m_instances M) ∅;
      check_drivers at_lp d boundary_nets (by_name (m_nets M))
  end.

(** [BlifParser::parse].  [d] is the Design after
    [create_standard_models()], [lp0] the position of the reader before
    the first line and [inp] the lines of the input. *)
Definition parse (d : Design) (lp0 : LexicalPosition) (inp : list Line)
    : outcome Design :=
  let io_model := find_model "SB_IO" d in
  st ← reading_loop dispatch inp (mkPState d None None [] lp0);
  match top st with
  | None => Fatal (lp st) "no top model has been defined"
  | Some m =>
      d' ← unify_nets (lp st) m (unify st) (design st);
      _ ← validate (lp st) io_model m d';
      Ok d'
  end.

End Drivers.

(* ===================================================================== *)
(** * Vocabulary of the statements *)
(* ===================================================================== *)

(** The alphabet of a binary constant. *)
Definition binary_char (c : ascii) : Prop :=
  c = "1"%char ∨ c = "0"%char ∨ c = "x"%char ∨ c = "X"%char.

#[global] Instance binary_char_dec c : Decision (binary_char c).
Proof. unfold binary_char. apply _. Defined.

(** The number a string of decimal digits denotes. *)
Definition decimal_digit (c : ascii) : Prop :=
  (code "0" ≤ code c ≤ code "9")%Z.

#[global] Instance decimal_digit_dec c : Decision (decimal_digit c).
Proof. unfold decimal_digit. apply _. Defined.

Fixpoint decimal_value_from (acc : Z) (cs : list ascii) : Z :=
  match cs with
  | [] => acc
  | c :: cs' => decimal_value_from (acc * 10 + (code c - code "0"))%Z cs'
  end.

Definition decimal_value (s : string) : Z := decimal_value_from 0 (chars s).

(** The radix [radiant_stobv] reads a string in. *)
Definition radix_of (s : string) : nat := (radiant_prefix s).1.2.

(** ** Lines of a [.names] table *)

(** A line [read_line] leaves empty. *)
Definition blank (l : Line) : Prop := line_empty l = true.

(** A row of the table with the fields [ws]: a line that is not empty and
    is not a directive. *)
Definition table_row (ws : list string) (l : Line) : Prop :=
  line_empty l = false ∧ line_is_directive l = false ∧ words l = ws.

(** A line that begins with a dot. *)
Definition directive_line (l : Line) : Prop :=
  line_empty l = false ∧ line_is_directive l = true.

Definition is_row (ws : list string) (l : Line) : bool :=
  negb (line_empty l) && bool_decide (words l = ws).

(** A row with the fields [ws] is among the lines. *)
Definition saw (ws : list string) (rows : list Line) : bool :=
  existsb (is_row ws) rows.

(** The state after the lines have been read and nothing else done. *)
Definition read_lines (rows : list Line) (st : PState) : PState :=
  foldl (fun st l => read_line l st) st rows.

(** The state after the rows of a 1-argument table for the net [x] have
    been read: a row [1] sets the constant to ONE. *)
Definition read_constant_rows (x : nat) (rows : list Line) (st : PState)
    : PState :=
  foldl (fun st l =>
           let st := read_line l st in
           if is_row ["1"] l
           then with_design (set_constant x ONE (design st)) st else st)
    st rows.

(** ** A small library and input to run the parser on *)

Module Sample.

Definition lp0 : LexicalPosition := mkLP "top.blif" 0.

Fixpoint join (ws : list string) : string :=
  match ws with
  | [] => EmptyString
  | [w] => w
  | w :: ws' => w +:+ " " +:+ join ws'
  end.

(** The lines of an input, given by their words, numbered from [k]. *)
Fixpoint lines_from (k : nat) (ls : list (list string)) : list Line :=
  match ls with
  | [] => []
  | ws :: ls' => mkLine (join ws) ws (mkLP "top.blif" k) :: lines_from (S k) ls'
  end.

Definition blif (ls : list (list string)) : list Line := lines_from 1 ls.

Definition model_with (n : string) (pins : list (string * Direction))
    (d : Design) : Design :=
  match new_model n d with
  | Ok d => foldl (fun d pin => (add_port n pin.1 pin.2 d).2) d pins
  | _ => d
  end.

(** A Design with the [SB_IO] primitive and a buffer cell. *)
Definition library : Design :=
  model_with "BUF" [("I", IN); ("O", OUT)]
    (model_with "SB_IO"
       [("PACKAGE_PIN", INOUT); ("D_OUT_0", IN); ("D_IN_0", OUT)]
       (mkDesign ∅ None ∅ ∅ ∅ 0)).

(** A reading of [is_output]: an input pin of the model drives its net
    from outside, an output pin of an instance drives it from inside. *)
Definition is_output (P : Port) : bool :=
  match port_node P with
  | NodeModel _ => bool_decide (direction P = IN)
  | NodeInstance _ => bool_decide (direction P = OUT)
  end.

Definition start : PState := mkPState library None None [] lp0.

(** The state the reading of the lines ends in. *)
Definition state_after (ls : list (list string)) : PState :=
  match reading_loop dispatch (blif ls) start with
  | Ok st => st
  | _ => start
  end.

(** The parser on an input, with this library and this reading of
    [is_output]. *)
Definition run (ls : list (list string)) : outcome Design :=
  parse is_output library lp0 (blif ls).

End Sample.

(** ** Wiring of the ports and drivers of the nets *)

(** The port [p] is an INOUT port with a connected net. *)
Definition connected_inout (d : Design) (p : nat) : Prop :=
  ∃ P, ports d !! p = Some P ∧ direction P = INOUT ∧ is_Some (connection P).

(** The net of [p] has exactly one other port, and that port is the pin
    PACKAGE_PIN of an instance of the model [io_model]. *)
Definition package_pin_wired (io_model : option string) (d : Design)
    (p : nat) : Prop :=
  ∃ q Q i ins,
    connection_other_port p d = Some q
    ∧ ports d !! q = Some Q
    ∧ port_node Q = NodeInstance i
    ∧ instances d !! i = Some ins
    ∧ Some (instance_of ins) = io_model
    ∧ port_name Q = "PACKAGE_PIN".

Definition inout_message (d : Design) (p : nat) : string :=
  "toplevel inout port '" +:+ port_name_of d p
    +:+ "' not connected to SB_IO PACKAGE_PIN".

(** The net [n] is the net of the pin PACKAGE_PIN of one of the instances
    [insts] of the model [io_model]. *)
Definition package_pin_net (io_model : option string) (d : Design)
    (insts : list nat) (n : nat) : Prop :=
  ∃ i ins p,
    i ∈ insts
    ∧ instances d !! i = Some ins
    ∧ Some (instance_of ins) = io_model
    ∧ inst_ports ins !! "PACKAGE_PIN" = Some p
    ∧ conn d p = Some n.

Definition drivers_message (d : Design) (n : nat) : string :=
  "net `" +:+ net_name_of d n +:+ "' has multiple drivers".

(** The drivers of a net as the specification counts them: "count drivers
    = (1 if the net is constant) + (number of connected ports whose role
    on that connection is output)".  These definitions follow the words of
    the specification, not the code of the loop; the role of a port is
    given by the same reading [is_output] of [Port::is_output].

    The port [p] is in the store and its role is output. *)
Definition output_port (is_output : Port → bool) (d : Design) (p : nat)
    : Prop :=
  ∃ P, ports d !! p = Some P ∧ is_output P = true.

#[global] Instance output_port_dec is_output d p :
  Decision (output_port is_output d p).
Proof.
  unfold output_port. destruct (ports d !! p) as [P|].
  - destruct (is_output P) eqn:E.
    + left. by exists P.
    + right. intros (P' & [= <-] & H). congruence.
  - right. by intros (P' & ? & _).
Defined.

(** The net [n] is marked constant. *)
Definition constant_net (d : Design) (n : nat) : Prop :=
  is_constant <$> nets d !! n = Some true.

#[global] Instance constant_net_dec d n : Decision (constant_net d n).
Proof. unfold constant_net. apply _. Defined.

(** The connected ports of the net [n] whose role is output. *)
Definition output_ports (is_output : Port → bool) (d : Design) (n : nat)
    : gset nat :=
  filter (output_port is_output d) (conns d n).

(** The driver count of the specification. *)
Definition driver_count (is_output : Port → bool) (d : Design) (n : nat)
    : nat :=
  (if decide (constant_net d n) then 1 else 0)
  + size (output_ports is_output d n).

(** ** The mappings of the net unifier *)

(** [path m x k r]: following the mappings of [m] from [x] takes [k] steps
    and ends at [r], which [m] does not map. *)
Inductive path (m : gmap nat nat) : nat → nat → nat → Prop :=
| path_root r : m !! r = None → path m r 0 r
| path_step x t k r : m !! x = Some t → path m t k r → path m x (S k) r.

(** No chain of mappings of [m] runs into a cycle; a chain is then no
    longer than [m] has keys. *)
Definition acyclic (m : gmap nat nat) : Prop :=
  ∀ x, ∃ k r, path m x k r ∧ k ≤ size m.

(** The two sides of the graph agree: a net lists the ports that point to
    it. *)
Definition graph_wf (d : Design) : Prop :=
  ∀ p n, p ∈ conns d n ↔ conn d p = Some n.

(** The net a port points to lists the port. *)
Definition listed (d : Design) (p : nat) (P : Port) : Prop :=
  match connection P with
  | Some n => p ∈ conns d n
  | None => True
  end.

#[global] Instance listed_dec d p P : Decision (listed d p P).
Proof. unfold listed. destruct (connection P); apply _. Defined.

Definition graph_wf_check (d : Design) : bool :=
  bool_decide
    (map_Forall (fun n N => set_Forall (fun p => conn d p = Some n)
                              (connections N)) (nets d))
  && bool_decide (map_Forall (listed d) (ports d)).

(** The nets of the model [m] are in the store, under their names. *)
Definition nets_named (d : Design) (m : string) : Prop :=
  ∀ M name n, models d !! m = Some M → m_nets M !! name = Some n →
    net_name <$> nets d !! n = Some name.

Definition nets_named_check (d : Design) (m : string) : bool :=
  match models d !! m with
  | Some M =>
      bool_decide
        (map_Forall (fun name n => net_name <$> nets d !! n = Some name)
           (m_nets M))
  | None => true
  end.

(** The nets of the edges are in the store. *)
Definition edges_exist (d : Design) (es : list (nat * nat)) : Prop :=
  Forall (fun e => is_Some (nets d !! e.1) ∧ is_Some (nets d !! e.2)) es.


(** The edges of a chain of aliases from [y] through [xs], closed by an
    edge from its last net back to [x0]:
    [(y, x1); (x1, x2); ...; (xk, x0)]. *)
Fixpoint cycle_edges (y : nat) (xs : list nat) (x0 : nat)
    : list (nat * nat) :=
  match xs with
  | [] => [(y, x0)]
  | z :: xs' => (y, z) :: cycle_edges z xs' x0
  end.

(** What the loop over the edges keeps true of its state [s], the Design
    and the mappings, when it starts from the Design [d0]: the mappings
    have no cycle and map to nets of [d0], the two sides of the graph
    agree, and the models, the set of nets and their names are those of
    [d0]. *)
Definition unify_inv (d0 : Design) (s : Design * gmap nat nat) : Prop :=
  acyclic s.2
  ∧ graph_wf s.1
  ∧ models s.1 = models d0
  ∧ dom (nets s.1) = dom (nets d0)
  ∧ (∀ n, net_name <$> nets s.1 !! n = net_name <$> nets d0 !! n)
  ∧ map_Forall (fun _ v => is_Some (nets d0 !! v)) s.2.

(** The edges seen as a relation: [drives es a b] when the queue has the
    edge "a drives b", and [aliases es a b] when a chain of such edges
    leads from [a] to [b]. *)
Definition drives (es : list (nat * nat)) (a b : nat) : Prop := (a, b) ∈ es.
Definition aliases (es : list (nat * nat)) : nat → nat → Prop :=
  rtc (drives es).

(** Two nets with the same end of their chains of mappings. *)
Definition same_root (m : gmap nat nat) (u v : nat) : Prop :=
  ∃ r ku kv, path m u ku r ∧ path m v kv r.

(** ** The Design the parser builds *)

(** The store apart from the connections: identifiers from the counter on
    are not in use, the pins of the models and of the instances are ports
    of the store, and the nets of the models are in the store under their
    names. *)
Definition shape_wf (d : Design) : Prop :=
  (∀ x, id_counter d ≤ x → x ∉ dom (ports d) ∧ x ∉ dom (nets d))
  ∧ (∀ m M name p, models d !! m = Some M → m_ports M !! name = Some p →
       p ∈ dom (ports d))
  ∧ (∀ i ins name p, instances d !! i = Some ins →
       inst_ports ins !! name = Some p → p ∈ dom (ports d))
  ∧ (∀ m, nets_named d m).

Definition store_wf (d : Design) : Prop := graph_wf d ∧ shape_wf d.

(** What the reading loop keeps true of its state. *)
Definition parse_inv (st : PState) : Prop :=
  store_wf (design st) ∧ edges_exist (design st) (unify st).

(** ** Tactics *)

(** A branch of the dispatcher that carries a directive out and goes on
    with the reading loop: [lemma] is the lemma of the directive and
    [Hloop] the one of the loop. *)
Ltac directive_case Hloop Hrun lemma :=
  match type of Hrun with
  | context [mbind _ ?c] =>
      let E := fresh "E" in
      destruct c eqn:E; try done; simpl in Hrun;
      eapply Hloop; [|exact Hrun]; eapply lemma; [exact E | done]
  end.


(* ===================================================================== *)
(** * Vocabulary of the further properties *)
(* ===================================================================== *)

(** A letter or a digit of ASCII: the characters [getNumericValue] gives a
    digit value to. *)
Definition alphanumeric (c : ascii) : Prop :=
  decimal_digit c
  ∨ (code "A" ≤ code c ≤ code "Z")%Z
  ∨ (code "a" ≤ code c ≤ code "z")%Z.

#[global] Instance alphanumeric_dec c : Decision (alphanumeric c).
Proof. unfold alphanumeric, decimal_digit. apply _. Defined.

(** The digits of radix 2. *)
Definition binary_digit (c : ascii) : Prop := c = "0"%char ∨ c = "1"%char.

(** A line with the directive [.end]. *)
Definition end_line (l : Line) : Prop :=
  directive_line l ∧ words l !! 0 = Some ".end".

(** A text between two double quotes, as a word of the input. *)
Definition quoted (s : string) : string :=
  String "034" (s +:+ String "034" EmptyString).

(** No edge of the queue closes a chain of the edges before it: there is
    no chain of earlier edges from the net the edge aliases to the net
    that drives it. *)
Definition no_closing_edge (es : list (nat * nat)) : Prop :=
  ∀ i n1 n2, es !! i = Some (n1, n2) → ¬ aliases (take i es) n2 n1.

(** The pin PACKAGE_PIN of the instance is on a net with exactly one other
    port, and that port is an interface pin of a model. *)
Definition pad_wired (d : Design) (ins : Instance) : Prop :=
  ∃ p n q Q mm,
    inst_ports ins !! "PACKAGE_PIN" = Some p
    ∧ conn d p = Some n
    ∧ connection_other_port p d = Some q
    ∧ ports d !! q = Some Q
    ∧ port_node Q = NodeModel mm.

Definition pad_message : string :=
  "SB_IO PACKAGE_PIN not connected to toplevel port".


(** Two states of the reading loop that differ in the position only, and
    two outcomes of the loop that are the same apart from the position of
    the state they end in. *)
Definition same_but_lp (st st' : PState) : Prop :=
  design st = design st' ∧ top st = top st' ∧ inst st = inst st'
  ∧ unify st = unify st'.

Definition same_result (a b : outcome PState) : Prop :=
  match a, b with
  | Ok st, Ok st' => same_but_lp st st'
  | Fatal p msg, Fatal p' msg' => p = p' ∧ msg = msg'
  | Abort w, Abort w' => w = w'
  | Diverge, Diverge => True
  | _, _ => False
  end.

(** The input without the lines [read_line] leaves empty. *)
Definition nonblank (inp : list Line) : list Line :=
  filter (fun l => ¬ blank l) inp.

(** ** Erasure of the positions

    The position that stands for "no position". *)
Definition no_lp : LexicalPosition := mkLP EmptyString 0.

(** A constant, an instance and a Design without the positions of the
    attribute and parameter constants. *)
Definition erase_const (c : Const) : Const :=
  match c with
  | ConstBits _ bv => ConstBits no_lp bv
  | ConstString _ s => ConstString no_lp s
  end.

Definition erase_instance (ins : Instance) : Instance :=
  mkInstance (instance_of ins) (inst_ports ins)
    (erase_const <$> attrs ins) (erase_const <$> params ins).

Definition erase_positions (d : Design) : Design :=
  upd_instances (fmap erase_instance) d.

(** A line, a state of the reading loop and an outcome without their
    positions. *)
Definition erase_line (l : Line) : Line := mkLine (line l) (words l) no_lp.

Definition erase_state (st : PState) : PState :=
  mkPState (erase_positions (design st)) (top st) (inst st) (unify st) no_lp.

Definition erase_outcome {A B} (f : A → B) (o : outcome A) : outcome B :=
  match o with
  | Ok a => Ok (f a)
  | Fatal _ msg => Fatal no_lp msg
  | Abort w => Abort w
  | Diverge => Diverge
  end.

Definition erase_head (h : nat * option nat * PState)
    : nat * option nat * PState :=
  (h.1.1, h.1.2, erase_state h.2).

Definition erase_pair (s : Design * gmap nat nat) : Design * gmap nat nat :=
  (erase_positions s.1, s.2).

(** Two lines with the same text, whatever their positions. *)
Definition same_text (l l' : Line) : Prop :=
  line l = line l' ∧ words l = words l'.

(* ===================================================================== *)
(** * The literal decoder *)
(* ===================================================================== *)

Lemma chars_length s : length (chars s) = String.length s.
Proof. induction s as [|c s IH]; simpl; [done | by rewrite IH]. Qed.

Lemma char_at_lookup s k c : chars s !! k = Some c → char_at s k = c.
Proof. unfold char_at. by intros ->. Qed.

Lemma chars_lookup_char_at s k :
  k < String.length s → chars s !! k = Some (char_at s k).
Proof.
  intros Hk. unfold char_at.
  destruct (chars s !! k) as [c|] eqn:E; [done|].
  apply lookup_ge_None in E. rewrite chars_length in E. lia.
Qed.

Lemma ascii_eqb_true a b : ascii_eqb a b = true ↔ a = b.
Proof. apply Ascii.eqb_eq. Qed.

Lemma ascii_eqb_false a b : ascii_eqb a b = false ↔ a ≠ b.
Proof. apply Ascii.eqb_neq. Qed.

Lemma binary_char_cases c :
  binary_char c ↔
  ascii_eqb c "1" = true
  ∨ (ascii_eqb c "0" || ascii_eqb c "x" || ascii_eqb c "X") = true.
Proof.
  unfold binary_char. rewrite !orb_true_iff, !ascii_eqb_true. tauto.
Qed.

(** The loop of [stobv] over a constant whose remaining characters are all
    in the alphabet: it ends, keeps the bits below [i] and the length, and
    sets the bits from [i] on where the source has a ['1']. *)
Lemma stobv_loop_ok lp s n k : ∀ i bv,
  n = String.length s → i + k = n → length bv = n →
  (∀ j, i ≤ j < n → bv !! j = Some false) →
  (∀ j, i ≤ j < n → binary_char (char_at s (n - 1 - j))) →
  ∃ bv', stobv_loop lp s n k i bv = Ok bv' ∧ length bv' = n
         ∧ (∀ j, j < i → bv' !! j = bv !! j)
         ∧ (∀ j, i ≤ j < n →
              (bv' !! j = Some true ↔ char_at s (n - 1 - j) = "1"%char)).
Proof.
  induction k as [|k IH]; intros i bv Hn Hik Hlen Hclr Hbin; simpl.
  - exists bv. repeat split; try done; intros; lia.
  - assert (Hc := Hbin i ltac:(lia)).
    apply binary_char_cases in Hc.
    destruct (ascii_eqb (char_at s (n - 1 - i)) "1") eqn:E1.
    + unfold BV.set. destruct (decide (i < length bv)) as [Hi|Hi]; [|lia].
      destruct (IH (S i) (<[i := true]> bv)) as (bv' & Hrun & Hl & Hlow & Hhi);
        try done; try lia.
      * by rewrite length_insert.
      * intros j Hj. rewrite list_lookup_insert_ne by lia. apply Hclr. lia.
      * intros j Hj. apply Hbin. lia.
      * exists bv'. repeat split; try done.
        -- intros j Hj. rewrite Hlow by lia.
           apply list_lookup_insert_ne. lia.
        -- intros Hj'. destruct (decide (j = i)) as [->|Hne].
           ++ by apply ascii_eqb_true.
           ++ apply Hhi; [lia | done].
        -- intros Hj'. destruct (decide (j = i)) as [->|Hne].
           ++ rewrite Hlow by lia. apply list_lookup_insert_eq. lia.
           ++ apply Hhi; [lia | done].
    + destruct Hc as [Hc|Hc]; [done|]. rewrite Hc.
      destruct (IH (S i) bv) as (bv' & Hrun & Hl & Hlow & Hhi);
        try done; try lia.
      * intros j Hj. apply Hclr. lia.
      * intros j Hj. apply Hbin. lia.
      * exists bv'. repeat split; try done.
        -- intros j Hj. apply Hlow. lia.
        -- intros Hj'. destruct (decide (j = i)) as [->|Hne].
           ++ rewrite Hlow in Hj' by lia. rewrite Hclr in Hj' by lia. done.
           ++ apply Hhi; [lia | done].
        -- intros Hj'. destruct (decide (j = i)) as [->|Hne].
           ++ apply ascii_eqb_false in E1. done.
           ++ apply Hhi; [lia | done].
Qed.

(** The loop over a constant with a character outside the alphabet among
    the remaining ones. *)
Lemma stobv_loop_fatal lp s n k : ∀ i bv,
  i + k = n → length bv = n →
  (∃ j, i ≤ j < n ∧ ¬ binary_char (char_at s (n - 1 - j))) →
  stobv_loop lp s n k i bv = Fatal lp "invalid character in integer constant".
Proof.
  induction k as [|k IH]; intros i bv Hik Hlen (j & Hj & Hbad); simpl.
  - lia.
  - destruct (decide (binary_char (char_at s (n - 1 - i)))) as [Hc|Hc].
    + assert (j ≠ i) by (intros ->; done).
      apply binary_char_cases in Hc.
      destruct (ascii_eqb (char_at s (n - 1 - i)) "1") eqn:E1.
      * unfold BV.set. destruct (decide (i < length bv)); [|lia].
        apply IH.
        -- lia.
        -- rewrite length_insert. done.
        -- exists j; split; [lia|done].
      * destruct Hc as [Hc|Hc]; [done|]. rewrite Hc.
        apply IH.
        -- lia.
        -- done.
        -- exists j; split; [lia|done].
    + rewrite binary_char_cases in Hc.
      destruct (ascii_eqb (char_at s (n - 1 - i)) "1"); [tauto|].
      destruct (ascii_eqb _ "0" || ascii_eqb _ "x" || ascii_eqb _ "X");
        [tauto | done].
Qed.

Lemma Forall_chars_char_at (P : ascii → Prop) s :
  Forall P (chars s) ↔
  ∀ j, j < String.length s → P (char_at s (String.length s - 1 - j)).
Proof.
  rewrite Forall_lookup. split.
  - intros H j Hj. apply (H (String.length s - 1 - j)).
    apply chars_lookup_char_at. lia.
  - intros H k c Hk.
    assert (k < String.length s).
    { rewrite <- chars_length. by eapply lookup_lt_Some. }
    rewrite <- (char_at_lookup _ _ _ Hk).
    replace k with (String.length s - 1 - (String.length s - 1 - k)) by lia.
    apply H. lia.
Qed.

(** C1.  [stobv] on a string of length N over the characters 0, 1, x, X
    returns a bit-vector of length N whose bit [i], counted from the
    least significant, is set exactly when the character at position
    N-1-i is '1'; on a string with any other character it is fatal with
    "invalid character in integer constant". *)
Theorem stobv_spec (lp : LexicalPosition) (s : string) :
  (Forall binary_char (chars s) →
   ∃ bv, stobv lp s = Ok bv
         ∧ length bv = String.length s
         ∧ ∀ i, i < String.length s →
             (bv !! i = Some true
              ↔ char_at s (String.length s - 1 - i) = "1"%char))
  ∧ (¬ Forall binary_char (chars s) →
     stobv lp s = Fatal lp "invalid character in integer constant").
Proof.
  split.
  - intros Hall. rewrite Forall_chars_char_at in Hall.
    destruct (stobv_loop_ok lp s (String.length s) (String.length s) 0
                (BV.make (String.length s)))
      as (bv & Hrun & Hlen & _ & Hbits); try done.
    + unfold BV.make. by rewrite length_replicate.
    + intros j Hj. unfold BV.make. apply lookup_replicate_2. lia.
    + intros j Hj. apply Hall. lia.
    + exists bv. repeat split; try done; apply Hbits; lia.
  - intros Hnot. unfold stobv. apply stobv_loop_fatal; try done.
    + unfold BV.make. by rewrite length_replicate.
    + apply not_Forall_Exists in Hnot; [|apply _].
      apply Exists_exists in Hnot as (c & Hin & Hc).
      apply list_elem_of_lookup in Hin as [k Hk].
      assert (k < String.length s).
      { rewrite <- chars_length. by eapply lookup_lt_Some. }
      exists (String.length s - 1 - k). split; [lia|].
      replace (String.length s - 1 - (String.length s - 1 - k)) with k by lia.
      by rewrite (char_at_lookup _ _ _ Hk).
Qed.

Lemma stobv_spec_witness :
  (∃ bv, stobv (mkLP "top.blif" 7) "1x0X1" = Ok bv
         ∧ length bv = 5
         ∧ ∀ i, i < 5 →
             (bv !! i = Some true ↔ char_at "1x0X1" (5 - 1 - i) = "1"%char))
  ∧ stobv (mkLP "top.blif" 7) "1021"
    = Fatal (mkLP "top.blif" 7) "invalid character in integer constant".
Proof.
  split.
  - apply (proj1 (stobv_spec (mkLP "top.blif" 7) "1x0X1")). compute_done.
  - apply (proj2 (stobv_spec (mkLP "top.blif" 7) "1021")). compute_done.
Defined.

Example stobv_1x0 lp : stobv lp "1x0" = Ok [false; false; true].
Proof. reflexivity. Qed.


(** ** The multi-radix decoder *)

Lemma getNumericValue_digit c :
  decimal_digit c → getNumericValue c = (code c - code "0")%Z.
Proof.
  unfold decimal_digit, getNumericValue, toupper.
  change (code "0") with 48%Z. change (code "9") with 57%Z.
  change (code "a") with 97%Z. change (code "z") with 122%Z.
  intros [H0 H9].
  destruct (Z.leb_spec 97 (code c)); [lia|]. simpl.
  destruct (Z.leb_spec 48 (code c)); [|lia].
  destruct (Z.leb_spec (code c) 57); [|lia]. done.
Qed.

Lemma decimal_value_from_ge cs : ∀ acc,
  Forall decimal_digit cs → (0 ≤ acc)%Z → (acc ≤ decimal_value_from acc cs)%Z.
Proof.
  induction cs as [|c cs IH]; intros acc Hd Hacc; simpl; [lia|].
  inversion Hd as [|? ? Hc Hcs]; subst.
  unfold decimal_digit in Hc.
  etrans; [|apply IH; [done|lia]]. lia.
Qed.

(** The radix-10 loop on digits whose number fits 64 bits: it ends with
    that number. *)
Lemma radiant_decimal_digits lp s cs : ∀ offset acc,
  drop offset (chars s) = cs → Forall decimal_digit cs →
  (0 ≤ acc)%Z → (decimal_value_from acc cs < 2 ^ 64)%Z →
  radiant_decimal lp s (length cs) offset acc
  = Ok (Some (decimal_value_from acc cs)).
Proof.
  induction cs as [|c cs IH]; intros offset acc Hdrop Hd Hacc Hfit; simpl;
    [done|].
  inversion Hd as [|? ? Hc Hcs]; subst.
  assert (Hat : char_at s offset = c).
  { apply char_at_lookup. rewrite <- (Nat.add_0_r offset).
    rewrite <- lookup_drop, Hdrop. done. }
  rewrite Hat, (getNumericValue_digit c Hc).
  pose proof Hc as [Hc0 Hc9]. simpl in Hfit.
  assert (Hnext : (0 ≤ acc * 10 + (code c - code "0"))%Z) by lia.
  pose proof (decimal_value_from_ge cs _ Hcs Hnext) as Hmono.
  assert (Hu : u64 (acc * 10 + (code c - code "0"))
               = (acc * 10 + (code c - code "0"))%Z).
  { unfold u64. apply Z.mod_small. lia. }
  rewrite Hu.
  destruct (Z.eqb_spec (code c - code "0") (-1)); [lia|].
  destruct (Z.ltb_spec (acc * 10 + (code c - code "0")) acc); [lia|].
  apply IH; try done.
  replace (S offset) with (offset + 1) by lia.
  rewrite <- drop_drop, Hdrop. done.
Qed.

(** The half of C2 the code has: a string that is read in radix 10, made
    of decimal digits, whose number is at most 2^64-1, is decoded to the
    64-bit vector of that number. *)
Lemma radiant_decimal_exact lp s out :
  s ≠ EmptyString → radix_of s = 10 → Forall decimal_digit (chars s) →
  (decimal_value s ≤ 2 ^ 64 - 1)%Z →
  radiant_stobv lp s out = Ok (true, BV.of_int 64 (decimal_value s)).
Proof.
  intros Hne Hradix Hd Hfit. unfold radiant_stobv.
  destruct (decide (0 < String.length s)) as [Hpos|Hpos];
    [|destruct s; [done | simpl in Hpos; lia]].
  assert (Hp : ∃ l, radiant_prefix s = (0, 10, l)).
  { unfold radix_of, radiant_prefix in *.
    repeat (case_match; simpl in *; try done); by eexists. }
  destruct Hp as [l ->]. simpl.
  rewrite Nat.sub_0_r, <- chars_length.
  rewrite (radiant_decimal_digits lp s (chars s) 0 0%Z); try done.
  change (decimal_value_from 0 (chars s)) with (decimal_value s). lia.
Qed.

(** C2.  The code at the string of the digits of 3 * 10^19, a number
    above 2^64-1 that [radiant_stobv] reads in radix 10: the test
    [(intval * 10 + cval) < intval] does not see the wrap-around, the
    decoding succeeds and stores 3 * 10^19 - 2^64 in the 64-bit vector,
    that is 11553255926290448384, where the specification asks for the
    fatal "decimal integer overflow in parameter". *)
Theorem radiant_decimal_overflow_missed (lp : LexicalPosition) :
  radix_of "30000000000000000000" = 10
  ∧ Forall decimal_digit (chars "30000000000000000000")
  ∧ (2 ^ 64 - 1 < decimal_value "30000000000000000000")%Z
  ∧ radiant_stobv lp "30000000000000000000" []
    = Ok (true, BV.of_int 64 (30000000000000000000 - 2 ^ 64))
  ∧ BV.to_Z (BV.of_int 64 (30000000000000000000 - 2 ^ 64))
    = 11553255926290448384%Z.
Proof.
  split; [done|]. split; [compute_done|]. split; [done|].
  split; by vm_compute.
Qed.

(** The overflow test does fire on the digits of 2^64 itself. *)
Example radiant_decimal_overflow_seen lp :
  radiant_stobv lp "18446744073709551616" []
  = Fatal lp "decimal integer overflow in parameter".
Proof. by vm_compute. Qed.

(** C3.  The code at the string [0b2], whose prefix selects radix 2 and
    whose digit 2 does not fit the radix: [getNumericValue] gives 2, the
    only test made of it is the comparison with -1, and the decoding
    succeeds with the one-bit vector of the low bit of 2, where the
    specification asks for the fall-back to string storage. *)
Theorem radiant_digit_above_radix_accepted (lp : LexicalPosition) :
  radiant_prefix "0b2" = (2, 2, 1)
  ∧ getNumericValue (char_at "0b2" 2) = 2%Z
  ∧ radiant_stobv lp "0b2" [] = Ok (true, [false]).
Proof. by vm_compute. Qed.

(** A character that is not alphanumeric does make the radix-2 branch
    fall back. *)
Example radiant_binary_falls_back lp :
  radiant_stobv lp "0b1-1" [] = Ok (false, [true; false; false]).
Proof. by vm_compute. Qed.

(** C4.  The code at the string [1a], read in radix 10: the letter is
    given the digit value 10 by [getNumericValue], which is not -1, so
    the decoding succeeds with the 64-bit vector of 1 * 10 + 10 = 20,
    where the specification asks for the fall-back to string storage. *)
Theorem radiant_decimal_letter_accepted (lp : LexicalPosition) :
  radix_of "1a" = 10
  ∧ ¬ decimal_digit (char_at "1a" 1)
  ∧ getNumericValue (char_at "1a" 1) = 10%Z
  ∧ radiant_stobv lp "1a" [] = Ok (true, BV.of_int 64 20).
Proof.
  split; [done|]. split; [compute_done|]. split; [done|]. by vm_compute.
Qed.

(** A character that is not alphanumeric does make the radix-10 branch
    fall back. *)
Example radiant_decimal_falls_back lp out :
  radiant_stobv lp "12.5" out = Ok (false, out).
Proof. by vm_compute. Qed.

(* ===================================================================== *)
(** * The table of [.names] *)
(* ===================================================================== *)

Lemma dispatch_names l rest st :
  words l !! 0 = Some ".names" →
  dispatch l rest st
  = (h ← names_head l st;
     names_table dispatch h.1.1 h.1.2 (lp st) false rest h.2).
Proof. intros H. destruct rest; simpl; rewrite H; reflexivity. Qed.

Lemma read_lines_fields rows : ∀ st,
  design (read_lines rows st) = design st
  ∧ top (read_lines rows st) = top st
  ∧ inst (read_lines rows st) = inst st
  ∧ unify (read_lines rows st) = unify st.
Proof.
  induction rows as [|l rows IH]; intros st; simpl; [done|].
  destruct (IH (read_line l st)) as (-> & -> & -> & ->). done.
Qed.

Lemma is_row_blank ws l : blank l → is_row ws l = false.
Proof. unfold blank, is_row. by intros ->. Qed.

Lemma is_row_table_row ws l : table_row ws l → is_row ws l = true.
Proof.
  unfold is_row. intros (-> & _ & ->). simpl. by apply bool_decide_eq_true_2.
Qed.




(** The table of a 1-argument [.names] for the net [x], whose lines are
    empty lines and rows [0] and [1]. *)
Lemma names_table_one k x nlp rows : ∀ st saw11,
  Forall (fun l => blank l ∨ table_row ["0"] l ∨ table_row ["1"] l) rows →
  names_table k 2 (Some x) nlp saw11 rows st
  = Ok (read_constant_rows x rows st)
  ∧ ∀ l rest, directive_line l →
      names_table k 2 (Some x) nlp saw11 (rows ++ l :: rest) st
      = k l rest (read_line l (read_constant_rows x rows st)).
Proof.
  induction rows as [|r rows IH]; intros st saw11 Hrows.
  - split; [done|]. intros l rest [He Hd]. simpl. by rewrite He, Hd.
  - inversion Hrows as [|? ? Hr Hrest]; subst.
    destruct Hr as [Hb|[Hrow|Hrow]].
    + pose proof (is_row_blank ["1"] r Hb) as Hno. unfold blank in Hb.
      destruct (IH (read_line r st) saw11 Hrest) as [IH1 IH2].
      split.
      * simpl. rewrite Hb, Hno. apply IH1.
      * intros l rest Hl. simpl. rewrite Hb, Hno. by apply IH2.
    + assert (Hno : is_row ["1"] r = false).
      { unfold is_row. destruct Hrow as (_ & _ & ->).
        rewrite bool_decide_eq_false_2 by done. apply andb_false_r. }
      destruct Hrow as (He & Hd & Hw).
      destruct (IH (read_line r st) saw11 Hrest) as [IH1 IH2].
      split.
      * simpl. rewrite He, Hd, Hw, Hno. simpl.
        unfold word. rewrite Hw. simpl. apply IH1.
      * intros l rest Hl. simpl. rewrite He, Hd, Hw, Hno. simpl.
        unfold word. rewrite Hw. simpl. by apply IH2.
    + pose proof (is_row_table_row _ r Hrow) as Hyes.
      destruct Hrow as (He & Hd & Hw).
      destruct (IH (with_design
                      (set_constant x ONE (design (read_line r st)))
                      (read_line r st)) saw11 Hrest) as [IH1 IH2].
      split.
      * simpl. rewrite He, Hd, Hw, Hyes. simpl.
        unfold word. rewrite Hw. simpl. apply IH1.
      * intros l rest Hl. simpl. rewrite He, Hd, Hw, Hyes. simpl.
        unfold word. rewrite Hw. simpl. by apply IH2.
Qed.

Lemma with_constant_twice v w N :
  with_constant v (with_constant w N) = with_constant v N.
Proof. by destruct N. Qed.

(** The constant the rows leave on the net. *)
Lemma read_constant_rows_net x rows : ∀ st N,
  nets (design st) !! x = Some N →
  nets (design (read_constant_rows x rows st)) !! x
  = Some (with_constant (if saw ["1"] rows then ONE else constant N) N).
Proof.
  induction rows as [|r rows IH]; intros st N HN; simpl.
  - rewrite HN. by destruct N.
  - destruct (is_row ["1"] r) eqn:E; simpl.
    + erewrite IH.
      2:{ simpl. unfold set_constant. simpl.
          rewrite lookup_alter_eq. simpl. rewrite HN. done. }
      rewrite with_constant_twice. simpl. by destruct (saw ["1"] rows).
    + by apply IH.
Qed.

(** The rows are looked at one by one, but what they leave does not depend
    on their order. *)
Lemma saw_Permutation ws rows rows' :
  rows ≡ₚ rows' → saw ws rows = saw ws rows'.
Proof.
  intros HP. unfold saw. apply eq_true_iff_eq.
  rewrite !existsb_exists. split; intros (r & Hin & Hr); exists r;
    (split; [|done]); apply list_elem_of_In; apply list_elem_of_In in Hin.
  - by rewrite <- HP.
  - by rewrite HP.
Qed.

(** C10.  A directive [.names OUT] marks the net of OUT constant and reads
    its table.  When the rows of the table are all [0] or [1], the table
    is read to its end (the end of the input or the next directive) and
    the constant of the net is then ONE if a row [1] is among the rows and
    ZERO otherwise: a row [0] changes nothing, whatever came before it. *)
Theorem names_one_arg_constant (l : Line) (out m : string)
    (rows : list Line) (st : PState) :
  words l = [".names"; out] →
  top st = Some m →
  Forall (fun r => blank r ∨ table_row ["0"] r ∨ table_row ["1"] r) rows →
  ∃ x d1 st',
    find_or_add_net m out (design st) = (x, d1)
    ∧ dispatch l rows st = Ok st'
    ∧ (∀ l' rest, directive_line l' →
         dispatch l (rows ++ l' :: rest) st
         = dispatch l' rest (read_line l' st'))
    ∧ ∀ N, nets d1 !! x = Some N →
        nets (design st') !! x
        = Some (mkNet (net_name N) true
                  (if saw ["1"] rows then ONE else ZERO) (connections N)).
Proof.
  intros Hw Htop Hrows.
  destruct (find_or_add_net m out (design st)) as [x d1] eqn:E1.
  pose (st1 := with_design
                 (set_constant x ZERO (set_is_constant x true d1)) st).
  assert (Hhead : names_head l st = Ok (2, Some x, st1)).
  { unfold names_head, word. rewrite Htop, Hw. simpl. rewrite E1. done. }
  destruct (names_table_one dispatch x (lp st) rows st1 false Hrows)
    as [H1 H2].
  exists x, d1, (read_constant_rows x rows st1).
  split; [done|]. split; [|split].
  - rewrite dispatch_names by (by rewrite Hw). rewrite Hhead. apply H1.
  - intros l' rest Hl'.
    rewrite dispatch_names by (by rewrite Hw). rewrite Hhead. by apply H2.
  - intros N HN.
    rewrite (read_constant_rows_net x rows st1
               (with_constant ZERO (with_is_constant true N))).
    + by destruct N.
    + subst st1. unfold set_constant, set_is_constant. simpl.
      rewrite !lookup_alter_eq. simpl. by rewrite HN.
Qed.

Lemma names_one_arg_constant_witness :
  let st := Sample.state_after [[".model"; "top"]; [".outputs"; "y"]] in
  let l := mkLine ".names y" [".names"; "y"] (mkLP "top.blif" 3) in
  let one := mkLine "1" ["1"] (mkLP "top.blif" 4) in
  let zero := mkLine "0" ["0"] (mkLP "top.blif" 5) in
  ∃ st', dispatch l [one; zero] (read_line l st) = Ok st'
         ∧ constant <$> nets (design st') !! 6 = Some ONE.
Proof.
  intros st l one zero.
  destruct (names_one_arg_constant l "y" "top" [one; zero]
              (read_line l st) eq_refl eq_refl)
    as (x & d1 & st' & H1 & Hrun & _ & Hnet).
  { constructor; [right; right; repeat split|].
    constructor; [right; left; repeat split|]. constructor. }
  exists st'. split; [exact Hrun|].
  vm_compute in H1. injection H1 as <- <-.
  erewrite Hnet; [reflexivity|]. vm_compute. reflexivity.
Defined.

(* ===================================================================== *)
(** * The consistency validator *)
(* ===================================================================== *)

Lemma elem_of_by_name {A} (m : gmap string A) (x : string * A) :
  x ∈ by_name m ↔ m !! x.1 = Some x.2.
Proof.
  unfold by_name. rewrite merge_sort_Permutation.
  destruct x as [k v]. apply elem_of_map_to_list.
Qed.

Lemma not_package_pin_false io d q :
  not_package_pin io d q = false ↔
  ∃ q' Q i ins,
    q = Some q' ∧ ports d !! q' = Some Q ∧ port_node Q = NodeInstance i
    ∧ instances d !! i = Some ins ∧ Some (instance_of ins) = io
    ∧ port_name Q = "PACKAGE_PIN".
Proof.
  unfold not_package_pin. split.
  - destruct q as [q'|]; simpl; [|done].
    destruct (ports d !! q') as [Q|] eqn:EQ; [|done].
    destruct (port_node Q) as [?|i] eqn:EN; [done|].
    destruct (instances d !! i) as [ins|] eqn:EI; [|done].
    rewrite orb_false_iff, !bool_decide_eq_false. intros [H1 H2].
    exists q', Q, i, ins. repeat split; try done.
    + by destruct (decide (Some (instance_of ins) = io)).
    + by destruct (decide (port_name Q = "PACKAGE_PIN")).
  - intros (q' & Q & i & ins & -> & HQ & HN & HI & Hio & Hname). simpl.
    rewrite HQ, HN, HI. rewrite orb_false_iff, !bool_decide_eq_false.
    split; intros H; by apply H.
Qed.

Lemma bidir_violation_true io d p :
  bidir_violation io d p = true ↔
  connected_inout d p ∧ ¬ package_pin_wired io d p.
Proof.
  unfold bidir_violation, connected_inout, package_pin_wired, is_bidir.
  destruct (ports d !! p) as [P|] eqn:EP.
  - rewrite !andb_true_iff, !bool_decide_eq_true. split.
    + intros [[Hdir Hcon] Hbad]. split; [by exists P|].
      intros (q & Q & i & ins & Hq & H).
      assert (not_package_pin io d (connection_other_port p d) = false).
      { apply not_package_pin_false. exists q, Q, i, ins. by rewrite Hq. }
      congruence.
    + intros [(P' & HP' & Hdir & Hcon) Hnot]. simplify_eq.
      repeat split; try done.
      destruct (not_package_pin io d (connection_other_port p d)) eqn:E;
        [done|].
      exfalso. apply Hnot. apply not_package_pin_false in E.
      destruct E as (q & Q & i & ins & Hq & H). by exists q, Q, i, ins.
  - split; [done|]. by intros [(P & HP & _) _].
Qed.

Lemma package_pin_wired_decide io d p :
  connected_inout d p →
  package_pin_wired io d p ↔ bidir_violation io d p = false.
Proof.
  intros Hc. split.
  - intros Hw. destruct (bidir_violation io d p) eqn:E; [|done].
    apply bidir_violation_true in E. tauto.
  - intros E. destruct (not_package_pin io d (connection_other_port p d))
      eqn:E'.
    + assert (bidir_violation io d p = true); [|congruence].
      destruct Hc as (P & HP & Hdir & Hcon).
      unfold bidir_violation, is_bidir. rewrite HP, E'.
      by rewrite !bool_decide_eq_true_2.
    + apply not_package_pin_false in E'.
      destruct E' as (q & Q & i & ins & Hq & H). by exists q, Q, i, ins.
Qed.

(** The loop over the ports: it passes exactly when no port violates the
    wiring rule, and is fatal for such a port otherwise. *)
Lemma check_bidir_spec at_lp io d ps :
  (check_bidir at_lp io d ps = Ok ()
   ↔ ∀ x, x ∈ ps → bidir_violation io d x.2 = false)
  ∧ (check_bidir at_lp io d ps ≠ Ok () →
     ∃ y, y ∈ ps ∧ bidir_violation io d y.2 = true
          ∧ check_bidir at_lp io d ps = Fatal at_lp (inout_message d y.2)).
Proof.
  induction ps as [|x ps [IH1 IH2]]; simpl.
  - split; [|done]. split; [|done]. intros _ x Hx. by apply elem_of_nil in Hx.
  - destruct (bidir_violation io d x.2) eqn:E.
    + split.
      * split; [done|]. intros H. specialize (H x (list_elem_of_here _ _)).
        congruence.
      * intros _. exists x. repeat split; [apply list_elem_of_here|done].
    + split.
      * rewrite IH1. split.
        -- intros H y [->|Hy]%elem_of_cons; [done | by apply H].
        -- intros H y Hy. apply H. by apply list_elem_of_further.
      * intros Hne. destruct (IH2 Hne) as (y & Hy & Hv & Hf).
        exists y. repeat split; [by apply list_elem_of_further|done..].
Qed.

(** C9.  The loop over the ports of the top Model passes exactly when, for
    every port of the Model that is INOUT and has a connected net, the net
    has one other port and that port is the pin PACKAGE_PIN of an instance
    of the SB_IO model; otherwise it, and the validation with it, is fatal
    with "toplevel inout port '..' not connected to SB_IO PACKAGE_PIN" for
    such a port.  An INOUT port without a net is not among the ports the
    condition is about. *)
Theorem inout_ports_wired (is_output : Port → bool)
    (at_lp : LexicalPosition) (io_model : option string) (m : string)
    (d : Design) (M : Model) :
  models d !! m = Some M →
  (check_bidir at_lp io_model d (by_name (m_ports M)) = Ok ()
   ↔ ∀ name p, m_ports M !! name = Some p → connected_inout d p →
       package_pin_wired io_model d p)
  ∧ (validate is_output at_lp io_model m d = Ok () →
     ∀ name p, m_ports M !! name = Some p → connected_inout d p →
       package_pin_wired io_model d p)
  ∧ ((∃ name p, m_ports M !! name = Some p ∧ connected_inout d p
                ∧ ¬ package_pin_wired io_model d p) →
     ∃ name p, m_ports M !! name = Some p ∧ connected_inout d p
               ∧ ¬ package_pin_wired io_model d p
               ∧ validate is_output at_lp io_model m d
                 = Fatal at_lp (inout_message d p)).
Proof.
  intros HM.
  destruct (check_bidir_spec at_lp io_model d (by_name (m_ports M)))
    as [Hok Hfatal].
  assert (Hiff : check_bidir at_lp io_model d (by_name (m_ports M)) = Ok ()
                 ↔ ∀ name p, m_ports M !! name = Some p →
                     connected_inout d p → package_pin_wired io_model d p).
  { rewrite Hok. split.
    - intros H name p Hp Hc. apply package_pin_wired_decide; [done|].
      apply (H (name, p)). by apply elem_of_by_name.
    - intros H [name p] Hx%elem_of_by_name. simpl in *.
      destruct (bidir_violation io_model d p) eqn:E; [|done].
      apply bidir_violation_true in E as [Hc Hn]. destruct Hn. eauto. }
  split; [done|]. split.
  - intros Hv. apply Hiff. unfold validate in Hv. rewrite HM in Hv.
    destruct (check_bidir at_lp io_model d (by_name (m_ports M)))
      as [[]| | |]; done.
  - intros (name & p & Hp & Hc & Hn).
    destruct Hfatal as ([name' p'] & Hy & Hviol & Hf).
    { intros Hcheck. apply Hn. rewrite Hiff in Hcheck. eauto. }
    apply elem_of_by_name in Hy. simpl in *.
    apply bidir_violation_true in Hviol as [Hc' Hn'].
    exists name', p'. repeat split; try done.
    unfold validate. by rewrite HM, Hf.
Qed.

Lemma inout_ports_wired_witness :
  let d := design (Sample.state_after
                     [[".model"; "top"]; [".inputs"; "a"]; [".outputs"; "a"]]) in
  ∃ p, validate Sample.is_output Sample.lp0 (Some "SB_IO") "top" d
       = Fatal Sample.lp0 (inout_message d p).
Proof.
  intros d.
  destruct (models d !! "top") as [M|] eqn:EM; [|by vm_compute in EM].
  destruct (inout_ports_wired Sample.is_output Sample.lp0 (Some "SB_IO")
              "top" d M EM) as (_ & _ & H).
  destruct H as (name & p & _ & _ & _ & Hf); [|by exists p].
  exists "a", 5. vm_compute in EM. injection EM as <-.
  split; [by vm_compute|]. apply bidir_violation_true. by vm_compute.
Defined.

Lemma collect_boundary_spec at_lp io d insts : ∀ acc bn,
  collect_boundary at_lp io d insts acc = Ok bn →
  ∀ n, n ∈ bn ↔ n ∈ acc ∨ package_pin_net io d insts n.
Proof.
  induction insts as [|i insts IH]; intros acc bn Hrun n; simpl in Hrun.
  - injection Hrun as <-. split; [by left|].
    intros [H|(i & ins & p & Hi & _)]; [done|]. by apply elem_of_nil in Hi.
  - destruct (instances d !! i) as [ins|] eqn:EI; [|done].
    destruct (decide (Some (instance_of ins) = io)) as [Hio|Hio].
    + destruct (inst_ports ins !! "PACKAGE_PIN") as [p|] eqn:EP; [|done].
      destruct (conn d p) as [n'|] eqn:EC; [|done].
      destruct (connection_other_port p d) as [q|]; [|done].
      destruct (on_model d q); [|done].
      rewrite (IH _ _ Hrun n), elem_of_union, elem_of_singleton. split.
      * intros [[->|H]|(j & ins' & p' & Hj & H)].
        -- right. exists i, ins, p. repeat split; try done.
           apply list_elem_of_here.
        -- by left.
        -- right. exists j, ins', p'. split; [|done].
           by apply list_elem_of_further.
      * intros [H|(j & ins' & p' & Hj & HI & Hio' & HP & HC)].
        { left. by right. }
        apply elem_of_cons in Hj as [->|Hj].
        -- rewrite EI in HI. injection HI as <-. rewrite EP in HP.
           injection HP as <-. rewrite EC in HC. injection HC as <-.
           left. by left.
        -- right. by exists j, ins', p'.
    + rewrite (IH _ _ Hrun n). split.
      * intros [H|(j & ins' & p' & Hj & H)]; [by left|].
        right. exists j, ins', p'. split; [|done].
        by apply list_elem_of_further.
      * intros [H|(j & ins' & p' & Hj & HI & Hio' & HP & HC)]; [by left|].
        apply elem_of_cons in Hj as [->|Hj].
        -- rewrite EI in HI. injection HI as <-. done.
        -- right. by exists j, ins', p'.
Qed.

(** The loop over the nets: it passes exactly when no net outside the
    boundary set has more than one driver, and is fatal for such a net
    otherwise. *)
Lemma check_drivers_spec is_output at_lp d bn ns :
  (check_drivers is_output at_lp d bn ns = Ok ()
   ↔ ∀ x, x ∈ ns → x.2 ∉ bn → n_drivers is_output d x.2 ≤ 1)
  ∧ (check_drivers is_output at_lp d bn ns ≠ Ok () →
     ∃ y, y ∈ ns ∧ (y.2 ∉ bn) ∧ (1 < n_drivers is_output d y.2)
          ∧ check_drivers is_output at_lp d bn ns
            = Fatal at_lp (drivers_message d y.2)).
Proof.
  induction ns as [|x ns [IH1 IH2]]; simpl.
  - split; [|done]. split; [|done]. intros _ x Hx. by apply elem_of_nil in Hx.
  - destruct (decide (x.2 ∈ bn)) as [Hb|Hb].
    + split.
      * rewrite IH1. split.
        -- intros H y [->|Hy]%elem_of_cons; [done | by apply H].
        -- intros H y Hy. apply H. by apply list_elem_of_further.
      * intros Hne. destruct (IH2 Hne) as (y & Hy & Hv).
        exists y. split; [by apply list_elem_of_further|done].
    + destruct (decide (1 < n_drivers is_output d x.2)) as [Hn|Hn].
      * split.
        -- split; [done|]. intros H.
           specialize (H x (list_elem_of_here _ _) Hb). lia.
        -- intros _. exists x. repeat split; [apply list_elem_of_here|done..].
      * split.
        -- rewrite IH1. split.
           ++ intros H y [->|Hy]%elem_of_cons; [lia | by apply H].
           ++ intros H y Hy. apply H. by apply list_elem_of_further.
        -- intros Hne. destruct (IH2 Hne) as (y & Hy & Hv).
           exists y. split; [by apply list_elem_of_further|done].
Qed.

Lemma port_is_output_true is_output d p :
  port_is_output is_output d p = true ↔ output_port is_output d p.
Proof.
  unfold port_is_output, output_port. destruct (ports d !! p) as [P|].
  - split; [intros H; by exists P|]. by intros (P' & [= <-] & H).
  - split; [done|]. by intros (P' & ? & _).
Qed.

Lemma length_filter_elements (P Q : nat → Prop)
    `{∀ x, Decision (P x)} `{∀ x, Decision (Q x)} (X : gset nat) :
  (∀ x, P x ↔ Q x) →
  length (filter P (elements X)) = size (filter Q X).
Proof.
  intros HPQ. unfold size, set_size. simpl. apply Permutation_length.
  apply NoDup_Permutation.
  - apply NoDup_filter, NoDup_elements.
  - apply NoDup_elements.
  - intros x. rewrite list_elem_of_filter, !elem_of_elements, elem_of_filter.
    by rewrite HPQ.
Qed.

(** The count the loop makes of the drivers of a net is the driver count
    of the specification. *)
Lemma n_drivers_count is_output d n :
  n_drivers is_output d n = driver_count is_output d n.
Proof.
  unfold n_drivers, driver_count, output_ports, conns.
  destruct (decide (constant_net d n)) as [Hk|Hk]; unfold constant_net in Hk;
    destruct (nets d !! n) as [N|]; simpl in *; try done.
  - injection Hk as ->. f_equal.
    apply length_filter_elements. intros p. apply port_is_output_true.
  - destruct (is_constant N); [done|]. f_equal.
    apply length_filter_elements. intros p. apply port_is_output_true.
Qed.

Lemma size_gt_1 (X : gset nat) :
  1 < size X ↔ ∃ p q, p ≠ q ∧ p ∈ X ∧ q ∈ X.
Proof.
  split.
  - intros Hs. destruct (size_pos_elem_of X) as [p Hp]; [lia|].
    destruct (size_pos_elem_of (X ∖ {[p]})) as [q Hq].
    { rewrite size_difference by set_solver. rewrite size_singleton. lia. }
    exists p, q. set_solver.
  - intros (p & q & Hne & Hp & Hq).
    assert (Hsub : ({[p; q]} : gset nat) ⊆ X) by set_solver.
    apply subseteq_size in Hsub.
    rewrite size_union, !size_singleton in Hsub by set_solver. lia.
Qed.

(** More than one driver: a constant net with a connected output port, or
    two connected output ports. *)
Lemma driver_count_many is_output d n :
  1 < driver_count is_output d n ↔
  (constant_net d n ∧ ∃ p, p ∈ conns d n ∧ output_port is_output d p)
  ∨ ∃ p q, p ≠ q ∧ p ∈ conns d n ∧ q ∈ conns d n
           ∧ output_port is_output d p ∧ output_port is_output d q.
Proof.
  unfold driver_count, output_ports.
  set (X := filter (output_port is_output d) (conns d n)).
  assert (HX : ∀ p, p ∈ X ↔ output_port is_output d p ∧ p ∈ conns d n).
  { intros p. unfold X. apply elem_of_filter. }
  split.
  - intros Hc. destruct (decide (1 < size X)) as [H2|H2].
    + right. apply size_gt_1 in H2 as (p & q & Hne & Hp & Hq).
      apply HX in Hp, Hq. exists p, q. naive_solver.
    + left. destruct (decide (constant_net d n)) as [Hk|Hk]; [|lia].
      split; [done|]. destruct (size_pos_elem_of X) as [p Hp]; [lia|].
      apply HX in Hp. exists p. naive_solver.
  - intros [(Hk & p & Hp & Ho)|(p & q & Hne & Hp & Hq & Ho & Ho')].
    + rewrite decide_True by done.
      assert (p ∈ X) as Hin by (apply HX; done).
      assert (size X ≠ 0); [|lia]. intros H0. apply size_empty_inv in H0.
      set_solver.
    + assert (1 < size X); [|lia]. apply size_gt_1. exists p, q.
      split; [done|]. split; by apply HX.
Qed.

(** C8.  When the validation succeeds, every net of the top Model outside
    the boundary set has at most one driver, the driver count of a net
    being that of the specification, [driver_count]: 1 for a net marked
    constant plus the number of connected ports whose role is output; the
    boundary set is the set of the nets of the PACKAGE_PIN pins of the
    SB_IO instances.  Once the two earlier loops have passed, the
    validation succeeds whenever the nets outside the boundary set have at
    most one driver, whatever the drivers of the boundary nets, and is
    fatal with "net `..' has multiple drivers" for a net outside the
    boundary set that has more than one.  A net has more than one driver
    exactly when it is constant and has a connected output port, or has
    two connected output ports. *)
Theorem single_driver_nets (is_output : Port → bool)
    (at_lp : LexicalPosition) (io_model : option string) (m : string)
    (d : Design) (M : Model) :
  models d !! m = Some M →
  (validate is_output at_lp io_model m d = Ok () →
   ∃ bn, collect_boundary at_lp io_model d (m_instances M) ∅ = Ok bn
         ∧ (∀ n, n ∈ bn ↔ package_pin_net io_model d (m_instances M) n)
         ∧ ∀ name n, m_nets M !! name = Some n → n ∉ bn →
             driver_count is_output d n ≤ 1)
  ∧ (∀ bn,
      check_bidir at_lp io_model d (by_name (m_ports M)) = Ok () →
      collect_boundary at_lp io_model d (m_instances M) ∅ = Ok bn →
      ((∀ name n, m_nets M !! name = Some n → n ∉ bn →
          driver_count is_output d n ≤ 1) →
       validate is_output at_lp io_model m d = Ok ())
      ∧ ((∃ name n, m_nets M !! name = Some n ∧ (n ∉ bn)
                    ∧ (1 < driver_count is_output d n)) →
         ∃ name n, m_nets M !! name = Some n ∧ (n ∉ bn)
                   ∧ (1 < driver_count is_output d n)
                   ∧ validate is_output at_lp io_model m d
                     = Fatal at_lp (drivers_message d n)))
  ∧ (∀ n, 1 < driver_count is_output d n ↔
       (constant_net d n
        ∧ ∃ p, p ∈ conns d n ∧ output_port is_output d p)
       ∨ ∃ p q, p ≠ q ∧ p ∈ conns d n ∧ q ∈ conns d n
                ∧ output_port is_output d p ∧ output_port is_output d q).
Proof.
  intros HM. split; [|split].
  - intros Hv. unfold validate in Hv. rewrite HM in Hv.
    destruct (check_bidir at_lp io_model d (by_name (m_ports M)))
      as [[]| | |]; try done. simpl in Hv.
    destruct (collect_boundary at_lp io_model d (m_instances M) ∅)
      as [bn| | |] eqn:EB; try done. simpl in Hv.
    exists bn. split; [done|]. split.
    + intros n. rewrite (collect_boundary_spec _ _ _ _ _ _ EB n).
      split; [|by right]. intros [Hn|Hn]; [|done]. by apply elem_of_empty in Hn.
    + intros name n Hn Hnb. rewrite <- n_drivers_count.
      destruct (check_drivers_spec is_output at_lp d bn (by_name (m_nets M)))
        as [[Hall _] _].
      apply (Hall Hv (name, n)); [by apply elem_of_by_name | done].
  - intros bn Hbidir Hbound.
    destruct (check_drivers_spec is_output at_lp d bn (by_name (m_nets M)))
      as [Hok Hfatal].
    assert (Hval : validate is_output at_lp io_model m d
                   = check_drivers is_output at_lp d bn (by_name (m_nets M))).
    { unfold validate. by rewrite HM, Hbidir, Hbound. }
    split.
    + intros H. rewrite Hval. apply Hok.
      intros [name n] Hx%elem_of_by_name Hnb. rewrite n_drivers_count.
      by apply (H name n).
    + intros (name & n & Hn & Hnb & Hmany).
      destruct Hfatal as ([name' n'] & Hy & Hnb' & Hmany' & Hf).
      { rewrite Hok. intros H.
        specialize (H (name, n) (proj2 (elem_of_by_name _ (name, n)) Hn) Hnb).
        simpl in H. rewrite n_drivers_count in H. lia. }
      apply elem_of_by_name in Hy. exists name', n'.
      rewrite n_drivers_count in Hmany'.
      repeat split; try done. by rewrite Hval.
  - intros n. apply driver_count_many.
Qed.

Lemma single_driver_nets_witness :
  let pad := design (Sample.state_after
                       [[".model"; "top"]; [".inputs"; "a"];
                        [".gate"; "SB_IO"; "PACKAGE_PIN=a"];
                        [".names"; "a"]; ["1"]]) in
  let bare := design (Sample.state_after
                        [[".model"; "top"]; [".inputs"; "a"];
                         [".names"; "a"]; ["1"]]) in
  let twice := design (Sample.state_after
                         [[".model"; "top"]; [".outputs"; "y"];
                          [".gate"; "BUF"; "O=y"]; [".gate"; "BUF"; "O=y"]]) in
  driver_count Sample.is_output pad 6 = 2
  ∧ validate Sample.is_output Sample.lp0 (Some "SB_IO") "top" pad = Ok ()
  ∧ driver_count Sample.is_output bare 6 = 2
  ∧ validate Sample.is_output Sample.lp0 (Some "SB_IO") "top" bare
    = Fatal Sample.lp0 (drivers_message bare 6)
  ∧ output_ports Sample.is_output twice 6 = {[9; 12]}
  ∧ ¬ constant_net twice 6
  ∧ driver_count Sample.is_output twice 6 = 2
  ∧ validate Sample.is_output Sample.lp0 (Some "SB_IO") "top" twice
    = Fatal Sample.lp0 (drivers_message twice 6).
Proof.
  intros pad bare twice.
  split; [by vm_compute|]. split; [|split; [by vm_compute|]].
  - destruct (models pad !! "top") as [M|] eqn:EM; [|by vm_compute in EM].
    destruct (single_driver_nets Sample.is_output Sample.lp0 (Some "SB_IO")
                "top" pad M EM) as (_ & H & _).
    destruct (H (singleton 6)) as [Hok _].
    { vm_compute in EM. injection EM as <-. vm_compute. reflexivity. }
    { vm_compute in EM. injection EM as <-. vm_compute. reflexivity. }
    apply Hok.
    apply (bool_decide_unpack
             (map_Forall
                (fun _ n => n ∉ (singleton 6 : gset nat) →
                            driver_count Sample.is_output pad n ≤ 1)
                (m_nets M))).
    vm_compute in EM. injection EM as <-. vm_compute. reflexivity.
  - split; [|split; [compute_done|split; [compute_done|split; [by vm_compute|]]]].
    + destruct (models bare !! "top") as [M|] eqn:EM; [|by vm_compute in EM].
      destruct (single_driver_nets Sample.is_output Sample.lp0 (Some "SB_IO")
                  "top" bare M EM) as (_ & H & _).
      destruct (H ∅) as [_ Hbad].
      { vm_compute in EM. injection EM as <-. vm_compute. reflexivity. }
      { vm_compute in EM. injection EM as <-. vm_compute. reflexivity. }
      destruct Hbad as (name & n & _ & _ & _ & Hf).
      * exists "a", 6. vm_compute in EM. injection EM as <-.
        split; [by vm_compute|]. split; [|by vm_compute].
        apply not_elem_of_empty.
      * rewrite Hf. by vm_compute.
    + destruct (models twice !! "top") as [M|] eqn:EM; [|by vm_compute in EM].
      destruct (single_driver_nets Sample.is_output Sample.lp0 (Some "SB_IO")
                  "top" twice M EM) as (_ & H & _).
      destruct (H ∅) as [_ Hbad].
      { vm_compute in EM. injection EM as <-. vm_compute. reflexivity. }
      { vm_compute in EM. injection EM as <-. vm_compute. reflexivity. }
      destruct Hbad as (name & n & _ & _ & _ & Hf).
      * exists "y", 6. vm_compute in EM. injection EM as <-.
        split; [by vm_compute|]. split; [|by vm_compute].
        apply not_elem_of_empty.
      * rewrite Hf. by vm_compute.
Defined.

(* ===================================================================== *)
(** * The net unifier: the mappings *)
(* ===================================================================== *)

Lemma path_end m x k r : path m x k r → m !! r = None.
Proof. induction 1; done. Qed.

Lemma path_det m x k r :
  path m x k r → ∀ k' r', path m x k' r' → k = k' ∧ r = r'.
Proof.
  induction 1 as [r Hr|x t k r Hx Hp IH]; intros k' r' H';
    inversion H'; subst; try congruence; [done|].
  assert (t = t0) by congruence. subst.
  destruct (IH _ _ H0) as [-> ->]. done.
Qed.

Lemma find_root_path m x k r :
  path m x k r → ∀ fuel, k ≤ fuel → find_root fuel m x = Some r.
Proof.
  induction 1 as [r Hr|x t k r Hx Hp IH]; intros fuel Hk.
  - destruct fuel; simpl; by rewrite Hr.
  - destruct fuel as [|fuel]; [lia|]. simpl. rewrite Hx. apply IH. lia.
Qed.

Lemma find_root_Some fuel : ∀ m x r,
  find_root fuel m x = Some r → ∃ k, path m x k r ∧ k ≤ fuel.
Proof.
  induction fuel as [|fuel IH]; intros m x r H; simpl in H.
  - destruct (m !! x) eqn:E; [done|]. injection H as <-.
    exists 0. split; [by constructor | lia].
  - destruct (m !! x) as [t|] eqn:E.
    + destruct (IH _ _ _ H) as (k & Hp & Hk).
      exists (S k). split; [by econstructor | lia].
    + injection H as <-. exists 0. split; [by constructor | lia].
Qed.

(** Pointing a key of a chain at the end of the chain shortens chains and
    keeps their ends. *)
Lemma path_compress m x r kx :
  is_Some (m !! x) → path m x kx r →
  ∀ y k ry, path m y k ry → ∃ k', k' ≤ k ∧ path (<[x := r]> m) y k' ry.
Proof.
  intros [t Hx] Hpx.
  pose proof (path_end _ _ _ _ Hpx) as Hr.
  assert (r ≠ x) by (intros ->; congruence).
  induction 1 as [y Hy|y t' k ry Hy Hp IH].
  - exists 0. split; [lia|]. constructor.
    rewrite lookup_insert_ne; [done|]. intros ->. congruence.
  - destruct (decide (y = x)) as [->|Hne].
    + destruct (path_det _ _ _ _ Hpx _ _ (path_step _ _ _ _ _ Hy Hp))
        as [_ <-].
      exists 1. split; [lia|]. econstructor.
      * apply lookup_insert_eq.
      * constructor. by rewrite lookup_insert_ne.
    + destruct IH as (k' & Hk' & Hp').
      exists (S k'). split; [lia|]. econstructor; [|done].
      by rewrite lookup_insert_ne.
Qed.

(** The loop that compresses the chain from [x] to its end [r]: it ends
    within the steps of the chain, keeps the keys, and leaves every chain
    with its end and no longer than it was. *)
Lemma compress_ok fuel : ∀ m x k r,
  path m x k r → k ≤ fuel →
  ∃ m', compress fuel m x r = Ok m'
        ∧ dom m' = dom m
        ∧ ∀ y ky ry, path m y ky ry → ∃ k', k' ≤ ky ∧ path m' y k' ry.
Proof.
  induction fuel as [|fuel IH]; intros m x k r Hp Hk.
  - assert (k = 0) as -> by lia. inversion Hp; subst. simpl.
    destruct (decide (r = r)); [|done].
    exists m. repeat split; [done..|]. intros y ky ry Hy. exists ky. by split.
  - simpl. destruct (decide (x = r)) as [->|Hne].
    + exists m. repeat split; [done..|]. intros y ky ry Hy. exists ky. by split.
    + inversion Hp as [|? t k0 ? Hx Ht]; subst; [done|]. rewrite Hx.
      destruct (path_compress m x r (S k0) (mk_is_Some _ _ Hx) Hp _ _ _ Ht)
        as (k1 & Hk1 & Hp1).
      destruct (IH (<[x := r]> m) t k1 r Hp1 ltac:(lia))
        as (m' & Hrun & Hdom & Hpaths).
      exists m'. split; [done|]. split.
      * rewrite Hdom, dom_insert_L.
        apply elem_of_dom_2 in Hx. clear -Hx. set_solver.
      * intros y ky ry Hy.
        destruct (path_compress m x r (S k0) (mk_is_Some _ _ Hx) Hp _ _ _ Hy)
          as (k2 & Hk2 & Hp2).
        destruct (Hpaths _ _ _ Hp2) as (k3 & Hk3 & Hp3).
        exists k3. split; [lia | done].
Qed.

(** The loop only ever writes the end of the chain into the mappings. *)
Lemma compress_values fuel : ∀ m x r m',
  compress fuel m x r = Ok m' →
  ∀ k v, m' !! k = Some v → v = r ∨ m !! k = Some v.
Proof.
  induction fuel as [|fuel IH]; intros m x r m' Hrun k v Hk; simpl in Hrun.
  - destruct (decide (x = r)); [|done]. injection Hrun as <-. by right.
  - destruct (decide (x = r)); [injection Hrun as <-; by right|].
    destruct (m !! x) as [t|] eqn:Hx; [|done].
    destruct (IH _ _ _ _ Hrun k v Hk) as [->|Hk']; [by left|].
    destruct (decide (x = k)) as [->|Hne].
    + rewrite lookup_insert_eq in Hk'. injection Hk' as <-. by left.
    + rewrite lookup_insert_ne in Hk' by done. by right.
Qed.

(** The end of a chain is its start or a value of the mappings. *)
Lemma path_end_origin m x k r :
  path m x k r → r = x ∨ ∃ y, m !! y = Some r.
Proof.
  induction 1 as [r Hr|x t k r Hx Hp IH]; [by left|].
  destruct IH as [->|IH]; right; [by exists x | done].
Qed.

Lemma acyclic_empty : acyclic ∅.
Proof.
  intros x. exists 0, x. split; [|lia]. constructor. apply lookup_empty.
Qed.

Lemma size_same_dom (m m' : gmap nat nat) : dom m' = dom m → size m' = size m.
Proof. intros H. by rewrite <- !size_dom, H. Qed.

(** Mapping a key that is not mapped to an end that is not mapped either
    makes no cycle. *)
Lemma path_insert_fresh m n2 r :
  m !! n2 = None → m !! r = None → n2 ≠ r →
  ∀ y k ry, path m y k ry →
    path (<[n2 := r]> m) y (if decide (ry = n2) then S k else k)
      (if decide (ry = n2) then r else ry).
Proof.
  intros Hn2 Hr Hne. induction 1 as [y Hy|y t k ry Hy Hp IH].
  - destruct (decide (y = n2)) as [->|Hy2].
    + econstructor; [apply lookup_insert_eq|].
      constructor. by rewrite lookup_insert_ne.
    + constructor. by rewrite lookup_insert_ne.
  - assert (y ≠ n2) by (intros ->; congruence).
    destruct (decide (ry = n2)); (econstructor; [|done]);
      by rewrite lookup_insert_ne.
Qed.

Lemma acyclic_insert_fresh m n2 r :
  m !! n2 = None → m !! r = None → n2 ≠ r →
  acyclic m → acyclic (<[n2 := r]> m).
Proof.
  intros Hn2 Hr Hne Hm x. destruct (Hm x) as (k & rx & Hp & Hk).
  pose proof (path_insert_fresh m n2 r Hn2 Hr Hne _ _ _ Hp) as Hp'.
  rewrite map_size_insert_None by done.
  eexists _, _. split; [exact Hp'|]. destruct (decide (rx = n2)); lia.
Qed.

(** One pass of the loop over the edges, in a state whose mappings have
    no cycle: the two inner loops end, with the representative [r] of
    [n1] and the compressed mappings [m1], and the pass is what the
    tests of the code make of [r], [m1] and [n2]. *)
Lemma unify_edge_run at_lp d m n1 n2 :
  acyclic m →
  ∃ r m1,
    find_root (size m) m n1 = Some r
    ∧ dom m1 = dom m
    ∧ acyclic m1
    ∧ m1 !! r = None
    ∧ (∀ y ky ry, path m y ky ry → ∃ k', k' ≤ ky ∧ path m1 y k' ry)
    ∧ (∀ k v, m1 !! k = Some v → v = r ∨ m !! k = Some v)
    ∧ unify_edge at_lp (d, m) (n1, n2)
      = (if decide (n2 = r) then Fatal at_lp cycle_message
         else if decide (is_Some (m1 !! n2))
              then Fatal at_lp "conflicting .names outputs"
              else Ok (replace n2 r d, <[n2 := r]> m1)).
Proof.
  intros Hm. destruct (Hm n1) as (k & r & Hp & Hk).
  destruct (compress_ok (size m) m n1 k r Hp Hk) as (m1 & Hrun & Hdom & Hpaths).
  exists r, m1.
  pose proof (find_root_path _ _ _ _ Hp _ Hk) as Hfind.
  split; [done|]. split; [done|].
  split; [|split; [|split; [done|split; [by eapply compress_values|]]]].
  - intros x. destruct (Hm x) as (kx & rx & Hpx & Hkx).
    destruct (Hpaths _ _ _ Hpx) as (k' & Hk' & Hp').
    exists k', rx. split; [done|]. rewrite (size_same_dom _ _ Hdom). lia.
  - apply not_elem_of_dom. rewrite Hdom. apply not_elem_of_dom.
    by eapply path_end.
  - unfold unify_edge. simpl. rewrite Hfind, Hrun. simpl. done.
Qed.

Lemma unify_edge_acyclic at_lp s e s' :
  acyclic s.2 → unify_edge at_lp s e = Ok s' → acyclic s'.2.
Proof.
  destruct s as [d m], e as [n1 n2]. simpl. intros Hm Hrun.
  destruct (unify_edge_run at_lp d m n1 n2 Hm)
    as (r & m1 & _ & _ & Hm1 & Hr & _ & _ & Heq).
  rewrite Heq in Hrun.
  destruct (decide (n2 = r)); [done|].
  destruct (decide (is_Some (m1 !! n2))) as [|Hn2]; [done|].
  injection Hrun as <-. simpl.
  apply acyclic_insert_fresh; try done.
  by apply eq_None_not_Some.
Qed.

Lemma unify_edges_acyclic at_lp es : ∀ s s',
  acyclic s.2 → unify_edges at_lp es s = Ok s' → acyclic s'.2.
Proof.
  induction es as [|e es IH]; intros s s' Hs Hrun; simpl in Hrun.
  - by injection Hrun as <-.
  - destruct (unify_edge at_lp s e) as [s1| | |] eqn:E; try done.
    simpl in Hrun. eapply IH; [|done]. by eapply unify_edge_acyclic.
Qed.

Lemma unify_edges_app at_lp es1 es2 s :
  unify_edges at_lp (es1 ++ es2) s
  = (s' ← unify_edges at_lp es1 s; unify_edges at_lp es2 s').
Proof.
  revert s. induction es1 as [|e es1 IH]; intros s; simpl; [done|].
  destruct (unify_edge at_lp s e); simpl; done.
Qed.

(** The part of C6 and C7 that is about the mappings: after a prefix of
    the edges has been processed, the pass for the next edge is decided by
    the representative of its driver. *)
Lemma unify_edge_after at_lp pre d s n1 n2 :
  unify_edges at_lp pre (d, ∅) = Ok s →
  ∃ r m1,
    find_root (size s.2) s.2 n1 = Some r
    ∧ dom m1 = dom s.2
    ∧ m1 !! r = None
    ∧ unify_edge at_lp s (n1, n2)
      = (if decide (n2 = r) then Fatal at_lp cycle_message
         else if decide (is_Some (m1 !! n2))
              then Fatal at_lp "conflicting .names outputs"
              else Ok (replace n2 r s.1, <[n2 := r]> m1)).
Proof.
  intros Hpre.
  assert (Hs : acyclic s.2).
  { eapply (unify_edges_acyclic at_lp pre (d, ∅)); [apply acyclic_empty|done]. }
  destruct s as [d' m]. simpl in *.
  destruct (unify_edge_run at_lp d' m n1 n2 Hs)
    as (r & m1 & H1 & H2 & _ & H3 & _ & _ & H4).
  by exists r, m1.
Qed.

(** A chain of aliases of any length that comes back to its first net is a
    cycle the unifier finds: the nets of the chain are distinct and none
    of them is mapped yet when the chain begins at [y], whose
    representative is [x0]. *)
Lemma cycle_edges_fatal at_lp x0 post xs : ∀ y d m,
  acyclic m → (∃ k, path m y k x0) →
  (∀ z, z ∈ xs → m !! z = None ∧ z ≠ x0) → NoDup xs →
  unify_edges at_lp (cycle_edges y xs x0 ++ post) (d, m)
  = Fatal at_lp cycle_message.
Proof.
  induction xs as [|z xs IH]; intros y d m Hm [k Hy] Hfresh Hnd; simpl.
  - destruct (unify_edge_run at_lp d m y x0 Hm)
      as (r & m1 & Hfind & _ & _ & _ & _ & _ & ->).
    destruct (Hm y) as (k' & r' & Hp' & Hk').
    rewrite (find_root_path _ _ _ _ Hp' _ Hk') in Hfind.
    destruct (path_det _ _ _ _ Hy _ _ Hp') as [_ <-].
    injection Hfind as <-. by destruct (decide (x0 = x0)).
  - destruct (unify_edge_run at_lp d m y z Hm)
      as (r & m1 & Hfind & Hdom & Hm1 & Hr & Hpaths & _ & ->).
    destruct (Hm y) as (k' & r' & Hp' & Hk').
    rewrite (find_root_path _ _ _ _ Hp' _ Hk') in Hfind.
    destruct (path_det _ _ _ _ Hy _ _ Hp') as [_ <-].
    injection Hfind as <-.
    destruct (Hfresh z (list_elem_of_here _ _)) as [Hz Hzx].
    assert (Hz1 : m1 !! z = None).
    { apply not_elem_of_dom. rewrite Hdom. by apply not_elem_of_dom. }
    destruct (decide (z = x0)); [done|].
    destruct (decide (is_Some (m1 !! z))) as [[? ?]|_]; [congruence|].
    simpl. inversion Hnd as [|? ? Hzxs Hnd']; subst.
    apply IH; try done.
    + by apply acyclic_insert_fresh.
    + exists 1. econstructor; [apply lookup_insert_eq|].
      constructor. by rewrite lookup_insert_ne.
    + intros z' Hz'. destruct (Hfresh z' (list_elem_of_further _ _ _ Hz'))
        as [Hm' Hne'].
      split; [|done]. rewrite lookup_insert_ne by (intros ->; done).
      apply not_elem_of_dom. rewrite Hdom. by apply not_elem_of_dom.
Qed.

(** The cycle [x0 -> x1 -> ... -> xk -> x0] over distinct nets, recorded
    in this order, is fatal with the cycle error whatever [k] is. *)
Lemma names_cycle_chain at_lp m x0 xs post d :
  NoDup (x0 :: xs) →
  unify_nets at_lp m (cycle_edges x0 xs x0 ++ post) d
  = Fatal at_lp cycle_message.
Proof.
  intros Hnd. inversion Hnd as [|? ? Hx0 Hxs]; subst.
  unfold unify_nets.
  rewrite (cycle_edges_fatal at_lp x0 post xs x0 d ∅); try done.
  - apply acyclic_empty.
  - exists 0. constructor. apply lookup_empty.
  - intros z Hz. split; [apply lookup_empty|]. by intros ->.
Qed.

(* ===================================================================== *)
(** * The net unifier: the graph *)
(* ===================================================================== *)

Lemma conns_lookup d n N : nets d !! n = Some N → conns d n = connections N.
Proof. unfold conns. by intros ->. Qed.

Lemma conn_is_Some d p n : conn d p = Some n → is_Some (ports d !! p).
Proof. unfold conn. destruct (ports d !! p); [eauto | done]. Qed.

(** ** [connect] *)

Lemma conns_disconnect d p n :
  graph_wf d → conns (disconnect p d) n = conns d n ∖ {[p]}.
Proof.
  intros Hwf. unfold disconnect.
  assert (Hout : conn d p ≠ Some n → conns d n = conns d n ∖ {[p]}).
  { intros Hne. assert (p ∉ conns d n) by (by rewrite (Hwf p n)).
    set_solver. }
  fold (conn d p). destruct (conn d p) as [n0|] eqn:E.
  - unfold conns at 1. simpl.
    destruct (decide (n0 = n)) as [->|Hne].
    + rewrite lookup_alter_eq. unfold conns.
      destruct (nets d !! n); simpl; [done | set_solver].
    + rewrite lookup_alter_ne by done. fold (conns d n). apply Hout.
      congruence.
  - by apply Hout.
Qed.

Lemma conn_disconnect d p p' :
  conn (disconnect p d) p' = if decide (p' = p) then None else conn d p'.
Proof.
  unfold disconnect. fold (conn d p). destruct (conn d p) as [n0|] eqn:E.
  - unfold conn at 1. simpl.
    destruct (decide (p' = p)) as [->|Hne].
    + rewrite lookup_alter_eq. by destruct (ports d !! p).
    + rewrite lookup_alter_ne by done. done.
  - destruct (decide (p' = p)) as [->|]; done.
Qed.

Lemma disconnect_frame d p :
  models (disconnect p d) = models d
  ∧ instances (disconnect p d) = instances d
  ∧ dom (nets (disconnect p d)) = dom (nets d)
  ∧ dom (ports (disconnect p d)) = dom (ports d)
  ∧ ∀ n, net_name <$> nets (disconnect p d) !! n = net_name <$> nets d !! n.
Proof.
  unfold disconnect. destruct (ports d !! p ≫= connection) as [n0|]; simpl.
  - repeat split; try done; try apply dom_alter_L.
    intros n. destruct (decide (n0 = n)) as [->|Hne].
    + rewrite lookup_alter_eq. by destruct (nets d !! n).
    + by rewrite lookup_alter_ne.
  - done.
Qed.

Lemma connect_frame d p n :
  models (connect p n d) = models d
  ∧ instances (connect p n d) = instances d
  ∧ dom (nets (connect p n d)) = dom (nets d)
  ∧ dom (ports (connect p n d)) = dom (ports d)
  ∧ ∀ n', net_name <$> nets (connect p n d) !! n' = net_name <$> nets d !! n'.
Proof.
  destruct (disconnect_frame d p) as (Hm & Hi & Hn & Hp & Hname).
  unfold connect. simpl. rewrite !dom_alter_L.
  repeat split; try done.
  intros n'. rewrite <- Hname. destruct (decide (n = n')) as [->|Hne].
  - rewrite lookup_alter_eq. by destruct (nets (disconnect p d) !! n').
  - by rewrite lookup_alter_ne.
Qed.

Lemma conns_connect d p n n' :
  graph_wf d → is_Some (nets d !! n) →
  conns (connect p n d) n'
  = if decide (n' = n) then {[p]} ∪ conns d n else conns d n' ∖ {[p]}.
Proof.
  intros Hwf Hn.
  rewrite <- !(conns_disconnect d p) by done.
  assert (Hn' : is_Some (nets (disconnect p d) !! n)).
  { apply elem_of_dom. rewrite (proj1 (proj2 (proj2 (disconnect_frame d p)))).
    by apply elem_of_dom. }
  unfold connect, conns at 1. simpl.
  destruct (decide (n' = n)) as [->|Hne].
  - rewrite lookup_alter_eq. destruct Hn' as [N HN].
    rewrite HN. simpl. rewrite <- (conns_lookup _ _ _ HN).
    rewrite !conns_disconnect by done.
    apply set_eq. intros x.
    rewrite !elem_of_union, !elem_of_difference, !elem_of_singleton.
    destruct (decide (x = p)); tauto.
  - rewrite lookup_alter_ne by done. done.
Qed.

Lemma conn_connect d p n p' :
  is_Some (ports d !! p) →
  conn (connect p n d) p' = if decide (p' = p) then Some n else conn d p'.
Proof.
  intros Hp.
  assert (Hp' : is_Some (ports (disconnect p d) !! p)).
  { apply elem_of_dom.
    rewrite (proj1 (proj2 (proj2 (proj2 (disconnect_frame d p))))).
    by apply elem_of_dom. }
  unfold connect, conn at 1. simpl.
  destruct (decide (p' = p)) as [->|Hne].
  - rewrite lookup_alter_eq. destruct Hp' as [P HP]. by rewrite HP.
  - rewrite lookup_alter_ne by done. fold (conn (disconnect p d) p').
    rewrite conn_disconnect. by rewrite decide_False.
Qed.

Lemma connect_wf d p n :
  graph_wf d → is_Some (nets d !! n) → is_Some (ports d !! p) →
  graph_wf (connect p n d).
Proof.
  intros Hwf Hn Hp p' n'.
  rewrite conns_connect, conn_connect by done.
  destruct (decide (n' = n)) as [->|Hne], (decide (p' = p)) as [->|Hpe].
  - set_solver.
  - rewrite elem_of_union, elem_of_singleton, (Hwf p' n). tauto.
  - split; [set_solver | congruence].
  - rewrite elem_of_difference, elem_of_singleton, (Hwf p' n'). tauto.
Qed.
(** ** [replace] *)

(** Connecting the ports [l], all on the net [n2], to the net [r] one
    after the other. *)
Lemma connect_all_spec r n2 l : ∀ d,
  n2 ≠ r → NoDup l → graph_wf d → is_Some (nets d !! r) →
  (∀ p, p ∈ l → conn d p = Some n2) →
  let d' := foldr (fun p d => connect p r d) d l in
  graph_wf d'
  ∧ (∀ n, conns d' n
          = if decide (n = r) then conns d r ∪ list_to_set l
            else conns d n ∖ list_to_set l)
  ∧ (∀ p, conn d' p = if decide (p ∈ l) then Some r else conn d p)
  ∧ models d' = models d
  ∧ instances d' = instances d
  ∧ dom (nets d') = dom (nets d)
  ∧ ∀ n, net_name <$> nets d' !! n = net_name <$> nets d !! n.
Proof.
  induction l as [|p l IH]; intros d Hne Hnd Hwf Hr Hl; cbn [foldr].
  - split; [done|]. split; [|split; [|done]].
    + intros n. destruct (decide (n = r)); set_solver.
    + intros p. rewrite decide_False; [done | apply not_elem_of_nil].
  - inversion Hnd as [|? ? Hp Hnd']; subst.
    destruct (IH d Hne Hnd' Hwf Hr) as (Hwf1 & Hc1 & Hp1 & Hm1 & Hi1 & Hd1 & Hn1).
    { intros p' Hp'. apply Hl. by apply list_elem_of_further. }
    set (d1 := foldr (fun p d => connect p r d) d l) in *.
    assert (Hr1 : is_Some (nets d1 !! r)).
    { apply elem_of_dom. rewrite Hd1. by apply elem_of_dom. }
    assert (Hp1' : is_Some (ports d1 !! p)).
    { apply (conn_is_Some d1 p n2). rewrite Hp1, decide_False by done.
      apply Hl, list_elem_of_here. }
    destruct (connect_frame d1 p r) as (Hm & Hi & Hd & _ & Hn).
    cbv zeta. fold d1.
    split; [by apply connect_wf|]. split; [|split].
    + intros n. rewrite conns_connect by done.
      destruct (decide (n = r)) as [->|Hnr].
      * rewrite Hc1, decide_True by done. set_solver.
      * rewrite Hc1, decide_False by done. set_solver.
    + intros p'. rewrite conn_connect, Hp1 by done.
      destruct (decide (p' = p)) as [->|Hpp].
      * rewrite decide_True; [done | apply list_elem_of_here].
      * destruct (decide (p' ∈ l)).
        -- rewrite decide_True; [done | by apply list_elem_of_further].
        -- rewrite decide_False; [done|]. rewrite elem_of_cons. tauto.
    + split; [congruence|]. split; [congruence|]. split; [congruence|].
      intros n. by rewrite Hn, Hn1.
Qed.

(** [n2->replace(r)] in a graph whose two sides agree: the ports of [n2]
    are now ports of [r], and nothing else has moved. *)
Lemma replace_spec d n2 r :
  n2 ≠ r → graph_wf d → is_Some (nets d !! r) →
  let d' := replace n2 r d in
  graph_wf d'
  ∧ conns d' r = conns d r ∪ conns d n2
  ∧ conns d' n2 = ∅
  ∧ (∀ n, n ≠ r → n ≠ n2 → conns d' n = conns d n)
  ∧ (∀ p, p ∈ conns d n2 → conn d' p = Some r)
  ∧ (∀ p, p ∉ conns d n2 → conn d' p = conn d p)
  ∧ models d' = models d
  ∧ instances d' = instances d
  ∧ dom (nets d') = dom (nets d)
  ∧ ∀ n, net_name <$> nets d' !! n = net_name <$> nets d !! n.
Proof.
  intros Hne Hwf Hr. unfold replace.
  destruct (nets d !! n2) as [N|] eqn:EN; simpl.
  - pose proof (conns_lookup _ _ _ EN) as HN.
    destruct (connect_all_spec r n2 (elements (connections N)) d Hne
                (NoDup_elements _) Hwf Hr)
      as (Hwf' & Hc & Hp & Hm & Hi & Hd & Hn).
    { intros p Hp. apply Hwf. rewrite HN. by apply elem_of_elements. }
    rewrite list_to_set_elements_L in Hc.
    split; [done|]. split; [|split; [|split; [|split; [|split]]]].
    + rewrite Hc, decide_True by done. by rewrite HN.
    + rewrite Hc, decide_False by done. rewrite HN. set_solver.
    + intros n Hnr Hn2. rewrite Hc, decide_False by done.
      apply set_eq. intros p. rewrite elem_of_difference, <- HN.
      rewrite !(Hwf p). split; [tauto|]. intros H. split; [done|]. congruence.
    + intros p Hin. rewrite Hp, decide_True; [done|].
      apply elem_of_elements. by rewrite <- HN.
    + intros p Hin. rewrite Hp, decide_False; [done|].
      rewrite elem_of_elements. by rewrite <- HN.
    + done.
  - assert (conns d n2 = ∅) as -> by (unfold conns; by rewrite EN).
    split; [done|]. split; [by rewrite union_empty_r_L|].
    split; [done|]. split; [done|].
    split; [intros p Hp; by apply elem_of_empty in Hp|].
    split; [done|]. split; [done|]. split; [done|]. split; done.
Qed.

(** ** Removal of the replaced nets *)

Lemma remove_net_nets m n d : nets (remove_net m n d) = nets d.
Proof. unfold remove_net. by destruct (nets d !! n). Qed.

Lemma remove_step_spec m n d :
  nets_named d m →
  let d1 := delete_net n (remove_net m n d) in
  nets_named d1 m
  ∧ nets d1 = delete n (nets d)
  ∧ ∀ M1 name x, models d1 !! m = Some M1 → m_nets M1 !! name = Some x →
      x ≠ n ∧ ∃ M, models d !! m = Some M ∧ m_nets M !! name = Some x.
Proof.
  intros Hnamed. simpl.
  assert (Hnets : nets (delete_net n (remove_net m n d)) = delete n (nets d)).
  { unfold delete_net. simpl. by rewrite remove_net_nets. }
  assert (Hent : ∀ M1 name x,
             models (delete_net n (remove_net m n d)) !! m = Some M1 →
             m_nets M1 !! name = Some x →
             x ≠ n ∧ ∃ M, models d !! m = Some M ∧ m_nets M !! name = Some x).
  { intros M1 name x HM1 Hx. unfold delete_net, remove_net in HM1.
    destruct (nets d !! n) as [N|] eqn:EN; simpl in HM1.
    - rewrite lookup_alter_eq in HM1.
      destruct (models d !! m) as [M|] eqn:EM; [|done].
      injection HM1 as <-. simpl in Hx.
      apply lookup_delete_Some in Hx as [Hname Hx].
      split; [|by exists M].
      intros ->. specialize (Hnamed M name n EM Hx).
      rewrite EN in Hnamed. simpl in Hnamed. congruence.
    - split; [|by exists M1].
      intros ->. specialize (Hnamed M1 name n HM1 Hx).
      by rewrite EN in Hnamed. }
  split; [|by split].
  intros M1 name x HM1 Hx. destruct (Hent M1 name x HM1 Hx) as (Hxn & M & HM & HMx).
  rewrite Hnets, lookup_delete_ne by done. by eapply Hnamed.
Qed.

Lemma remove_replaced_spec m ns : ∀ d,
  nets_named d m →
  let d' := remove_replaced m ns d in
  (∀ n, n ∈ ns → nets d' !! n = None)
  ∧ ∀ M' name x, models d' !! m = Some M' → m_nets M' !! name = Some x →
      x ∉ ns ∧ ∃ M, models d !! m = Some M ∧ m_nets M !! name = Some x.
Proof.
  induction ns as [|n ns IH]; intros d Hnamed; simpl.
  - split; [intros n Hn; by apply elem_of_nil in Hn|].
    intros M' name x HM' Hx. split; [apply not_elem_of_nil | by exists M'].
  - destruct (remove_step_spec m n d Hnamed) as (Hnamed1 & Hnets1 & Hent1).
    destruct (IH _ Hnamed1) as [Hgone Hent].
    assert (Hkeep : ∀ ns' d1, nets d1 !! n = None →
              nets (remove_replaced m ns' d1) !! n = None).
    { clear. induction ns' as [|n' ns' IH']; intros d1 H1; simpl; [done|].
      apply IH'. unfold delete_net. simpl. rewrite remove_net_nets.
      destruct (decide (n' = n)) as [->|Hne].
      - apply lookup_delete_eq.
      - by rewrite lookup_delete_ne. }
    split.
    + intros n' [->|Hn']%elem_of_cons; [|by apply Hgone].
      apply Hkeep. rewrite Hnets1. apply lookup_delete_eq.
    + intros M' name x HM' Hx.
      destruct (Hent M' name x HM' Hx) as (Hns & M1 & HM1 & Hx1).
      destruct (Hent1 M1 name x HM1 Hx1) as (Hxn & M & HM & HMx).
      split; [|by exists M]. rewrite elem_of_cons. tauto.
Qed.
(** ** The loop over the edges *)

Lemma unify_inv_start d0 : graph_wf d0 → unify_inv d0 (d0, ∅).
Proof.
  intros Hwf. split; [apply acyclic_empty|]. split; [done|].
  split; [done|]. split; [done|]. split; [done|]. apply map_Forall_empty.
Qed.

(** One pass of the loop that ends without error. *)
Lemma unify_edge_step at_lp d0 s n1 n2 s' :
  unify_inv d0 s → is_Some (nets d0 !! n1) →
  unify_edge at_lp s (n1, n2) = Ok s' →
  ∃ r, find_root (size s.2) s.2 n1 = Some r
       ∧ n2 ≠ r
       ∧ is_Some (nets s.1 !! r)
       ∧ s'.1 = replace n2 r s.1
       ∧ unify_inv d0 s'
       ∧ dom s.2 ⊆ dom s'.2
       ∧ n2 ∈ dom s'.2.
Proof.
  destruct s as [d m]. simpl.
  intros (Hm & Hwf & Hmod & Hdom & Hname & Hval) Hn1 Hrun. simpl in *.
  destruct (unify_edge_run at_lp d m n1 n2 Hm)
    as (r & m1 & Hfind & Hdom1 & Hm1 & Hr & _ & Hvals & Heq).
  rewrite Heq in Hrun.
  destruct (decide (n2 = r)) as [|Hne]; [done|].
  destruct (decide (is_Some (m1 !! n2))) as [|Hn2]; [done|].
  injection Hrun as <-. simpl.
  assert (Hr0 : is_Some (nets d0 !! r)).
  { apply find_root_Some in Hfind as (k & Hp & _).
    destruct (path_end_origin _ _ _ _ Hp) as [->|[y Hy]]; [done|].
    by apply (Hval y r). }
  assert (Hrd : is_Some (nets d !! r)).
  { apply elem_of_dom. rewrite Hdom. by apply elem_of_dom. }
  destruct (replace_spec d n2 r Hne Hwf Hrd)
    as (Hwf' & _ & _ & _ & _ & _ & Hmod' & _ & Hdom' & Hname').
  exists r. split; [done|]. split; [done|]. split; [done|]. split; [done|].
  split; [|split].
  - split; [|split; [done|split; [by rewrite <- Hmod|split;
                                    [by rewrite <- Hdom|split]]]].
    + apply acyclic_insert_fresh; try done. by apply eq_None_not_Some.
    + intros n. by rewrite Hname', Hname.
    + apply map_Forall_insert_2; [done|].
      intros k v Hk. destruct (Hvals k v Hk) as [->|Hk']; [done|].
      by apply (Hval k v).
  - rewrite dom_insert_L, Hdom1. set_solver.
  - rewrite dom_insert_L. set_solver.
Qed.

Lemma unify_edges_inv at_lp d0 es : ∀ s s',
  unify_inv d0 s → edges_exist d0 es →
  unify_edges at_lp es s = Ok s' →
  unify_inv d0 s' ∧ dom s.2 ⊆ dom s'.2.
Proof.
  induction es as [|[n1 n2] es IH]; intros s s' Hs Hex Hrun; simpl in Hrun.
  - injection Hrun as <-. done.
  - inversion Hex as [|? ? [He1 He2] Hex']; subst. simpl in *.
    destruct (unify_edge at_lp s (n1, n2)) as [s1| | |] eqn:E; try done.
    simpl in Hrun.
    destruct (unify_edge_step at_lp d0 s n1 n2 s1 Hs He1 E)
      as (r & _ & _ & _ & _ & Hs1 & Hsub & _).
    destruct (IH s1 s' Hs1 Hex' Hrun) as [Hs' Hsub'].
    split; [done|]. set_solver.
Qed.

Lemma elem_of_replaced (m : gmap nat nat) n :
  n ∈ replaced m ↔ n ∈ dom m.
Proof.
  unfold replaced. rewrite merge_sort_Permutation, elem_of_dom.
  rewrite list_elem_of_fmap. split.
  - intros ([k v] & -> & H%elem_of_map_to_list). by exists v.
  - intros [v H]. exists (n, v). split; [done|]. by apply elem_of_map_to_list.
Qed.

(** C7, as the code has it.  For every edge (A drives B) of a queue the
    unifier processes without error, in a graph whose two sides agree and
    whose nets are in the store under their names: the pass for the edge
    moves every connection of B onto the representative [r] of A, so that
    after the pass the connections of [r] are those [r] and B had before
    the pass, B has none, no other net has changed, and the ports that
    were on B point to [r]; and after the loop over the mapped nets B is
    neither in the store nor among the nets of the Model.  The
    connections of [r] are those of A and B when A is its own
    representative. *)
Theorem unify_redirects (at_lp : LexicalPosition) (m : string)
    (pre post : list (nat * nat)) (A B : nat) (d0 dfin : Design) :
  graph_wf d0 →
  nets_named d0 m →
  edges_exist d0 (pre ++ (A, B) :: post) →
  unify_nets at_lp m (pre ++ (A, B) :: post) d0 = Ok dfin →
  ∃ s s' r,
    unify_edges at_lp pre (d0, ∅) = Ok s
    ∧ find_root (size s.2) s.2 A = Some r
    ∧ unify_edge at_lp s (A, B) = Ok s'
    ∧ conns s'.1 r = conns s.1 r ∪ conns s.1 B
    ∧ conns s'.1 B = ∅
    ∧ (∀ n, n ≠ r → n ≠ B → conns s'.1 n = conns s.1 n)
    ∧ (∀ p, p ∈ conns s.1 B → conn s'.1 p = Some r)
    ∧ (r = A → conns s'.1 A = conns s.1 A ∪ conns s.1 B)
    ∧ nets dfin !! B = None
    ∧ ∀ M name, models dfin !! m = Some M → m_nets M !! name ≠ Some B.
Proof.
  intros Hwf Hnamed Hex Hrun.
  apply Forall_app in Hex as [Hpre Hex].
  inversion Hex as [|? ? [HA HB] Hpost]; subst. simpl in HA, HB.
  unfold unify_nets in Hrun. rewrite unify_edges_app in Hrun.
  destruct (unify_edges at_lp pre (d0, ∅)) as [s| | |] eqn:Epre; try done.
  simpl in Hrun.
  destruct (unify_edge at_lp s (A, B)) as [s'| | |] eqn:Eedge; try done.
  simpl in Hrun.
  destruct (unify_edges at_lp post s') as [s''| | |] eqn:Epost; try done.
  simpl in Hrun. injection Hrun as <-.
  destruct (unify_edges_inv at_lp d0 pre _ _ (unify_inv_start d0 Hwf) Hpre Epre)
    as [Hs _].
  destruct (unify_edge_step at_lp d0 s A B s' Hs HA Eedge)
    as (r & Hfind & Hne & Hr & Hd' & Hs' & _ & HB').
  destruct (unify_edges_inv at_lp d0 post _ _ Hs' Hpost Epost)
    as [Hs'' Hsub].
  destruct Hs as (_ & Hwfs & _).
  destruct (replace_spec s.1 B r Hne Hwfs Hr)
    as (_ & Hcr & HcB & Hco & Hpr & _).
  rewrite <- Hd' in Hcr, HcB, Hco, Hpr.
  exists s, s', r. split; [done|]. split; [done|]. split; [done|].
  split; [done|]. split; [done|]. split; [done|]. split; [done|].
  split; [by intros <-|].
  destruct Hs'' as (_ & _ & Hmod & _ & Hname & _).
  assert (Hnamed'' : nets_named s''.1 m).
  { intros M name n HM Hn. rewrite Hname. rewrite Hmod in HM.
    by eapply Hnamed. }
  destruct (remove_replaced_spec m (replaced s''.2) s''.1 Hnamed'')
    as [Hgone Hent].
  assert (HBin : B ∈ replaced s''.2).
  { apply elem_of_replaced. set_solver. }
  split; [by apply Hgone|].
  intros M name HM Hx. by destruct (Hent M name B HM Hx) as [Hno _].
Qed.
Lemma graph_wf_check_sound d : graph_wf_check d = true → graph_wf d.
Proof.
  unfold graph_wf_check. rewrite andb_true_iff, !bool_decide_eq_true.
  intros [Hnets Hports] p n. split.
  - unfold conns. destruct (nets d !! n) as [N|] eqn:EN; simpl.
    + intros Hp. by apply (Hnets n N EN p).
    + intros Hp. by apply elem_of_empty in Hp.
  - unfold conn. destruct (ports d !! p) as [P|] eqn:EP; simpl; [|done].
    intros HP. specialize (Hports p P EP). unfold listed in Hports.
    by rewrite HP in Hports.
Qed.

Lemma nets_named_check_sound d m :
  nets_named_check d m = true → nets_named d m.
Proof.
  unfold nets_named_check. intros Hc M name n HM Hn. rewrite HM in Hc.
  apply bool_decide_eq_true in Hc. by apply (Hc name n).
Qed.

(** C7, as the specification states it, fails on a chain of two aliases.  In the
    Design of the input below the nets [a], [b], [c] are 6, 8, 10 and
    carry the ports 5, 7, 9; the queue is [(a, b); (b, c)].  When the edge
    (b, c) is processed the representative of [b] is [a], which survives
    with the ports 5, 7, 9: not the union of the connections of [b] and
    [c], neither as they were in the beginning (7 and 9) nor as they are
    when the edge is processed (9 alone). *)
Lemma unify_union_counterexample :
  let st := Sample.state_after
              [[".model"; "top"]; [".inputs"; "a"]; [".outputs"; "b"; "c"];
               [".names"; "a"; "b"]; ["1"; "1"];
               [".names"; "b"; "c"]; ["1"; "1"]] in
  let d0 := design st in
  unify st = [(6, 8)] ++ (8, 10) :: []
  ∧ ∃ s s',
      unify_edges Sample.lp0 [(6, 8)] (d0, ∅) = Ok s
      ∧ find_root (size s.2) s.2 8 = Some 6
      ∧ unify_edge Sample.lp0 s (8, 10) = Ok s'
      ∧ conns s'.1 6 = {[5; 7; 9]}
      ∧ conns d0 8 ∪ conns d0 10 = {[7; 9]}
      ∧ conns s.1 8 ∪ conns s.1 10 = {[9]}
      ∧ conns s'.1 6 ≠ conns d0 8 ∪ conns d0 10
      ∧ conns s'.1 6 ≠ conns s.1 8 ∪ conns s.1 10.
Proof.
  intros st d0. split; [by vm_compute|].
  eexists _, _. split; [vm_compute; reflexivity|].
  split; [vm_compute; reflexivity|]. split; [vm_compute; reflexivity|].
  split; [vm_compute; reflexivity|]. split; [vm_compute; reflexivity|].
  split; [vm_compute; reflexivity|].
  split; apply (bool_decide_unpack _); vm_compute; exact I.
Qed.

Lemma unify_redirects_witness :
  let st := Sample.state_after
              [[".model"; "top"]; [".inputs"; "a"]; [".outputs"; "b"; "c"];
               [".names"; "a"; "b"]; ["1"; "1"];
               [".names"; "b"; "c"]; ["1"; "1"]] in
  ∃ dfin,
    unify_nets Sample.lp0 "top" ([(6, 8)] ++ (8, 10) :: []) (design st)
    = Ok dfin
    ∧ nets dfin !! 10 = None
    ∧ ∀ M name, models dfin !! "top" = Some M → m_nets M !! name ≠ Some 10.
Proof.
  intros st.
  destruct (unify_nets Sample.lp0 "top" ([(6, 8)] ++ (8, 10) :: [])
              (design st)) as [dfin| | |] eqn:E; [|by vm_compute in E..].
  exists dfin. split; [done|].
  destruct (unify_redirects Sample.lp0 "top" [(6, 8)] [] 8 10 (design st)
              dfin) as (s & s' & r & _ & _ & _ & _ & _ & _ & _ & _ & H);
    [| | |exact E|exact H].
  - apply graph_wf_check_sound. by vm_compute.
  - apply nets_named_check_sound. by vm_compute.
  - apply (bool_decide_unpack _). by vm_compute.
Defined.
(* ===================================================================== *)
(** * The net unifier: cycles *)
(* ===================================================================== *)

Lemma same_root_refl m x : acyclic m → same_root m x x.
Proof. intros Hm. destruct (Hm x) as (k & r & Hp & _). by exists r, k, k. Qed.

Lemma same_root_trans m u v w :
  same_root m u v → same_root m v w → same_root m u w.
Proof.
  intros (r & ku & kv & Hu & Hv) (r' & kv' & kw & Hv' & Hw).
  destruct (path_det _ _ _ _ Hv _ _ Hv') as [_ <-]. by exists r, ku, kw.
Qed.

(** One pass of the loop without error: nets that had the same end of
    their chains still have, the two nets of the edge now have, and the
    aliased net is the one new key. *)
Lemma unify_edge_roots at_lp d m n1 n2 s' :
  acyclic m → unify_edge at_lp (d, m) (n1, n2) = Ok s' →
  (∀ u v, same_root m u v → same_root s'.2 u v)
  ∧ same_root s'.2 n1 n2
  ∧ dom s'.2 = {[n2]} ∪ dom m.
Proof.
  intros Hm Hrun.
  destruct (unify_edge_run at_lp d m n1 n2 Hm)
    as (r & m1 & Hfind & Hdom & Hm1 & Hr & Hpaths & _ & Heq).
  rewrite Heq in Hrun.
  destruct (decide (n2 = r)) as [|Hne]; [done|].
  destruct (decide (is_Some (m1 !! n2))) as [|Hn2]; [done|].
  injection Hrun as <-. simpl.
  apply eq_None_not_Some in Hn2.
  pose proof (path_insert_fresh m1 n2 r Hn2 Hr Hne) as Hins.
  split; [|split].
  - intros u v (r0 & ku & kv & Hu & Hv).
    destruct (Hpaths _ _ _ Hu) as (ku' & _ & Hu').
    destruct (Hpaths _ _ _ Hv) as (kv' & _ & Hv').
    eexists _, _, _. split; [exact (Hins _ _ _ Hu') | exact (Hins _ _ _ Hv')].
  - apply find_root_Some in Hfind as (k & Hp & _).
    destruct (Hpaths _ _ _ Hp) as (k' & _ & Hp').
    assert (H1 : path (<[n2:=r]> m1) n1 k' r).
    { generalize (Hins _ _ _ Hp').
      by rewrite !decide_False by (intros ->; done). }
    assert (H2 : path (<[n2:=r]> m1) n2 1 r).
    { generalize (Hins _ _ _ (path_root m1 n2 Hn2)).
      by rewrite !decide_True by done. }
    eexists _, _, _. split; [exact H1 | exact H2].
  - by rewrite dom_insert_L, Hdom.
Qed.

Lemma unify_edges_roots at_lp es : ∀ s s',
  acyclic s.2 → unify_edges at_lp es s = Ok s' →
  (∀ u v, same_root s.2 u v → same_root s'.2 u v)
  ∧ (∀ u v, (u, v) ∈ es → same_root s'.2 u v)
  ∧ dom s'.2 = list_to_set es.*2 ∪ dom s.2.
Proof.
  induction es as [|[n1 n2] es IH]; intros s s' Hs Hrun; simpl in Hrun.
  - injection Hrun as <-. split; [done|]. split.
    + intros u v H. by apply elem_of_nil in H.
    + simpl. by rewrite union_empty_l_L.
  - destruct (unify_edge at_lp s (n1, n2)) as [s1| | |] eqn:E; try done.
    simpl in Hrun. destruct s as [d m]. simpl in *.
    destruct (unify_edge_roots at_lp d m n1 n2 s1 Hs E) as (Hk1 & He1 & Hd1).
    pose proof (unify_edge_acyclic at_lp (d, m) (n1, n2) s1 Hs E) as Hs1.
    destruct (IH s1 s' Hs1 Hrun) as (Hk & He & Hd).
    split; [|split].
    + intros u v H. by apply Hk, Hk1.
    + intros u v [H|H]%elem_of_cons; [|by apply He].
      injection H as -> ->. by apply Hk.
    + rewrite Hd, Hd1. set_solver.
Qed.

(** After a prefix of the queue has been processed without error, a net
    [b] that a chain of its edges aliases to [a] has the representative of
    [a]. *)
Lemma aliases_same_root at_lp pre d s a b :
  unify_edges at_lp pre (d, ∅) = Ok s → aliases pre a b →
  acyclic s.2 ∧ same_root s.2 a b ∧ dom s.2 = list_to_set pre.*2.
Proof.
  intros Hpre Hab.
  pose proof (unify_edges_acyclic at_lp pre (d, ∅) s acyclic_empty Hpre) as Hs.
  destruct (unify_edges_roots at_lp pre (d, ∅) s acyclic_empty Hpre)
    as (_ & He & Hd).
  split; [done|]. split.
  - induction Hab as [x|x y z Hxy _ IH]; [by apply same_root_refl|].
    eapply same_root_trans; [|exact IH]. by apply He.
  - rewrite Hd. simpl. by rewrite dom_empty_L, union_empty_r_L.
Qed.

(** The representative of a net [n1] that a chain of the processed edges
    aliases to [n2], when none of them aliases [n2]. *)
Lemma alias_representative at_lp pre d s n1 n2 :
  unify_edges at_lp pre (d, ∅) = Ok s → aliases pre n2 n1 → n2 ∉ pre.*2 →
  find_root (size s.2) s.2 n1 = Some n2.
Proof.
  intros Hpre Hal Hn2.
  destruct (aliases_same_root at_lp pre d s n2 n1 Hpre Hal)
    as (Hs & (r & k2 & k1 & Hp2 & Hp1) & Hd).
  assert (Hroot : s.2 !! n2 = None).
  { apply not_elem_of_dom. rewrite Hd, elem_of_list_to_set. done. }
  destruct (path_det _ _ _ _ Hp2 _ _ (path_root _ _ Hroot)) as [_ ->].
  destruct (Hs n1) as (k & r & Hp & Hk).
  destruct (path_det _ _ _ _ Hp1 _ _ Hp) as [_ <-].
  by apply (find_root_path _ _ _ _ Hp).
Qed.

(** The pass for an edge whose aliased net is the representative of its
    driver. *)
Lemma cycle_edge_fatal at_lp m pre post n1 n2 d s :
  unify_edges at_lp pre (d, ∅) = Ok s →
  find_root (size s.2) s.2 n1 = Some n2 →
  unify_nets at_lp m (pre ++ (n1, n2) :: post) d = Fatal at_lp cycle_message.
Proof.
  intros Hpre Hrep.
  destruct (unify_edge_after at_lp pre d s n1 n2 Hpre)
    as (r & m1 & Hfind & _ & _ & Hedge).
  assert (r = n2) as -> by congruence.
  unfold unify_nets. rewrite unify_edges_app, Hpre. simpl.
  rewrite Hedge. destruct (decide (n2 = n2)); done.
Qed.

(** C6.  Whenever the edges recorded before an edge (n1 drives n2) have
    been processed without error, and the aliased net [n2] is the
    representative the loop finds for the driver [n1] - which is the case
    when a chain of the recorded edges, of any length, leads from [n2] to
    [n1] and no recorded edge aliases [n2] - the unifier is fatal with the
    ".names cycle" error, whatever edges follow. *)
Theorem names_cycle_rejected (at_lp : LexicalPosition) (m : string)
    (pre post : list (nat * nat)) (n1 n2 : nat) (d : Design)
    (s : Design * gmap nat nat) :
  unify_edges at_lp pre (d, ∅) = Ok s →
  find_root (size s.2) s.2 n1 = Some n2
  ∨ (aliases pre n2 n1 ∧ n2 ∉ pre.*2) →
  unify_nets at_lp m (pre ++ (n1, n2) :: post) d = Fatal at_lp cycle_message.
Proof.
  intros Hpre [Hrep|[Hal Hn2]].
  - by eapply cycle_edge_fatal.
  - eapply cycle_edge_fatal; [done|]. by eapply alias_representative.
Qed.

Lemma names_cycle_rejected_witness :
  let st := Sample.state_after
              [[".model"; "top"]; [".names"; "a"; "b"]; ["1"; "1"];
               [".names"; "b"; "c"]; ["1"; "1"];
               [".names"; "c"; "a"]; ["1"; "1"]] in
  unify st = [(5, 6); (6, 7)] ++ (7, 5) :: []
  ∧ unify_nets Sample.lp0 "top" ([(5, 6); (6, 7)] ++ (7, 5) :: []) (design st)
    = Fatal Sample.lp0 cycle_message.
Proof.
  intros st. split; [by vm_compute|].
  destruct (unify_edges Sample.lp0 [(5, 6); (6, 7)] (design st, ∅))
    as [s| | |] eqn:E; [|by vm_compute in E..].
  apply (names_cycle_rejected Sample.lp0 "top" [(5, 6); (6, 7)] [] 7 5
           (design st) s E).
  right. split.
  - eapply rtc_l; [|eapply rtc_l; [|apply rtc_refl]]; unfold drives.
    + apply list_elem_of_here.
    + apply list_elem_of_further, list_elem_of_here.
  - compute_done.
Defined.

(** A net that a recorded edge has aliased already cannot be aliased
    again: the edge is fatal with the other error of the loop.  With
    [names_cycle_rejected] this makes every edge that closes a chain of
    aliases fatal. *)
Lemma names_alias_again_fatal at_lp m pre post n1 n2 d s :
  unify_edges at_lp pre (d, ∅) = Ok s → n2 ∈ pre.*2 →
  unify_nets at_lp m (pre ++ (n1, n2) :: post) d
  = Fatal at_lp "conflicting .names outputs".
Proof.
  intros Hpre Hn2.
  destruct (aliases_same_root at_lp pre d s n2 n2 Hpre (rtc_refl _ _))
    as (_ & _ & Hd).
  destruct (unify_edge_after at_lp pre d s n1 n2 Hpre)
    as (r & m1 & Hfind & Hdom & Hr & Hedge).
  assert (Hin : n2 ∈ dom m1).
  { rewrite Hdom, Hd, elem_of_list_to_set. done. }
  unfold unify_nets. rewrite unify_edges_app, Hpre. simpl. rewrite Hedge.
  destruct (decide (n2 = r)) as [->|Hne].
  - by apply not_elem_of_dom in Hr.
  - apply elem_of_dom in Hin. by destruct (decide (is_Some (m1 !! n2))).
Qed.

Lemma names_cycle_always_fatal at_lp m pre post n1 n2 d s :
  unify_edges at_lp pre (d, ∅) = Ok s → aliases pre n2 n1 →
  unify_nets at_lp m (pre ++ (n1, n2) :: post) d = Fatal at_lp cycle_message
  ∨ unify_nets at_lp m (pre ++ (n1, n2) :: post) d
    = Fatal at_lp "conflicting .names outputs".
Proof.
  intros Hpre Hal. destruct (decide (n2 ∈ pre.*2)) as [Hin|Hout].
  - right. by eapply names_alias_again_fatal.
  - left. eapply cycle_edge_fatal; [done|]. by eapply alias_representative.
Qed.
(* ===================================================================== *)
(** * The Design the parser builds is well formed *)
(* ===================================================================== *)

Lemma edges_exist_mono d d' es :
  dom (nets d) ⊆ dom (nets d') → edges_exist d es → edges_exist d' es.
Proof.
  intros Hsub Hes. unfold edges_exist in *.
  eapply Forall_impl; [exact Hes|].
  intros [a b] [Ha Hb]. simpl in *.
  split; apply elem_of_dom, Hsub, elem_of_dom; done.
Qed.

(** An operation that leaves the connections, the sets of ports and nets,
    the names, the models, the pins of the instances and the counter as
    they are keeps the store well formed. *)
Lemma store_wf_transfer d d' :
  store_wf d →
  (∀ n, conns d' n = conns d n) →
  (∀ p, conn d' p = conn d p) →
  dom (ports d') = dom (ports d) →
  dom (nets d') = dom (nets d) →
  (∀ n, net_name <$> nets d' !! n = net_name <$> nets d !! n) →
  models d' = models d →
  (∀ i, inst_ports <$> instances d' !! i = inst_ports <$> instances d !! i) →
  id_counter d' = id_counter d →
  store_wf d'.
Proof.
  intros [Hg (Hfresh & Hmp & Hip & Hnamed)] Hcs Hc Hdp Hdn Hname Hm Hi Hid.
  split; [|split; [|split; [|split]]].
  - intros p n. rewrite Hcs, Hc. apply Hg.
  - intros x Hx. rewrite Hdp, Hdn. apply Hfresh. by rewrite <- Hid.
  - intros m M name p HM Hp. rewrite Hdp. rewrite Hm in HM. by eapply Hmp.
  - intros i ins name p Hins Hp. rewrite Hdp.
    specialize (Hi i). rewrite Hins in Hi. simpl in Hi.
    destruct (instances d !! i) as [ins0|] eqn:E; [|done].
    injection Hi as Hi. eapply Hip; [done|]. by rewrite <- Hi.
  - intros m M name n HM Hn. rewrite Hname. rewrite Hm in HM.
    by eapply Hnamed.
Qed.

Lemma set_direction_wf p dir d : store_wf d → store_wf (set_direction p dir d).
Proof.
  intros Hwf. apply (store_wf_transfer d); try done.
  - intros p'. unfold conn, set_direction. simpl.
    destruct (decide (p = p')) as [->|Hne].
    + rewrite lookup_alter_eq. by destruct (ports d !! p').
    + by rewrite lookup_alter_ne.
  - apply dom_alter_L.
Qed.

Lemma alter_net_wf (f : Net → Net) n d :
  (∀ N, connections (f N) = connections N) →
  (∀ N, net_name (f N) = net_name N) →
  store_wf d → store_wf (upd_nets (alter f n) d).
Proof.
  intros Hc Hn Hwf. apply (store_wf_transfer d); try done.
  - intros n'. unfold conns. simpl. destruct (decide (n = n')) as [->|Hne].
    + rewrite lookup_alter_eq. destruct (nets d !! n'); simpl; [|done].
      by rewrite Hc.
    + by rewrite lookup_alter_ne.
  - apply dom_alter_L.
  - intros n'. simpl. destruct (decide (n = n')) as [->|Hne].
    + rewrite lookup_alter_eq. destruct (nets d !! n'); simpl; [|done].
      by rewrite Hn.
    + by rewrite lookup_alter_ne.
Qed.

Lemma set_is_constant_wf n b d : store_wf d → store_wf (set_is_constant n b d).
Proof. apply alter_net_wf; by intros []. Qed.

Lemma set_constant_wf n v d : store_wf d → store_wf (set_constant n v d).
Proof. apply alter_net_wf; by intros []. Qed.

Lemma alter_instance_wf (f : Instance → Instance) i d :
  (∀ ins, inst_ports (f ins) = inst_ports ins) →
  store_wf d → store_wf (upd_instances (alter f i) d).
Proof.
  intros Hf Hwf. apply (store_wf_transfer d); try done.
  intros i'. simpl. destruct (decide (i = i')) as [->|Hne].
  - rewrite lookup_alter_eq. destruct (instances d !! i'); simpl; [|done].
    by rewrite Hf.
  - by rewrite lookup_alter_ne.
Qed.

Lemma set_attr_wf i n c d : store_wf d → store_wf (set_attr i n c d).
Proof. by apply alter_instance_wf. Qed.

Lemma set_param_wf i n c d : store_wf d → store_wf (set_param i n c d).
Proof. by apply alter_instance_wf. Qed.

Lemma set_top_wf m d : store_wf d → store_wf (set_top m d).
Proof. intros Hwf. by apply (store_wf_transfer d). Qed.

Lemma connect_counter p n d : id_counter (connect p n d) = id_counter d.
Proof.
  unfold connect, disconnect. simpl.
  by destruct (ports d !! p ≫= connection).
Qed.

Lemma connect_store_wf p n d :
  store_wf d → p ∈ dom (ports d) → n ∈ dom (nets d) →
  store_wf (connect p n d)
  ∧ dom (nets (connect p n d)) = dom (nets d)
  ∧ dom (ports (connect p n d)) = dom (ports d).
Proof.
  intros [Hg (Hfresh & Hmp & Hip & Hnamed)] Hp Hn.
  apply elem_of_dom in Hp, Hn.
  destruct (connect_frame d p n) as (Hm & Hi & Hdn & Hdp & Hname).
  split; [|by split]. split; [by apply connect_wf|].
  split; [|split; [|split]].
  - intros x Hx. rewrite Hdp, Hdn. apply Hfresh.
    by rewrite <- (connect_counter p n d).
  - intros m M name q HM Hq. rewrite Hdp. rewrite Hm in HM. by eapply Hmp.
  - intros i ins name q Hins Hq. rewrite Hdp. rewrite Hi in Hins.
    by eapply Hip.
  - intros m M name x HM Hx. rewrite Hname. rewrite Hm in HM.
    by eapply Hnamed.
Qed.

(** ** New objects *)

Lemma fresh_eq d :
  fresh d = (id_counter d,
             mkDesign (models d) (design_top d) (ports d) (nets d)
               (instances d) (S (id_counter d))).
Proof. done. Qed.

(** Taking an identifier. *)
Lemma bump_wf d : store_wf d → store_wf (fresh d).2.
Proof.
  intros [Hg (Hfresh & Hmp & Hip & Hnamed)].
  split; [done|]. split; [|done].
  intros x Hx. simpl in *. apply Hfresh. lia.
Qed.

Lemma fresh_port_None d : store_wf d → ports d !! id_counter d = None.
Proof.
  intros (_ & Hfresh & _). apply not_elem_of_dom.
  by apply (Hfresh (id_counter d)).
Qed.

Lemma fresh_net_None d : store_wf d → nets d !! id_counter d = None.
Proof.
  intros (_ & Hfresh & _). apply not_elem_of_dom.
  by apply (Hfresh (id_counter d)).
Qed.

(** A new unconnected port. *)
Lemma new_port_wf node name dir d :
  store_wf d →
  let p := id_counter d in
  let d' := upd_ports <[p := mkPort node name dir None]> (fresh d).2 in
  store_wf d'
  ∧ nets d' = nets d ∧ models d' = models d ∧ instances d' = instances d
  ∧ dom (ports d') = {[p]} ∪ dom (ports d)
  ∧ id_counter d' = S p.
Proof.
  intros Hwf p d'. pose proof (fresh_port_None d Hwf) as Hp. fold p in Hp.
  destruct Hwf as [Hg (Hfresh & Hmp & Hip & Hnamed)].
  assert (Hdom : dom (ports d') = {[p]} ∪ dom (ports d)).
  { subst d'. simpl. by rewrite dom_insert_L. }
  split; [|done]. split; [|split; [|split; [|split]]].
  - intros q n. change (conns d' n) with (conns d n).
    assert (conn d' q = conn d q) as ->; [|apply Hg].
    unfold conn. subst d'. simpl. destruct (decide (p = q)) as [<-|Hne].
    + rewrite lookup_insert_eq. simpl. by rewrite Hp.
    + by rewrite lookup_insert_ne.
  - intros x Hx. rewrite Hdom. change (nets d') with (nets d).
    change (id_counter d') with (S p) in Hx.
    destruct (Hfresh x ltac:(unfold p in *; lia)) as [H1 H2].
    split; [|done]. rewrite elem_of_union, elem_of_singleton.
    intros [->|H]; [lia | done].
  - intros m M nm q HM Hq. rewrite Hdom, elem_of_union. right.
    by eapply Hmp.
  - intros i ins nm q Hins Hq. rewrite Hdom, elem_of_union. right.
    by eapply Hip.
  - done.
Qed.

(** A new net without connections. *)
Lemma new_net_wf name d :
  store_wf d →
  let x := id_counter d in
  let d' := upd_nets <[x := mkNet name false UNSET ∅]> (fresh d).2 in
  store_wf d'
  ∧ ports d' = ports d ∧ models d' = models d ∧ instances d' = instances d
  ∧ dom (nets d') = {[x]} ∪ dom (nets d)
  ∧ net_name <$> nets d' !! x = Some name.
Proof.
  intros Hwf x d'. pose proof (fresh_net_None d Hwf) as Hx. fold x in Hx.
  destruct Hwf as [Hg (Hfresh & Hmp & Hip & Hnamed)].
  assert (Hdom : dom (nets d') = {[x]} ∪ dom (nets d)).
  { subst d'. simpl. by rewrite dom_insert_L. }
  assert (Hold : ∀ n, n ≠ x → nets d' !! n = nets d !! n).
  { intros n Hn. subst d'. simpl. by rewrite lookup_insert_ne. }
  assert (Hnew : nets d' !! x = Some (mkNet name false UNSET ∅)).
  { subst d'. simpl. apply lookup_insert_eq. }
  split; [|split; [done|split; [done|split; [done|split; [done|]]]]].
  2:{ by rewrite Hnew. }
  split; [|split; [|split; [|split]]].
  - intros q n. change (conn d' q) with (conn d q).
    destruct (decide (n = x)) as [->|Hne].
    + unfold conns. rewrite Hnew. simpl. split; [set_solver|].
      intros Hq. apply Hg in Hq. unfold conns in Hq.
      by rewrite Hx in Hq.
    + unfold conns at 1. rewrite Hold by done. apply Hg.
  - intros y Hy. rewrite Hdom. change (ports d') with (ports d).
    change (id_counter d') with (S x) in Hy.
    destruct (Hfresh y ltac:(unfold x in *; lia)) as [H1 H2].
    split; [done|]. rewrite elem_of_union, elem_of_singleton.
    intros [->|H]; [lia | done].
  - intros m M nm q HM Hq. by eapply Hmp.
  - intros i ins nm q Hins Hq. by eapply Hip.
  - intros m M nm n HM Hn. specialize (Hnamed m M nm n HM Hn).
    rewrite Hold; [done|]. intros ->. by rewrite Hx in Hnamed.
Qed.

(** A change of one model that adds pins that are ports of the store and
    nets that are in the store under their names. *)
Lemma upd_models_wf (f : Model → Model) m d :
  (∀ M name p, m_ports (f M) !! name = Some p →
     m_ports M !! name = Some p ∨ p ∈ dom (ports d)) →
  (∀ M name x, m_nets (f M) !! name = Some x →
     m_nets M !! name = Some x ∨ net_name <$> nets d !! x = Some name) →
  store_wf d → store_wf (upd_models (alter f m) d).
Proof.
  intros Hfp Hfn [Hg (Hfresh & Hmp & Hip & Hnamed)].
  split; [done|]. split; [done|]. split; [|split; [done|]].
  - intros m' M' name p HM' Hp. simpl in *.
    destruct (decide (m = m')) as [->|Hne].
    + rewrite lookup_alter_eq in HM'.
      destruct (models d !! m') as [M|] eqn:EM; [|done].
      injection HM' as <-. destruct (Hfp M name p Hp) as [H|H]; [|done].
      by eapply Hmp.
    + rewrite lookup_alter_ne in HM' by done. by eapply Hmp.
  - intros m' M' name x HM' Hx. simpl in *.
    destruct (decide (m = m')) as [->|Hne].
    + rewrite lookup_alter_eq in HM'.
      destruct (models d !! m') as [M|] eqn:EM; [|done].
      injection HM' as <-. destruct (Hfn M name x Hx) as [H|H]; [|done].
      by eapply Hnamed.
    + rewrite lookup_alter_ne in HM' by done. by eapply Hnamed.
Qed.

Lemma find_or_add_net_wf m n d x d' :
  find_or_add_net m n d = (x, d') → store_wf d →
  store_wf d'
  ∧ dom (nets d) ⊆ dom (nets d')
  ∧ x ∈ dom (nets d')
  ∧ ports d' = ports d.
Proof.
  intros Hrun Hwf. unfold find_or_add_net in Hrun.
  destruct (models d !! m ≫= fun M => m_nets M !! n) as [x0|] eqn:E.
  - injection Hrun as <- <-. split; [done|]. split; [done|]. split; [|done].
    destruct (models d !! m) as [M|] eqn:EM; [|done]. simpl in E.
    destruct Hwf as (_ & _ & _ & _ & Hnamed).
    specialize (Hnamed m M n x0 EM E). apply elem_of_dom.
    by destruct (nets d !! x0).
  - rewrite fresh_eq in Hrun. injection Hrun as <- <-.
    destruct (new_net_wf n d Hwf) as (Hwf' & Hp & Hm & Hi & Hdom & Hname).
    split; [|split; [|split; [|done]]].
    + apply upd_models_wf; [| |exact Hwf'].
      * intros M name p Hq. by left.
      * intros M name x Hx. simpl in Hx.
        destruct (decide (n = name)) as [->|Hne].
        -- rewrite lookup_insert_eq in Hx. injection Hx as <-. by right.
        -- rewrite lookup_insert_ne in Hx by done. by left.
    + simpl. rewrite dom_insert_L. set_solver.
    + simpl. rewrite dom_insert_L. set_solver.
Qed.

Lemma add_port_wf m n dir d p d' :
  add_port m n dir d = (p, d') → store_wf d →
  store_wf d'
  ∧ nets d' = nets d
  ∧ p ∈ dom (ports d')
  ∧ dom (ports d) ⊆ dom (ports d').
Proof.
  intros Hrun Hwf. unfold add_port in Hrun. rewrite fresh_eq in Hrun.
  injection Hrun as <- <-.
  destruct (new_port_wf (NodeModel m) n dir d Hwf)
    as (Hwf' & Hn & Hm & Hi & Hdom & Hid).
  split; [|split; [done|split]].
  - apply upd_models_wf; [| |exact Hwf'].
    + intros M name p Hq. simpl in Hq.
      destruct (decide (n = name)) as [->|Hne].
      * rewrite lookup_insert_eq in Hq. injection Hq as <-. right.
        simpl. rewrite dom_insert_L. set_solver.
      * rewrite lookup_insert_ne in Hq by done. by left.
    + intros M name x Hx. by left.
  - simpl. rewrite dom_insert_L. set_solver.
  - simpl. rewrite dom_insert_L. set_solver.
Qed.

Lemma new_model_wf n d d' :
  new_model n d = Ok d' → store_wf d →
  store_wf d' ∧ nets d' = nets d ∧ ports d' = ports d.
Proof.
  unfold new_model. destruct (decide (is_Some (models d !! n))); [done|].
  intros [= <-] [Hg (Hfresh & Hmp & Hip & Hnamed)].
  split; [|done]. split; [done|]. split; [done|]. split; [|split; [done|]].
  - intros m M name p HM Hp. simpl in *.
    destruct (decide (n = m)) as [->|Hne].
    + rewrite lookup_insert_eq in HM. injection HM as <-. done.
    + rewrite lookup_insert_ne in HM by done. by eapply Hmp.
  - intros m M name x HM Hx. simpl in *.
    destruct (decide (n = m)) as [->|Hne].
    + rewrite lookup_insert_eq in HM. injection HM as <-. done.
    + rewrite lookup_insert_ne in HM by done. by eapply Hnamed.
Qed.

Lemma insert_instance_wf i ins d :
  (∀ name p, inst_ports ins !! name = Some p → p ∈ dom (ports d)) →
  store_wf d → store_wf (upd_instances <[i := ins]> d).
Proof.
  intros Hpins [Hg (Hfresh & Hmp & Hip & Hnamed)].
  split; [done|]. split; [done|]. split; [done|]. split; [|done].
  intros i' ins' name p Hins Hp. simpl in *.
  destruct (decide (i = i')) as [->|Hne].
  - rewrite lookup_insert_eq in Hins. injection Hins as <-. by eapply Hpins.
  - rewrite lookup_insert_ne in Hins by done. by eapply Hip.
Qed.

Lemma add_instance_port_wf i np pins d pins' d' :
  add_instance_port i np (pins, d) = (pins', d') →
  store_wf d → (∀ name p, pins !! name = Some p → p ∈ dom (ports d)) →
  store_wf d'
  ∧ nets d' = nets d ∧ models d' = models d ∧ instances d' = instances d
  ∧ dom (ports d) ⊆ dom (ports d')
  ∧ ∀ name p, pins' !! name = Some p → p ∈ dom (ports d').
Proof.
  intros Hrun Hwf Hpins. unfold add_instance_port in Hrun.
  rewrite fresh_eq in Hrun. injection Hrun as <- <-.
  destruct (new_port_wf (NodeInstance i) np.1
              (default IN (direction <$> ports d !! np.2)) d Hwf)
    as (Hwf' & Hn & Hm & Hi & Hdom & _).
  split; [exact Hwf'|]. split; [done|]. split; [done|]. split; [done|].
  split; [simpl; rewrite dom_insert_L; set_solver|].
  intros name p Hp. simpl. rewrite dom_insert_L.
  destruct (decide (np.1 = name)) as [<-|Hne].
  - rewrite lookup_insert_eq in Hp. injection Hp as <-. set_solver.
  - rewrite lookup_insert_ne in Hp by done.
    apply elem_of_union. right. by eapply Hpins.
Qed.

Lemma add_instance_ports_wf i formals : ∀ pins d pins' d',
  foldl (fun acc np => add_instance_port i np acc) (pins, d) formals
  = (pins', d') →
  store_wf d → (∀ name p, pins !! name = Some p → p ∈ dom (ports d)) →
  store_wf d'
  ∧ nets d' = nets d ∧ models d' = models d ∧ instances d' = instances d
  ∧ dom (ports d) ⊆ dom (ports d')
  ∧ ∀ name p, pins' !! name = Some p → p ∈ dom (ports d').
Proof.
  induction formals as [|np formals IH]; intros pins d pins' d' Hrun Hwf Hpins.
  - simpl in Hrun. injection Hrun as <- <-. done.
  - cbn [foldl] in Hrun.
    destruct (add_instance_port i np (pins, d)) as [pins1 d1] eqn:E.
    destruct (add_instance_port_wf i np pins d pins1 d1 E Hwf Hpins)
      as (Hwf1 & Hn1 & Hm1 & Hi1 & Hd1 & Hp1).
    destruct (IH pins1 d1 pins' d' Hrun Hwf1 Hp1)
      as (Hwf' & Hn & Hm & Hi & Hd & Hp).
    split; [done|]. split; [congruence|]. split; [congruence|].
    split; [congruence|]. split; [set_solver | done].
Qed.

Lemma add_instance_wf m inst_of d i d' :
  add_instance m inst_of d = (i, d') → store_wf d →
  store_wf d' ∧ nets d' = nets d ∧ dom (ports d) ⊆ dom (ports d').
Proof.
  intros Hrun Hwf. unfold add_instance in Hrun. rewrite fresh_eq in Hrun.
  pose proof (bump_wf d Hwf) as Hwf0. rewrite fresh_eq in Hwf0.
  simpl in Hwf0.
  set (d0 := mkDesign (models d) (design_top d) (ports d) (nets d)
               (instances d) (S (id_counter d))) in *.
  destruct (foldl (fun acc np => add_instance_port (id_counter d) np acc)
              (∅, d0) (default [] (by_name <$> (m_ports <$> models d0 !! inst_of))))
    as [pins d1] eqn:E.
  injection Hrun as <- <-.
  destruct (add_instance_ports_wf _ _ _ _ _ _ E Hwf0)
    as (Hwf1 & Hn1 & Hm1 & Hi1 & Hd1 & Hp1).
  { intros name p Hp. by rewrite lookup_empty in Hp. }
  split; [|split; [done|done]].
  apply upd_models_wf.
  - intros M name p Hp. by left.
  - intros M name x Hx. by left.
  - by apply insert_instance_wf.
Qed.

Lemma set_direction_dom p dir d :
  dom (ports (set_direction p dir d)) = dom (ports d)
  ∧ nets (set_direction p dir d) = nets d
  ∧ models (set_direction p dir d) = models d.
Proof. unfold set_direction. simpl. by rewrite dom_alter_L. Qed.

Lemma find_port_dom m w d port :
  store_wf d → find_port m w d = Some port → port ∈ dom (ports d).
Proof.
  intros (_ & _ & Hmp & _) Hf. unfold find_port in Hf.
  destruct (models d !! m) as [M|] eqn:EM; [|done]. by eapply Hmp.
Qed.

Lemma inst_find_port_dom i n d port :
  store_wf d → inst_find_port i n d = Some port → port ∈ dom (ports d).
Proof.
  intros (_ & _ & _ & Hip & _) Hf. unfold inst_find_port in Hf.
  destruct (instances d !! i) as [ins|] eqn:EI; [|done]. by eapply Hip.
Qed.

(** ** The directives *)

Lemma declare_port_wf m dir other d w :
  store_wf d →
  store_wf (declare_port m dir other d w)
  ∧ dom (nets d) ⊆ dom (nets (declare_port m dir other d w)).
Proof.
  intros Hwf. unfold declare_port.
  assert (Hport : ∃ port d1,
            match find_port m w d with
            | Some port =>
                (port,
                 if decide (direction <$> ports d !! port = Some other)
                 then set_direction port INOUT d else d)
            | None => add_port m w dir d
            end = (port, d1)
            ∧ store_wf d1 ∧ nets d1 = nets d ∧ port ∈ dom (ports d1)).
  { destruct (find_port m w d) as [port|] eqn:Ef.
    - pose proof (find_port_dom _ _ _ _ Hwf Ef) as Hin.
      eexists _, _. split; [done|].
      destruct (decide (direction <$> ports d !! port = Some other)).
      + destruct (set_direction_dom port INOUT d) as (Hd & Hn & _).
        split; [by apply set_direction_wf|]. split; [done|]. by rewrite Hd.
      + done.
    - destruct (add_port m w dir d) as [port d1] eqn:Ea.
      destruct (add_port_wf _ _ _ _ _ _ Ea Hwf) as (Hwf1 & Hn & Hin & _).
      by eexists _, _. }
  destruct Hport as (port & d1 & -> & Hwf1 & Hn1 & Hin1).
  destruct (find_or_add_net m w d1) as [net d2] eqn:En.
  destruct (find_or_add_net_wf _ _ _ _ _ En Hwf1) as (Hwf2 & Hsub & Hnet & Hp2).
  destruct (connect_store_wf port net d2 Hwf2) as (Hwf3 & Hdn & _);
    [by rewrite Hp2 | done |].
  split; [done|]. rewrite Hdn, <- Hn1. done.
Qed.

Lemma declare_ports_wf m dir other ws : ∀ d,
  store_wf d →
  store_wf (foldl (declare_port m dir other) d ws)
  ∧ dom (nets d) ⊆ dom (nets (foldl (declare_port m dir other) d ws)).
Proof.
  induction ws as [|w ws IH]; intros d Hwf; simpl; [done|].
  destruct (declare_port_wf m dir other d w Hwf) as [Hwf1 Hsub1].
  destruct (IH _ Hwf1) as [Hwf2 Hsub2]. split; [done | set_solver].
Qed.

Lemma gate_actual_wf m i at_lp w d d' :
  gate_actual m i at_lp w d = Ok d' → store_wf d →
  store_wf d' ∧ dom (nets d) ⊆ dom (nets d').
Proof.
  intros Hrun Hwf. unfold gate_actual in Hrun.
  destruct (find_char "=" w) as [p|]; [|done].
  destruct (decide (_ = EmptyString)); [by injection Hrun as <-|].
  destruct (inst_find_port i _ d) as [port|] eqn:Ef; [|done].
  pose proof (inst_find_port_dom _ _ _ _ Hwf Ef) as Hin.
  destruct (find_or_add_net m _ d) as [net d1] eqn:En.
  injection Hrun as <-.
  destruct (find_or_add_net_wf _ _ _ _ _ En Hwf) as (Hwf1 & Hsub & Hnet & Hp1).
  destruct (connect_store_wf port net d1 Hwf1) as (Hwf2 & Hdn & _);
    [by rewrite Hp1 | done |].
  split; [done|]. by rewrite Hdn.
Qed.

Lemma gate_actuals_wf m i at_lp ws : ∀ d d',
  gate_actuals m i at_lp ws d = Ok d' → store_wf d →
  store_wf d' ∧ dom (nets d) ⊆ dom (nets d').
Proof.
  induction ws as [|w ws IH]; intros d d' Hrun Hwf; simpl in Hrun.
  - by injection Hrun as <-.
  - destruct (gate_actual m i at_lp w d) as [d1| | |] eqn:E; try done.
    simpl in Hrun.
    destruct (gate_actual_wf _ _ _ _ _ _ E Hwf) as [Hwf1 Hsub1].
    destruct (IH _ _ Hrun Hwf1) as [Hwf2 Hsub2]. split; [done | set_solver].
Qed.

Lemma read_line_inv l st : parse_inv st → parse_inv (read_line l st).
Proof. done. Qed.

Lemma model_directive_inv l st st' :
  model_directive l st = Ok st' → parse_inv st → parse_inv st'.
Proof.
  unfold model_directive. intros Hrun [Hwf Hex].
  destruct (decide (length (words l) ≠ 2)); [done|].
  destruct (decide (is_Some (top st))); [done|].
  destruct (new_model (word l 1) (design st)) as [d'| | |] eqn:E; try done.
  simpl in Hrun. injection Hrun as <-.
  destruct (new_model_wf _ _ _ E Hwf) as (Hwf' & Hn & _).
  split; simpl; [by apply set_top_wf|].
  eapply edges_exist_mono; [|exact Hex]. simpl. by rewrite Hn.
Qed.

Lemma inputs_directive_inv l st st' :
  inputs_directive l st = Ok st' → parse_inv st → parse_inv st'.
Proof.
  unfold inputs_directive. intros Hrun [Hwf Hex].
  destruct (top st) as [m|]; [|done]. injection Hrun as <-.
  destruct (declare_ports_wf m IN OUT (drop 1 (words l)) _ Hwf) as [Hwf' Hsub].
  split; simpl; [done|]. by eapply edges_exist_mono.
Qed.

Lemma outputs_directive_inv l st st' :
  outputs_directive l st = Ok st' → parse_inv st → parse_inv st'.
Proof.
  unfold outputs_directive. intros Hrun [Hwf Hex].
  destruct (top st) as [m|]; [|done]. injection Hrun as <-.
  destruct (declare_ports_wf m OUT IN (drop 1 (words l)) _ Hwf) as [Hwf' Hsub].
  split; simpl; [done|]. by eapply edges_exist_mono.
Qed.

Lemma gate_directive_inv l st st' :
  gate_directive l st = Ok st' → parse_inv st → parse_inv st'.
Proof.
  unfold gate_directive. intros Hrun [Hwf Hex].
  destruct (top st) as [m|]; [|done].
  destruct (decide (length (words l) < 2)); [done|].
  destruct (find_model (word l 1) (design st)) as [inst_of|]; [|done].
  destruct (add_instance m inst_of (design st)) as [i d1] eqn:Ea.
  destruct (gate_actuals m i (lp st) (drop 2 (words l)) d1)
    as [d2| | |] eqn:Eg; try done.
  simpl in Hrun. injection Hrun as <-.
  destruct (add_instance_wf _ _ _ _ _ Ea Hwf) as (Hwf1 & Hn1 & _).
  destruct (gate_actuals_wf _ _ _ _ _ _ Eg Hwf1) as [Hwf2 Hsub].
  split; simpl; [done|]. eapply edges_exist_mono; [|exact Hex].
  by rewrite <- Hn1.
Qed.

Lemma attr_directive_inv l st st' :
  attr_directive l st = Ok st' → parse_inv st → parse_inv st'.
Proof.
  unfold attr_directive. intros Hrun [Hwf Hex].
  destruct (decide (length (words l) ≠ 3)); [done|].
  destruct (inst st) as [i|]; [|done].
  destruct (ascii_eqb (char_at (word l 2) 0) "034").
  - destruct (ascii_eqb (back (word l 2)) "034"); [|done].
    injection Hrun as <-. split; simpl; [by apply set_attr_wf | done].
  - destruct (stobv (lp st) (word l 2)) as [bv| | |]; try done.
    simpl in Hrun. injection Hrun as <-.
    split; simpl; [by apply set_attr_wf | done].
Qed.

Lemma param_directive_inv l st st' :
  param_directive l st = Ok st' → parse_inv st → parse_inv st'.
Proof.
  unfold param_directive. intros Hrun [Hwf Hex].
  destruct (decide (length (words l) ≠ 3)); [done|].
  destruct (inst st) as [i|]; [|done].
  destruct (ascii_eqb (char_at (word l 2) 0) "034").
  - destruct (ascii_eqb (back (word l 2)) "034"); [|done].
    destruct (radiant_stobv (lp st) (unquote (word l 2)) [])
      as [[decoded rad_bit]| | |]; try done.
    simpl in Hrun. destruct decoded; injection Hrun as <-;
      (split; simpl; [by apply set_param_wf | done]).
  - destruct (stobv (lp st) (word l 2)) as [bv| | |]; try done.
    simpl in Hrun. injection Hrun as <-.
    split; simpl; [by apply set_param_wf | done].
Qed.

Lemma names_head_inv l st h :
  names_head l st = Ok h → parse_inv st →
  parse_inv h.2
  ∧ (h.1.1 = 2 → ∃ x, h.1.2 = Some x).
Proof.
  unfold names_head. intros Hrun [Hwf Hex].
  destruct (top st) as [m|]; [|done].
  destruct (decide (length (words l) = 2)) as [H2|H2].
  - destruct (find_or_add_net m (word l 1) (design st)) as [x d1] eqn:E1.
    injection Hrun as <-. simpl.
    destruct (find_or_add_net_wf _ _ _ _ _ E1 Hwf) as (Hwf1 & Hsub & _).
    split; [|by eexists]. split; simpl.
    + by apply set_constant_wf, set_is_constant_wf.
    + eapply edges_exist_mono; [|exact Hex]. simpl.
      by rewrite !dom_alter_L.
  - destruct (decide (length (words l) = 3)) as [H3|H3]; [|done].
    destruct (find_or_add_net m (word l 1) (design st)) as [n1 d1] eqn:E1.
    destruct (find_or_add_net m (word l 2) d1) as [n2 d2] eqn:E2.
    injection Hrun as <-. simpl.
    destruct (find_or_add_net_wf _ _ _ _ _ E1 Hwf) as (Hwf1 & Hsub1 & Hn1 & _).
    destruct (find_or_add_net_wf _ _ _ _ _ E2 Hwf1) as (Hwf2 & Hsub2 & Hn2 & _).
    split; [|lia]. split; simpl; [done|].
    apply Forall_app. split.
    + eapply edges_exist_mono; [|exact Hex]. set_solver.
    + constructor; [|constructor]. simpl.
      split; apply elem_of_dom; [by apply Hsub2 | done].
Qed.

(** The table loop keeps the invariant when the dispatcher it hands a
    directive line to does. *)
Lemma names_table_inv k n names_net names_lp inp : ∀ saw11 st st',
  (∀ pre l rest s s', inp = pre ++ l :: rest →
     parse_inv s → k l rest s = Ok s' → parse_inv s') →
  parse_inv st →
  names_table k n names_net names_lp saw11 inp st = Ok st' →
  parse_inv st'.
Proof.
  induction inp as [|l inp IH]; intros saw11 st st' Hk Hinv Hrun;
    simpl in Hrun.
  - destruct (bool_decide (n = 3) && negb saw11); [done|].
    by injection Hrun as <-.
  - assert (Hk' : ∀ pre l0 rest s s', inp = pre ++ l0 :: rest →
               parse_inv s → k l0 rest s = Ok s' → parse_inv s').
    { intros pre l0 rest s s' ->. apply (Hk (l :: pre)). done. }
    pose proof (read_line_inv l st Hinv) as Hinv'.
    destruct (line_empty l); [exact (IH _ _ _ Hk' Hinv' Hrun)|].
    destruct (line_is_directive l).
    { destruct (bool_decide (n = 3) && negb saw11); [done|].
      exact (Hk [] l inp _ _ eq_refl Hinv' Hrun). }
    destruct (bool_decide (length (words l) ≠ n - 1)); [done|].
    destruct (bool_decide (n = 2)).
    + destruct (bool_decide (word l 0 = "1")).
      * destruct names_net as [x|]; [|done].
        eapply IH; [exact Hk'| |exact Hrun].
        destruct Hinv as [Hwf Hex]. split; simpl.
        -- by apply set_constant_wf.
        -- eapply edges_exist_mono; [|exact Hex]. simpl.
           by rewrite dom_alter_L.
      * destruct (bool_decide (word l 0 ≠ "0")); [done|].
        exact (IH _ _ _ Hk' Hinv' Hrun).
    + destruct (bool_decide (n ≠ 3)); [done|].
      destruct (bool_decide (word l 0 ≠ "1") || bool_decide (word l 1 ≠ "1"));
        [done|]. exact (IH _ _ _ Hk' Hinv' Hrun).
Qed.

Lemma dispatch_eq l rest st :
  dispatch l rest st
  = match words l !! 0 with
    | None => Abort "words[0]"
    | Some cmd =>
        if bool_decide (cmd = ".model") then
          st' ← model_directive l st; reading_loop dispatch rest st'
        else if bool_decide (cmd = ".inputs") then
          st' ← inputs_directive l st; reading_loop dispatch rest st'
        else if bool_decide (cmd = ".outputs") then
          st' ← outputs_directive l st; reading_loop dispatch rest st'
        else if bool_decide (cmd = ".names") then
          h ← names_head l st;
          names_table dispatch h.1.1 h.1.2 (lp st) false rest h.2
        else if bool_decide (cmd = ".gate") then
          st' ← gate_directive l st; reading_loop dispatch rest st'
        else if bool_decide (cmd = ".attr") then
          st' ← attr_directive l st; reading_loop dispatch rest st'
        else if bool_decide (cmd = ".param") then
          st' ← param_directive l st; reading_loop dispatch rest st'
        else if bool_decide (cmd = ".end") then
          match top st with
          | None => Fatal (lp st) ".end directive outside of model definition"
          | Some _ => Ok st
          end
        else Fatal (lp st) ("unknown directive '" +:+ cmd +:+ "'")
    end.
Proof. by destruct rest. Qed.

(** The dispatcher keeps the invariant when the loops it continues with
    do. *)
Lemma dispatch_inv_step l rest st st' :
  (∀ s s', parse_inv s → reading_loop dispatch rest s = Ok s' →
     parse_inv s') →
  (∀ pre l0 rest0 s s', rest = pre ++ l0 :: rest0 →
     parse_inv s → dispatch l0 rest0 s = Ok s' → parse_inv s') →
  parse_inv st → dispatch l rest st = Ok st' → parse_inv st'.
Proof.
  intros Hloop Hsuf Hinv Hrun. rewrite dispatch_eq in Hrun.
  destruct (words l !! 0) as [cmd|]; [|done].
  destruct (bool_decide (cmd = ".model")).
  { directive_case Hloop Hrun model_directive_inv. }
  destruct (bool_decide (cmd = ".inputs")).
  { directive_case Hloop Hrun inputs_directive_inv. }
  destruct (bool_decide (cmd = ".outputs")).
  { directive_case Hloop Hrun outputs_directive_inv. }
  destruct (bool_decide (cmd = ".names")).
  { destruct (names_head l st) as [h| | |] eqn:E; try done. simpl in Hrun.
    destruct (names_head_inv l st h E Hinv) as [Hinv' _].
    exact (names_table_inv _ _ _ _ _ _ _ _ Hsuf Hinv' Hrun). }
  destruct (bool_decide (cmd = ".gate")).
  { directive_case Hloop Hrun gate_directive_inv. }
  destruct (bool_decide (cmd = ".attr")).
  { directive_case Hloop Hrun attr_directive_inv. }
  destruct (bool_decide (cmd = ".param")).
  { directive_case Hloop Hrun param_directive_inv. }
  destruct (bool_decide (cmd = ".end")); [|done].
  destruct (top st); [|done]. by injection Hrun as <-.
Qed.

(** The reading loop and the dispatcher keep the invariant, on every
    input. *)
Lemma reading_inv inp :
  (∀ st st', parse_inv st → reading_loop dispatch inp st = Ok st' →
     parse_inv st')
  ∧ (∀ pre l rest st st', inp = pre ++ l :: rest →
       parse_inv st → dispatch l rest st = Ok st' → parse_inv st')
  ∧ (∀ l st st', parse_inv st → dispatch l inp st = Ok st' → parse_inv st').
Proof.
  induction inp as [|a inp (IHloop & IHsuf & IHdisp)].
  - assert (Hloop : ∀ st st', parse_inv st →
              reading_loop dispatch [] st = Ok st' → parse_inv st').
    { intros st st' Hinv [= <-]. done. }
    assert (Hsuf : ∀ pre l rest st st', [] = pre ++ l :: rest →
              parse_inv st → dispatch l rest st = Ok st' → parse_inv st').
    { intros pre l rest st st' H. by destruct pre. }
    split; [done|]. split; [done|].
    intros l st st'. by apply dispatch_inv_step.
  - assert (Hloop : ∀ st st', parse_inv st →
              reading_loop dispatch (a :: inp) st = Ok st' → parse_inv st').
    { intros st st' Hinv Hrun. simpl in Hrun.
      pose proof (read_line_inv a st Hinv) as Hinv'.
      destruct (line_empty a); [by eapply IHloop|].
      destruct (line_is_directive a); [|done]. by eapply IHdisp. }
    assert (Hsuf : ∀ pre l rest st st', a :: inp = pre ++ l :: rest →
              parse_inv st → dispatch l rest st = Ok st' → parse_inv st').
    { intros [|a' pre] l rest st st' H; simpl in H.
      - injection H as -> ->. apply IHdisp.
      - injection H as -> ->. by eapply IHsuf. }
    split; [done|]. split; [done|].
    intros l st st'. by apply dispatch_inv_step.
Qed.

(** The state the reading ends in is well formed when the Design the
    models of the library come in is: the hypotheses of
    [unify_redirects] hold of what the parser hands to the unifier. *)
Lemma reading_loop_wf d lp0 inp st :
  store_wf d →
  reading_loop dispatch inp (mkPState d None None [] lp0) = Ok st →
  graph_wf (design st)
  ∧ (∀ m, nets_named (design st) m)
  ∧ edges_exist (design st) (unify st).
Proof.
  intros Hwf Hrun.
  destruct (reading_inv inp) as (Hloop & _).
  assert (Hinv : parse_inv (mkPState d None None [] lp0)).
  { split; [done|]. constructor. }
  destruct (Hloop _ _ Hinv Hrun) as [(Hg & _ & _ & _ & Hnamed) Hex].
  done.
Qed.

Lemma empty_store_wf : store_wf (mkDesign ∅ None ∅ ∅ ∅ 0).
Proof.
  split.
  - intros p n. unfold conns, conn. simpl. rewrite !lookup_empty. simpl.
    split; [set_solver | done].
  - split; [|split; [|split]].
    + intros x _. simpl. rewrite !dom_empty_L. set_solver.
    + intros m M name p HM. simpl in HM. by rewrite lookup_empty in HM.
    + intros i ins name p Hi. simpl in Hi. by rewrite lookup_empty in Hi.
    + intros m M name n HM. simpl in HM. by rewrite lookup_empty in HM.
Qed.

Lemma model_with_wf n pins d : store_wf d → store_wf (Sample.model_with n pins d).
Proof.
  intros Hwf. unfold Sample.model_with.
  destruct (new_model n d) as [d1| | |] eqn:E; try done.
  destruct (new_model_wf _ _ _ E Hwf) as [Hwf1 _]. clear E Hwf.
  revert d1 Hwf1.
  induction pins as [|pin pins IH]; intros d1 Hwf1; cbn [foldl]; [done|].
  apply IH. destruct (add_port n pin.1 pin.2 d1) as [p d2] eqn:Ea.
  destruct (add_port_wf _ _ _ _ _ _ Ea Hwf1) as [H _]. exact H.
Qed.

Lemma library_wf : store_wf Sample.library.
Proof. repeat apply model_with_wf. apply empty_store_wf. Qed.

(** ** The loops of the unifier end *)

(** From mappings without a cycle the loop over the edges ends, in a
    state or in one of its two errors: it neither runs forever nor fails
    the assertion of the compression loop. *)
Lemma unify_edges_ends at_lp es : ∀ s,
  acyclic s.2 →
  (∃ s', unify_edges at_lp es s = Ok s')
  ∨ unify_edges at_lp es s = Fatal at_lp cycle_message
  ∨ unify_edges at_lp es s = Fatal at_lp "conflicting .names outputs".
Proof.
  induction es as [|[n1 n2] es IH]; intros [d m] Hs; simpl.
  - left. by eexists.
  - simpl in Hs.
    destruct (unify_edge_run at_lp d m n1 n2 Hs)
      as (r & m1 & _ & _ & _ & _ & _ & _ & Heq).
    pose proof (unify_edge_acyclic at_lp (d, m) (n1, n2)) as Hac.
    rewrite Heq in Hac |- *.
    destruct (decide (n2 = r)); [by right; left|].
    destruct (decide (is_Some (m1 !! n2))); [by right; right|].
    simpl. apply IH. by apply Hac.
Qed.

(** X16.  The net unifier always ends: on every queue of edges and every
    Design its two [while] loops come to an end and the [assert] of the
    second holds, so that the result is a Design or one of the two errors
    ".names cycle" and "conflicting .names outputs". *)
Lemma unify_nets_ends at_lp m es d :
  (∃ d', unify_nets at_lp m es d = Ok d')
  ∨ unify_nets at_lp m es d = Fatal at_lp cycle_message
  ∨ unify_nets at_lp m es d = Fatal at_lp "conflicting .names outputs".
Proof.
  unfold unify_nets.
  destruct (unify_edges_ends at_lp es (d, ∅) acyclic_empty)
    as [[s' ->]|[->| ->]]; simpl; [left; by eexists | by right; left |
                                  by right; right].
Qed.

(* ===================================================================== *)
(** * The parser on whole inputs *)
(* ===================================================================== *)

(** A row of three fields under a 2-argument [.names]. *)
Example names_row_of_three_rejected :
  Sample.run [[".model"; "top"]; [".inputs"; "a"; "b"]; [".outputs"; "y"];
              [".names"; "a"; "y"]; ["1"; "1"; "1"]]
  = Fatal (mkLP "top.blif" 5)
      "invalid .names entry: number of gates does not match specified number of nets".
Proof. by vm_compute. Qed.

(** Two output pins of instances on one net that is not a boundary net. *)
Example two_drivers_rejected :
  Sample.run [[".model"; "top"]; [".inputs"; "a"]; [".outputs"; "y"];
              [".gate"; "BUF"; "I=a"; "O=y"];
              [".gate"; "BUF"; "I=a"; "O=y"]; [".end"]]
  = Fatal (mkLP "top.blif" 6) "net `y' has multiple drivers".
Proof. by vm_compute. Qed.

(** An INOUT port of the top model wired to the pin of a plain instance. *)
Example inout_on_plain_pin_rejected :
  Sample.run [[".model"; "top"]; [".inputs"; "a"]; [".outputs"; "a"];
              [".gate"; "BUF"; "I=a"]; [".end"]]
  = Fatal (mkLP "top.blif" 5)
      "toplevel inout port 'a' not connected to SB_IO PACKAGE_PIN".
Proof. by vm_compute. Qed.

(** The same port wired to the PACKAGE_PIN of an SB_IO instance. *)
Example inout_on_package_pin_accepted :
  ∃ d, Sample.run [[".model"; "top"]; [".inputs"; "a"]; [".outputs"; "a"];
                   [".gate"; "SB_IO"; "PACKAGE_PIN=a"]; [".end"]] = Ok d.
Proof. eexists. vm_compute. reflexivity. Qed.

(** A net aliased by two directives. *)
Example two_aliases_rejected :
  Sample.run [[".model"; "top"]; [".names"; "a"; "b"]; ["1"; "1"];
              [".names"; "c"; "b"]; ["1"; "1"]]
  = Fatal (mkLP "top.blif" 5) "conflicting .names outputs".
Proof. by vm_compute. Qed.

(** An alias: the two ports end on the net of the driver, and the aliased
    net [y] has left the model. *)
Example alias_accepted :
  ∃ d M,
    Sample.run [[".model"; "top"]; [".inputs"; "a"]; [".outputs"; "y"];
                [".names"; "a"; "y"]; ["1"; "1"]; [".end"]] = Ok d
    ∧ models d !! "top" = Some M
    ∧ map_to_list (m_nets M) = [("a", 6)]
    ∧ conns d 6 = {[5; 7]}
    ∧ nets d !! 8 = None.
Proof.
  eexists _, _. split; [vm_compute; reflexivity|].
  split; [vm_compute; reflexivity|]. split; [vm_compute; reflexivity|].
  split; vm_compute; reflexivity.
Qed.

Example no_model_rejected :
  Sample.run [] = Fatal Sample.lp0 "no top model has been defined".
Proof. by vm_compute. Qed.

Example second_model_rejected :
  Sample.run [[".model"; "top"]; [".model"; "other"]]
  = Fatal (mkLP "top.blif" 2) "definition of multiple models is not supported".
Proof. by vm_compute. Qed.

Example unknown_formal_rejected :
  Sample.run [[".model"; "top"]; [".gate"; "BUF"; "Q=a"]]
  = Fatal (mkLP "top.blif" 2) "unknown formal `Q'".
Proof. by vm_compute. Qed.

(** A quoted [.param] value that is a radix-2 literal is stored as bits, an
    unquoted one is read as a binary constant, and a quoted one with a
    character that is not alphanumeric is stored as a string. *)
Example params_stored :
  ∃ d ins,
    Sample.run [[".model"; "top"]; [".gate"; "BUF"];
                [".param"; "A"; String "034" ("0b110" +:+ String "034" EmptyString)];
                [".param"; "B"; "110"];
                [".param"; "C"; String "034" ("a.b" +:+ String "034" EmptyString)];
                [".end"]] = Ok d
    ∧ instances d !! 5 = Some ins
    ∧ params ins !! "A" = Some (ConstBits (mkLP "top.blif" 3) [false; true; true])
    ∧ params ins !! "B" = Some (ConstBits (mkLP "top.blif" 4) [false; true; true])
    ∧ params ins !! "C" = Some (ConstString (mkLP "top.blif" 5) "a.b").
Proof.
  eexists _, _. split; [vm_compute; reflexivity|].
  split; [vm_compute; reflexivity|]. split; [vm_compute; reflexivity|].
  split; vm_compute; reflexivity.
Qed.

(* ===================================================================== *)
(** * Further properties of the literal decoder *)
(* ===================================================================== *)

(** [getNumericValue] has no digit value for a character exactly when the
    character is not a letter or a digit. *)
Lemma getNumericValue_minus1 (c : ascii) :
  getNumericValue c = (-1)%Z ↔ ¬ alphanumeric c.
Proof.
  destruct c as [[] [] [] [] [] [] [] []];
    apply (bool_decide_unpack _); vm_compute; exact I.
Qed.

(** X1.  [getNumericValue] is the digit value of radix 36, without regard
    to case: the result is -1 exactly on the characters that are not
    letters or digits of ASCII and lies between 0 and 35 otherwise; a
    decimal digit has its value, a letter has 10 plus its rank in the
    alphabet, and a lower-case letter has the value of its upper-case
    letter. *)
Theorem getNumericValue_spec (c : ascii) :
  (-1 ≤ getNumericValue c ≤ 35)%Z
  ∧ (getNumericValue c = (-1)%Z ↔ ¬ alphanumeric c)
  ∧ getNumericValue (toupper c) = getNumericValue c
  ∧ (decimal_digit c → getNumericValue c = (code c - code "0")%Z)
  ∧ ((code "A" ≤ code c ≤ code "Z")%Z →
     getNumericValue c = (code c - code "A" + 10)%Z)
  ∧ ((code "a" ≤ code c ≤ code "z")%Z →
     getNumericValue c = (code c - code "a" + 10)%Z).
Proof.
  destruct c as [[] [] [] [] [] [] [] []];
    apply (bool_decide_unpack _); vm_compute; exact I.
Qed.

Lemma getNumericValue_spec_witness :
  getNumericValue "f" = 15%Z ∧ getNumericValue "Z" = 35%Z.
Proof.
  split.
  - destruct (getNumericValue_spec "f") as (_ & _ & _ & _ & _ & H).
    apply H. vm_compute. split; discriminate.
  - destruct (getNumericValue_spec "Z") as (_ & _ & _ & _ & H & _).
    apply H. vm_compute. split; discriminate.
Defined.

Lemma getNumericValue_symbol c :
  (getNumericValue c =? -1)%Z = true ↔ ¬ alphanumeric c.
Proof.
  rewrite Z.eqb_eq. apply getNumericValue_minus1.
Qed.

Lemma getNumericValue_alnum c :
  (getNumericValue c =? -1)%Z = false ↔ alphanumeric c.
Proof.
  rewrite <- not_true_iff_false, getNumericValue_symbol.
  destruct (decide (alphanumeric c)); naive_solver.
Qed.

(** The radix-10 loop returns a number only when every character from
    [offset] on is a letter or a digit, and returns [false] only at a
    character that is not. *)
Lemma radiant_decimal_ret lp s : ∀ k offset acc r,
  offset + k = String.length s →
  radiant_decimal lp s k offset acc = Ok r →
  match r with
  | Some _ =>
      ∀ j, offset ≤ j < String.length s → alphanumeric (char_at s j)
  | None =>
      ∃ j, offset ≤ j < String.length s ∧ ¬ alphanumeric (char_at s j)
  end.
Proof.
  induction k as [|k IH]; intros offset acc r Hk; simpl.
  - intros [= <-]. intros j Hj. lia.
  - destruct (getNumericValue (char_at s offset) =? -1)%Z eqn:E.
    + intros [= <-]. exists offset. split; [lia|].
      by apply getNumericValue_symbol.
    + destruct (_ <? _)%Z; [done|]. intros Hr.
      apply IH in Hr; [|lia]. apply getNumericValue_alnum in E.
      destruct r as [v|].
      * intros j Hj. destruct (decide (j = offset)) as [->|]; [done|].
        apply Hr. lia.
      * destruct Hr as (j & Hj & Hn). exists j. split; [lia|done].
Qed.

(** The same of the loop of the other radices. *)
Lemma radiant_digits_ret s log2base : ∀ k i out b out',
  radiant_digits s log2base k i out = Ok (b, out') →
  if b
  then ∀ j, i ≤ j < i + k →
         alphanumeric (char_at s (String.length s - (1 + j)))
  else ∃ j, i ≤ j < i + k
            ∧ ¬ alphanumeric (char_at s (String.length s - (1 + j))).
Proof.
  induction k as [|k IH]; intros i out b out'; simpl.
  - intros [= <- <-]. intros j Hj. lia.
  - destruct (getNumericValue _ =? -1)%Z eqn:E.
    + intros [= <- <-]. exists i. split; [lia|].
      by apply getNumericValue_symbol.
    + destruct (radiant_bits _ _ _ _ _ _) as [o| | |]; try done. simpl.
      intros Hr. apply IH in Hr. apply getNumericValue_alnum in E.
      destruct b.
      * intros j Hj. destruct (decide (j = i)) as [->|]; [done|].
        apply Hr. lia.
      * destruct Hr as (j & Hj & Hn). exists j. split; [lia|done].
Qed.

(** The four outcomes of the selection of the radix. *)
Lemma radiant_prefix_cases s :
  (radiant_prefix s = (0, 10, 0))
  ∨ (2 ≤ String.length s ∧ char_at s 0 = "0"%char
     ∧ ((char_at s 1 = "x"%char ∧ radiant_prefix s = (2, 16, 4))
        ∨ (char_at s 1 = "b"%char ∧ radiant_prefix s = (2, 2, 1))
        ∨ (radiant_prefix s = (1, 8, 3)))).
Proof.
  unfold radiant_prefix. destruct (decide (2 ≤ _)); [|by left].
  destruct (ascii_eqb (char_at s 0) "0") eqn:E0; [|by left].
  apply ascii_eqb_true in E0. right. split; [done|]. split; [done|].
  destruct (ascii_eqb (char_at s 1) "x") eqn:E1.
  { apply ascii_eqb_true in E1. by left. }
  destruct (ascii_eqb (char_at s 1) "b") eqn:E2.
  { apply ascii_eqb_true in E2. right. by left. }
  right. by right.
Qed.

(** X5.  Whenever [radiant_stobv] returns, it returns [true] only for a
    string that is not empty and made of letters and digits only, and
    [false] only for the empty string or a string with a character that is
    not a letter or a digit: the digits are tested against -1 and never
    against the radix. *)
Theorem radiant_decodes_alphanumerics (lp : LexicalPosition) (s : string)
    (out : BitVector) (b : bool) (out' : BitVector) :
  radiant_stobv lp s out = Ok (b, out') →
  if b
  then s ≠ EmptyString
       ∧ ∀ k, k < String.length s → alphanumeric (char_at s k)
  else s = EmptyString
       ∨ ∃ k, k < String.length s ∧ ¬ alphanumeric (char_at s k).
Proof.
  unfold radiant_stobv. destruct (decide (0 < String.length s)) as [Hlen|Hlen].
  2:{ intros [= <- <-]. left. destruct s; [done|simpl in Hlen; lia]. }
  assert (Hne : s ≠ EmptyString) by (intros ->; simpl in Hlen; lia).
  destruct (radiant_prefix_cases s) as [->|(H2 & H0 & Hp)].
  - simpl. destruct (radiant_decimal _ _ _ _ _) as [r| | |] eqn:E; try done.
    apply radiant_decimal_ret in E; [|lia]. simpl.
    destruct r as [v|]; intros [= <- <-].
    + split; [done|]. intros k Hk. apply E. lia.
    + right. destruct E as (j & Hj & Hn). exists j. split; [lia|done].
  - assert (A0 : alphanumeric (char_at s 0)) by (rewrite H0; compute_done).
    destruct Hp as [(H1 & ->) | [(H1 & ->) | -> ]]; simpl; intros Hr;
      apply radiant_digits_ret in Hr; destruct b.
    all: try (split; [done|]; intros k Hk;
              destruct (decide (k = 0)) as [->|]; [done|];
              try (destruct (decide (k = 1)) as [->|];
                   [rewrite H1; compute_done|]);
              replace k with (String.length s - (1 + (String.length s - 1 - k)))
                by lia; apply Hr; lia).
    all: right; destruct Hr as (j & Hj & Hn); eexists; split; [|exact Hn]; lia.
Qed.

Lemma radiant_decodes_alphanumerics_witness :
  (("1a" ≠ EmptyString) ∧ ∀ k, k < 2 → alphanumeric (char_at "1a" k))
  ∧ ("12.5" = EmptyString
     ∨ ∃ k, k < 4 ∧ ¬ alphanumeric (char_at "12.5" k)).
Proof.
  split.
  - apply (radiant_decodes_alphanumerics (mkLP "top.blif" 1) "1a" [] true
             (BV.of_int 64 20)).
    vm_compute. reflexivity.
  - apply (radiant_decodes_alphanumerics (mkLP "top.blif" 1) "12.5" [] false
             []).
    vm_compute. reflexivity.
Defined.

Lemma length_resize n (bv : BitVector) : length (BV.resize n bv) = n.
Proof.
  unfold BV.resize. rewrite length_app, length_take, length_replicate. lia.
Qed.

(** The inner loop writes the bits [j .. j + k - 1] of the digit [i] when
    they are inside the vector, and is an abort when one is not. *)
Lemma radiant_bits_run cval lb i : ∀ k j out,
  (i * lb + j + k ≤ length out →
   ∃ out', radiant_bits cval lb i k j out = Ok out'
           ∧ length out' = length out
           ∧ (∀ x, x < i * lb + j ∨ i * lb + j + k ≤ x →
                out' !! x = out !! x)
           ∧ ∀ t, j ≤ t < j + k →
               out' !! (i * lb + t)
               = Some (negb (Z.land cval (Z.shiftl 1 (Z.of_nat t)) =? 0)%Z))
  ∧ (1 ≤ k → length out < i * lb + j + k →
     radiant_bits cval lb i k j out = Abort "BitVector index").
Proof.
  induction k as [|k IH]; intros j out; simpl.
  - split; [|lia]. intros _. exists out. split; [done|]. split; [done|].
    split; [done|]. intros t Ht. lia.
  - unfold BV.set. destruct (decide (i * lb + j < length out)) as [Hin|Hout].
    + set (b := negb (Z.land cval (Z.shiftl 1 (Z.of_nat j)) =? 0)%Z).
      destruct (IH (S j) (<[i * lb + j := b]> out)) as [IHok IHab].
      rewrite length_insert in IHok, IHab. split.
      * intros Hle. destruct IHok as (out' & Hr & Hl & Hsame & Hbits); [lia|].
        exists out'. split; [done|]. split; [done|]. split.
        -- intros x Hx. rewrite Hsame by lia.
           apply list_lookup_insert_ne. lia.
        -- intros t Ht. destruct (decide (t = j)) as [->|].
           ++ rewrite Hsame by lia. by apply list_lookup_insert_eq.
           ++ apply Hbits. lia.
      * intros _ Hlt. apply IHab; lia.
    + split; [lia|done].
Qed.

Lemma land_1_odd v : negb (Z.land v 1 =? 0)%Z = Z.odd v.
Proof.
  change 1%Z with (Z.ones 1) at 1. rewrite Z.land_ones by lia.
  change (2 ^ 1)%Z with 2%Z. rewrite Zmod_odd. by destruct (Z.odd v).
Qed.

(** In radix 2 a digit takes one bit of the vector, the lowest bit of its
    digit value. *)
Lemma radiant_binary_digits s : ∀ k i out,
  i + k = length out →
  (∀ j, i ≤ j < i + k →
     alphanumeric (char_at s (String.length s - (1 + j)))) →
  ∃ out', radiant_digits s 1 k i out = Ok (true, out')
          ∧ length out' = length out
          ∧ (∀ x, x < i → out' !! x = out !! x)
          ∧ ∀ j, i ≤ j < i + k →
              out' !! j
              = Some (Z.odd (getNumericValue
                               (char_at s (String.length s - (1 + j))))).
Proof.
  induction k as [|k IH]; intros i out Hlen Hal.
  - exists out. split; [done|]. split; [done|]. split; [done|]. intros; lia.
  - cbn [radiant_digits].
    assert (E : (getNumericValue (char_at s (String.length s - (1 + i)))
                 =? -1)%Z = false).
    { apply getNumericValue_alnum. apply (Hal i). lia. }
    rewrite E.
    destruct (radiant_bits_run
                (getNumericValue (char_at s (String.length s - (1 + i))))
                1 i 1 0 out)
      as [(o & Hr & Hl & Hsame & Hbit) _]; [lia|].
    rewrite Hr. simpl.
    destruct (IH (S i) o) as (out' & Hr' & Hl' & Hsame' & Hbits'); [lia| |].
    { intros j Hj. apply Hal. lia. }
    exists out'. split; [done|]. split; [congruence|]. split.
    + intros x Hx. rewrite Hsame' by lia. apply Hsame. lia.
    + intros j Hj. destruct (decide (j = i)) as [->|].
      * rewrite Hsame' by lia. specialize (Hbit 0).
        replace (i * 1 + 0) with i in Hbit by lia. rewrite Hbit by lia.
        f_equal. 
        change (Z.shiftl 1 (Z.of_nat 0)) with 1%Z. apply land_1_odd.
      * apply Hbits'. lia.
Qed.

(** In radix 8 and 16 a digit takes [log2base] bits of a vector that has
    one bit for every digit: the loop runs out of the vector. *)
Lemma radiant_digits_overrun s lb : 2 ≤ lb → ∀ k i out,
  1 ≤ k → i + k = length out →
  (∀ j, i ≤ j < i + k →
     alphanumeric (char_at s (String.length s - (1 + j)))) →
  radiant_digits s lb k i out = Abort "BitVector index".
Proof.
  intros Hlb. induction k as [|k IH]; intros i out Hk Hlen Hal; [lia|].
  cbn [radiant_digits].
  assert (E : (getNumericValue (char_at s (String.length s - (1 + i))) =? -1)%Z
              = false).
  { apply getNumericValue_alnum. apply (Hal i). lia. }
  rewrite E.
  destruct (radiant_bits_run
              (getNumericValue (char_at s (String.length s - (1 + i))))
              lb i lb 0 out) as [Hok Hab].
  destruct (decide (i * lb + 0 + lb ≤ length out)) as [Hin|Hout].
  - destruct (Hok Hin) as (o & -> & Hl & _). simpl.
    apply IH; [nia|lia|]. intros j Hj. apply Hal. lia.
  - rewrite Hab; [done|lia|lia].
Qed.

(** X3.  On a string of the digits 0 and 1 the two decoders agree: the
    text [0b] followed by the digits is decoded by [radiant_stobv] to the
    vector [stobv] gives for the digits, whatever [out] held before; the
    bare prefix [0b] is decoded to the empty vector. *)
Theorem radiant_binary_is_stobv (lp : LexicalPosition) (s : string)
    (out : BitVector) :
  Forall binary_digit (chars s) →
  ∃ bv, stobv lp s = Ok bv
        ∧ radiant_stobv lp ("0b" +:+ s) out = Ok (true, bv).
Proof.
  intros Hs. set (n := String.length s).
  assert (Hbin : ∀ j, j < n → binary_digit (char_at s (n - 1 - j))).
  { by apply Forall_chars_char_at. }
  assert (Hlen : String.length ("0b" +:+ s) = S (S n)) by done.
  assert (Hat : ∀ j, j < n →
            char_at ("0b" +:+ s) (String.length ("0b" +:+ s) - (1 + j))
            = char_at s (n - 1 - j)).
  { intros j Hj. rewrite Hlen.
    by replace (S (S n) - (1 + j)) with (S (S (n - 1 - j))) by lia. }
  destruct (stobv_loop_ok lp s n n 0 (BV.make n))
    as (bv & Hr & Hl & _ & Hbits); try done.
  { unfold BV.make. by rewrite length_replicate. }
  { intros j Hj. unfold BV.make. apply lookup_replicate_2. lia. }
  { intros j Hj. destruct (Hbin j) as [->| ->]; [lia| |]; compute_done. }
  exists bv. split; [done|].
  unfold radiant_stobv. rewrite Hlen.
  destruct (decide (0 < S (S n))); [|lia].
  change (radiant_prefix ("0b" +:+ s)) with (2, 2, 1).
  cbv beta iota zeta. destruct (decide (2 = 10)); [done|].
  replace (S (S n) - 2) with n by lia.
  destruct (radiant_binary_digits ("0b" +:+ s) n 0 (BV.resize n out))
    as (o & Hr' & Hl' & _ & Hbits').
  { by rewrite length_resize. }
  { intros j Hj. rewrite Hat by lia.
    destruct (Hbin j) as [->| ->]; [lia| |]; compute_done. }
  rewrite Hr'. do 2 f_equal. rewrite length_resize in Hl'.
  apply list_eq. intros j. destruct (decide (j < n)) as [Hj|Hj].
  - rewrite Hbits', Hat by lia.
    specialize (Hbits j).
    destruct (Hbin j Hj) as [E|E]; rewrite E in *; simpl.
    + destruct (bv !! j) as [[]|] eqn:Eb; [|done|].
      * destruct Hbits as [Hb _]; [lia|]. by specialize (Hb eq_refl).
      * apply lookup_ge_None in Eb. lia.
    + symmetry. apply Hbits; [lia|done].
  - rewrite !lookup_ge_None_2; [done|lia|lia].
Qed.

Lemma radiant_binary_is_stobv_witness :
  ∃ bv, stobv (mkLP "top.blif" 3) "110" = Ok bv
        ∧ radiant_stobv (mkLP "top.blif" 3) ("0b" +:+ "110") [true]
          = Ok (true, bv).
Proof.
  apply (radiant_binary_is_stobv (mkLP "top.blif" 3) "110" [true]).
  unfold binary_digit. compute_done.
Defined.

(** X4.  In radix 8 and 16 [radiant_stobv] resizes [out] to the number of
    digits and then assigns 3 or 4 bits for every digit: when the string
    has a digit and all its characters are letters or digits, the loop
    assigns a bit at an index that is not below the size of the vector.
    The model of [BitVector] has a fixed length, and the assignment is an
    abort there. *)
Theorem radiant_hex_octal_overrun (lp : LexicalPosition) (s : string)
    (out : BitVector) :
  radix_of s = 8 ∨ (radix_of s = 16 ∧ 3 ≤ String.length s) →
  (∀ k, k < String.length s → alphanumeric (char_at s k)) →
  radiant_stobv lp s out = Abort "BitVector index".
Proof.
  intros Hradix Hal. unfold radiant_stobv, radix_of in *.
  destruct (radiant_prefix_cases s) as [E|(H2 & H0 & Hp)].
  { rewrite E in Hradix. simpl in Hradix. lia. }
  destruct (decide (0 < String.length s)); [|lia].
  destruct Hp as [(H1 & E) | [(H1 & E) | E ]]; rewrite E in *;
    simpl in Hradix; [|lia|]; cbv beta iota zeta;
    (destruct (decide _) as [|_]; [done|]);
    (apply radiant_digits_overrun;
     [lia|lia|rewrite length_resize; lia|intros j Hj; apply Hal; lia]).
Qed.

Lemma radiant_hex_octal_overrun_witness :
  radiant_stobv (mkLP "top.blif" 3) "0x1F" [] = Abort "BitVector index"
  ∧ radiant_stobv (mkLP "top.blif" 3) "017" [] = Abort "BitVector index".
Proof.
  split; apply radiant_hex_octal_overrun.
  - right. split; [reflexivity|simpl; lia].
  - intros k Hk. simpl in Hk.
    do 4 (destruct k as [|k]; [compute_done|]). lia.
  - left. reflexivity.
  - intros k Hk. simpl in Hk.
    do 3 (destruct k as [|k]; [compute_done|]). lia.
Defined.
(** The value of the bits [k .. k + n - 1] of a number. *)
Lemma to_Z_bits v : ∀ n k,
  (0 ≤ v)%Z →
  BV.to_Z ((fun i => Z.testbit v (Z.of_nat i)) <$> seq k n)
  = ((v / 2 ^ Z.of_nat k) mod 2 ^ Z.of_nat n)%Z.
Proof.
  induction n as [|n IH]; intros k Hv.
  - simpl. by rewrite Z.mod_1_r.
  - cbn [seq fmap list_fmap BV.to_Z]. rewrite IH by done.
    rewrite Z.testbit_odd, Z.shiftr_div_pow2 by lia.
    set (x := (v / 2 ^ Z.of_nat k)%Z).
    replace (v / 2 ^ Z.of_nat (S k))%Z with (x / 2)%Z.
    2:{ unfold x. rewrite Nat2Z.inj_succ, Z.pow_succ_r by lia.
        rewrite Z.div_div by lia. f_equal. lia. }
    rewrite Nat2Z.inj_succ, Z.pow_succ_r by lia.
    assert (0 < 2 ^ Z.of_nat n)%Z by (apply Z.pow_pos_nonneg; lia).
    rewrite Z.rem_mul_r by lia.
    rewrite Zmod_odd. destruct (Z.odd x); simpl; lia.
Qed.

Lemma to_Z_of_int n v :
  (0 ≤ v < 2 ^ Z.of_nat n)%Z → BV.to_Z (BV.of_int n v) = v.
Proof.
  intros Hv. unfold BV.of_int. rewrite to_Z_bits by lia.
  simpl. rewrite Z.div_1_r. by apply Z.mod_small.
Qed.

(** X2.  A string of decimal digits that is read in radix 10 and denotes
    a number up to 2^64-1 is decoded by [radiant_stobv] to a vector of 64
    bits whose value is that number: the overflow test never fires on a
    number that fits. *)
Theorem radiant_decimal_in_range (lp : LexicalPosition) (s : string)
    (out : BitVector) :
  s ≠ EmptyString → radix_of s = 10 → Forall decimal_digit (chars s) →
  (decimal_value s ≤ 2 ^ 64 - 1)%Z →
  ∃ bv, radiant_stobv lp s out = Ok (true, bv)
        ∧ length bv = 64
        ∧ BV.to_Z bv = decimal_value s.
Proof.
  intros Hne Hradix Hdigits Hfit. exists (BV.of_int 64 (decimal_value s)).
  split; [by apply radiant_decimal_exact|]. split.
  - unfold BV.of_int. by rewrite length_fmap, length_seq.
  - apply to_Z_of_int.
    pose proof (decimal_value_from_ge (chars s) 0 Hdigits ltac:(lia)) as Hge.
    unfold decimal_value in *. change (2 ^ Z.of_nat 64)%Z with (2 ^ 64)%Z. lia.
Qed.

Lemma radiant_decimal_in_range_witness :
  ∃ bv, radiant_stobv (mkLP "top.blif" 4) "18446744073709551615" []
        = Ok (true, bv)
        ∧ length bv = 64
        ∧ BV.to_Z bv = decimal_value "18446744073709551615".
Proof.
  apply (radiant_decimal_in_range (mkLP "top.blif" 4)
           "18446744073709551615" []).
  - done.
  - reflexivity.
  - compute_done.
  - by vm_compute.
Defined.

(* ===================================================================== *)
(** * Further properties of the reading loop *)
(* ===================================================================== *)

(** The reading loop skips the lines that are empty; only the position
    moves. *)
Lemma reading_loop_blank k pre rest : ∀ st,
  Forall blank pre →
  reading_loop k (pre ++ rest) st = reading_loop k rest (read_lines pre st).
Proof.
  induction pre as [|a pre IH]; intros st Hb; [done|].
  inversion Hb as [|? ? Ha Hpre]; subst. simpl.
  unfold blank in Ha. rewrite Ha. by apply IH.
Qed.

Lemma read_lines_lp rows : ∀ st,
  lp (read_lines rows st) = default (lp st) (line_lp <$> last rows).
Proof.
  induction rows as [|a rows IH]; intros st; [done|].
  unfold read_lines in *. simpl. rewrite IH. simpl.
  destruct rows as [|b rows]; [done|].
  change (last (a :: b :: rows)) with (last (b :: rows)).
  destruct (last (b :: rows)) eqn:E; [done|]. by apply last_None in E.
Qed.

(** X6.  An input without any line, or with empty lines only, is
    rejected with "no top model has been defined", reported at the last
    line read (at the starting position when there is no line). *)
Theorem blank_input_rejected (is_output : Port → bool) (d : Design)
    (lp0 : LexicalPosition) (inp : list Line) :
  Forall blank inp →
  parse is_output d lp0 inp
  = Fatal (default lp0 (line_lp <$> last inp))
      "no top model has been defined".
Proof.
  intros Hb. unfold parse.
  rewrite <- (app_nil_r inp) at 1. rewrite reading_loop_blank by done.
  simpl. destruct (read_lines_fields inp (mkPState d None None [] lp0))
    as (_ & Htop & _).
  rewrite Htop. simpl. by rewrite read_lines_lp.
Qed.

Lemma blank_input_rejected_witness :
  Sample.run [[]; []]
  = Fatal (mkLP "top.blif" 2) "no top model has been defined".
Proof.
  apply (blank_input_rejected Sample.is_output Sample.library Sample.lp0
           (Sample.blif [[]; []])).
  unfold blank. repeat constructor.
Defined.

(** Before a model is defined every directive but [.model] is fatal. *)
Lemma dispatch_needs_model l rest st :
  top st = None → inst st = None →
  is_Some (words l !! 0) → words l !! 0 ≠ Some ".model" →
  ∃ msg, dispatch l rest st = Fatal (lp st) msg.
Proof.
  intros Htop Hinst [cmd Hcmd] Hnm. rewrite dispatch_eq, Hcmd.
  repeat case_bool_decide; subst; try done.
  - unfold inputs_directive. rewrite Htop. by eexists.
  - unfold outputs_directive. rewrite Htop. by eexists.
  - unfold names_head. rewrite Htop. by eexists.
  - unfold gate_directive. rewrite Htop. by eexists.
  - unfold attr_directive. rewrite Hinst.
    destruct (decide _); by eexists.
  - unfold param_directive. rewrite Hinst.
    destruct (decide _); by eexists.
  - rewrite Htop. by eexists.
  - by eexists.
Qed.

(** X7.  The first line that is not empty has to be a [.model]
    directive: any other first line, a directive or not, makes the parser
    fail at the position of that line, whatever follows it. *)
Theorem first_directive_is_model (is_output : Port → bool) (d : Design)
    (lp0 : LexicalPosition) (blanks : list Line) (l : Line)
    (rest : list Line) :
  Forall blank blanks → ¬ blank l →
  is_Some (words l !! 0) → words l !! 0 ≠ Some ".model" →
  ∃ msg, parse is_output d lp0 (blanks ++ l :: rest) = Fatal (line_lp l) msg.
Proof.
  intros Hb Hl Hw Hnm. unfold parse. rewrite reading_loop_blank by done.
  destruct (read_lines_fields blanks (mkPState d None None [] lp0))
    as (_ & Htop & Hinst & _).
  set (st := read_lines blanks _) in *. simpl.
  unfold blank in Hl. apply not_true_is_false in Hl. rewrite Hl.
  destruct (line_is_directive l).
  - destruct (dispatch_needs_model l rest (read_line l st)) as [msg ->];
      try done. by eexists.
  - by eexists.
Qed.

Lemma first_directive_is_model_witness :
  ∃ msg, Sample.run [[]; [".inputs"; "a"]; [".model"; "top"]]
         = Fatal (mkLP "top.blif" 2) msg.
Proof.
  apply (first_directive_is_model Sample.is_output Sample.library Sample.lp0
           (Sample.blif [[]])
           (mkLine ".inputs a" [".inputs"; "a"] (mkLP "top.blif" 2))
           (Sample.lines_from 3 [[".model"; "top"]])).
  - unfold blank. repeat constructor.
  - unfold blank. vm_compute. discriminate.
  - by eexists.
  - simpl. discriminate.
Defined.

(** The directive [.end] does not look at the rest of the input. *)
Lemma dispatch_end l rest rest' st :
  words l !! 0 = Some ".end" → dispatch l rest st = dispatch l rest' st.
Proof. intros Hw. by rewrite !dispatch_eq, Hw. Qed.

(** The three loops of the reader give the same on two inputs that differ
    after an [.end] line only. *)
Lemma reading_after_end l post post' :
  end_line l → ∀ pre,
  (∀ st, reading_loop dispatch (pre ++ l :: post) st
         = reading_loop dispatch (pre ++ l :: post') st)
  ∧ (∀ n names_net names_lp saw11 st,
       names_table dispatch n names_net names_lp saw11 (pre ++ l :: post) st
       = names_table dispatch n names_net names_lp saw11
           (pre ++ l :: post') st)
  ∧ (∀ l0 st, dispatch l0 (pre ++ l :: post) st
              = dispatch l0 (pre ++ l :: post') st).
Proof.
  intros [[Hne Hdir] Hw].
  assert (Hstep : ∀ inp inp',
    (∀ st, reading_loop dispatch inp st = reading_loop dispatch inp' st) →
    (∀ n names_net names_lp saw11 st,
       names_table dispatch n names_net names_lp saw11 inp st
       = names_table dispatch n names_net names_lp saw11 inp' st) →
    ∀ l0 st, dispatch l0 inp st = dispatch l0 inp' st).
  { intros inp inp' Hloop Htable l0 st. rewrite !dispatch_eq.
    destruct (words l0 !! 0) as [cmd|]; [|done].
    repeat case_bool_decide; try done.
    - destruct (model_directive l0 st); simpl; auto.
    - destruct (inputs_directive l0 st); simpl; auto.
    - destruct (outputs_directive l0 st); simpl; auto.
    - destruct (names_head l0 st); simpl; auto.
    - destruct (gate_directive l0 st); simpl; auto.
    - destruct (attr_directive l0 st); simpl; auto.
    - destruct (param_directive l0 st); simpl; auto. }
  induction pre as [|a pre (IHloop & IHtable & IHdisp)].
  - assert (Hloop : ∀ st, reading_loop dispatch ([] ++ l :: post) st
                          = reading_loop dispatch ([] ++ l :: post') st).
    { intros st. simpl. rewrite Hne, Hdir. by apply dispatch_end. }
    assert (Htable : ∀ n names_net names_lp saw11 st,
       names_table dispatch n names_net names_lp saw11 ([] ++ l :: post) st
       = names_table dispatch n names_net names_lp saw11
           ([] ++ l :: post') st).
    { intros n names_net names_lp saw11 st. simpl. rewrite Hne, Hdir.
      destruct (_ && _); [done|]. by apply dispatch_end. }
    split; [done|]. split; [done|]. by apply Hstep.
  - assert (Hloop : ∀ st, reading_loop dispatch ((a :: pre) ++ l :: post) st
                          = reading_loop dispatch ((a :: pre) ++ l :: post') st).
    { intros st. simpl. destruct (line_empty a); [by apply IHloop|].
      destruct (line_is_directive a); [by apply IHdisp|done]. }
    assert (Htable : ∀ n names_net names_lp saw11 st,
       names_table dispatch n names_net names_lp saw11
         ((a :: pre) ++ l :: post) st
       = names_table dispatch n names_net names_lp saw11
           ((a :: pre) ++ l :: post') st).
    { intros n names_net names_lp saw11 st. simpl.
      destruct (line_empty a); [by apply IHtable|].
      destruct (line_is_directive a).
      { destruct (_ && _); [done|]. by apply IHdisp. }
      repeat (case_bool_decide; try done);
        try (destruct names_net; [|done]); by apply IHtable. }
    split; [done|]. split; [done|]. by apply Hstep.
Qed.

(** X8.  Nothing after an [.end] line is read: two inputs that agree up
    to and including an [.end] line are parsed to the same result. *)
Theorem lines_after_end_ignored (is_output : Port → bool) (d : Design)
    (lp0 : LexicalPosition) (pre : list Line) (l : Line)
    (post post' : list Line) :
  end_line l →
  parse is_output d lp0 (pre ++ l :: post)
  = parse is_output d lp0 (pre ++ l :: post').
Proof.
  intros Hl. unfold parse.
  destruct (reading_after_end l post post' Hl pre) as (-> & _). done.
Qed.

Lemma lines_after_end_ignored_witness :
  Sample.run [[".model"; "top"]; [".inputs"; "a"]; [".end"];
              [".gate"; "NOSUCH"]; ["junk"]]
  = Sample.run [[".model"; "top"]; [".inputs"; "a"]; [".end"]].
Proof.
  apply (lines_after_end_ignored Sample.is_output Sample.library Sample.lp0
           (Sample.blif [[".model"; "top"]; [".inputs"; "a"]])
           (mkLine ".end" [".end"] (mkLP "top.blif" 3))
           (Sample.lines_from 4 [[".gate"; "NOSUCH"]; ["junk"]]) []).
  split; [split|]; reflexivity.
Defined.

Lemma same_result_refl a : same_result a a.
Proof. by destruct a. Qed.

Lemma read_line_same l st st' :
  same_but_lp st st' → read_line l st = read_line l st'.
Proof. intros (Hd & Ht & Hi & Hu). unfold read_line. by rewrite Hd, Ht, Hi, Hu. Qed.

Lemma nonblank_cons l inp :
  nonblank (l :: inp) = if line_empty l then nonblank inp else l :: nonblank inp.
Proof.
  unfold nonblank, blank. rewrite filter_cons.
  destruct (decide (¬ line_empty l = true)) as [H|H];
    destruct (line_empty l); try done; exfalso; by apply H.
Qed.

(** The loops of the reader give the same, apart from the position in the
    state, on an input and on the input without its empty lines. *)
Lemma reading_skips_blank inp :
  (∀ st st', same_but_lp st st' →
     same_result (reading_loop dispatch inp st)
       (reading_loop dispatch (nonblank inp) st'))
  ∧ (∀ n names_net names_lp saw11 st st', same_but_lp st st' →
       same_result (names_table dispatch n names_net names_lp saw11 inp st)
         (names_table dispatch n names_net names_lp saw11 (nonblank inp) st'))
  ∧ (∀ l st, same_result (dispatch l inp st) (dispatch l (nonblank inp) st)).
Proof.
  assert (Hstep : ∀ inp inp',
    (∀ st, same_result (reading_loop dispatch inp st)
             (reading_loop dispatch inp' st)) →
    (∀ n names_net names_lp saw11 st,
       same_result (names_table dispatch n names_net names_lp saw11 inp st)
         (names_table dispatch n names_net names_lp saw11 inp' st)) →
    ∀ l st, same_result (dispatch l inp st) (dispatch l inp' st)).
  { intros i1 i2 Hloop Htable l st. rewrite !dispatch_eq.
    destruct (words l !! 0) as [cmd|]; [|done].
    repeat case_bool_decide; try apply same_result_refl.
    - destruct (model_directive l st); simpl; auto.
    - destruct (inputs_directive l st); simpl; auto.
    - destruct (outputs_directive l st); simpl; auto.
    - destruct (names_head l st); simpl; auto.
    - destruct (gate_directive l st); simpl; auto.
    - destruct (attr_directive l st); simpl; auto.
    - destruct (param_directive l st); simpl; auto. }
  assert (Hrefl : ∀ st, same_but_lp st st) by done.
  induction inp as [|a inp (IHloop & IHtable & IHdisp)].
  - split; [|split].
    + by intros st st' H.
    + intros n names_net names_lp saw11 st st' H. simpl.
      by destruct (_ && _).
    + intros l st. apply same_result_refl.
  - assert (Hloop : ∀ st st', same_but_lp st st' →
              same_result (reading_loop dispatch (a :: inp) st)
                (reading_loop dispatch (nonblank (a :: inp)) st')).
    { intros st st' H. rewrite nonblank_cons. simpl.
      destruct (line_empty a) eqn:Ea.
      - apply IHloop. by destruct H as (? & ? & ? & ?).
      - simpl. rewrite Ea, (read_line_same a st st' H).
        destruct (line_is_directive a); [apply IHdisp|done]. }
    assert (Htable : ∀ n names_net names_lp saw11 st st', same_but_lp st st' →
              same_result
                (names_table dispatch n names_net names_lp saw11 (a :: inp) st)
                (names_table dispatch n names_net names_lp saw11
                   (nonblank (a :: inp)) st')).
    { intros n names_net names_lp saw11 st st' H. rewrite nonblank_cons. simpl.
      destruct (line_empty a) eqn:Ea.
      - apply IHtable. by destruct H as (? & ? & ? & ?).
      - simpl. rewrite Ea, (read_line_same a st st' H).
        destruct (line_is_directive a).
        { destruct (_ && _); [done|]. apply IHdisp. }
        repeat case_bool_decide; try destruct names_net; cbn [orb];
          first [apply same_result_refl
                | apply IHtable; destruct H as (? & ? & ? & ?);
                  unfold same_but_lp; simpl; repeat split; congruence]. }
    split; [done|]. split; [done|]. apply Hstep; auto.
Qed.

(** The position is used in the error messages only: a step that
    succeeds at one position succeeds at every position, with the same
    result. *)
Lemma unify_edge_lp p p' s e s' :
  unify_edge p s e = Ok s' → unify_edge p' s e = Ok s'.
Proof.
  unfold unify_edge. destruct (find_root _ _ _); [|done].
  destruct (compress _ _ _ _); try done. simpl.
  destruct (decide _); [done|]. by destruct (decide _).
Qed.

Lemma unify_nets_lp p p' m es d d' :
  unify_nets p m es d = Ok d' → unify_nets p' m es d = Ok d'.
Proof.
  unfold unify_nets.
  assert (H : ∀ s s', unify_edges p es s = Ok s' → unify_edges p' es s = Ok s').
  { induction es as [|e es IH]; intros s s'; simpl; [done|].
    destruct (unify_edge p s e) as [s1| | |] eqn:E; try done.
    rewrite (unify_edge_lp p p' s e s1 E). simpl. apply IH. }
  destruct (unify_edges p es (d, ∅)) as [s| | |] eqn:E; try done.
  by rewrite (H _ _ E).
Qed.

Lemma collect_boundary_lp p p' io d insts : ∀ acc bn,
  collect_boundary p io d insts acc = Ok bn →
  collect_boundary p' io d insts acc = Ok bn.
Proof.
  induction insts as [|a insts IH]; intros acc bn; simpl; [done|].
  destruct (instances d !! a); [|done].
  destruct (decide _); [|apply IH].
  destruct (inst_ports _ !! _); [|done].
  destruct (conn d _); [|done].
  destruct (connection_other_port _ _); [|done].
  destruct (on_model d _); [apply IH|done].
Qed.

Lemma validate_lp is_output p p' io m d :
  validate is_output p io m d = Ok () → validate is_output p' io m d = Ok ().
Proof.
  unfold validate. destruct (models d !! m) as [M|]; [|done].
  destruct (check_bidir p io d _) as [[]| | |] eqn:Eb; try done.
  destruct (check_bidir_spec p io d (by_name (m_ports M))) as [[Hb _] _].
  destruct (check_bidir_spec p' io d (by_name (m_ports M))) as [[_ Hb'] _].
  rewrite (Hb' (Hb Eb)). simpl.
  destruct (collect_boundary p _ _ _ _) as [bn| | |] eqn:Ec; try done.
  rewrite (collect_boundary_lp p p' _ _ _ _ _ Ec).
  destruct (check_drivers_spec is_output p d bn (by_name (m_nets M)))
    as [[Hd _] _].
  destruct (check_drivers_spec is_output p' d bn (by_name (m_nets M)))
    as [[_ Hd'] _].
  intros Hv. by apply Hd', Hd.
Qed.

Lemma parse_skips_blank is_output d lp0 inp inp' d' :
  (∀ st, same_result (reading_loop dispatch inp st)
           (reading_loop dispatch inp' st)) →
  parse is_output d lp0 inp = Ok d' → parse is_output d lp0 inp' = Ok d'.
Proof.
  intros Hsame. unfold parse. specialize (Hsame (mkPState d None None [] lp0)).
  destruct (reading_loop dispatch inp _) as [st| | |]; try done.
  destruct (reading_loop dispatch inp' _) as [st'| | |]; try done.
  destruct Hsame as (Hd & Ht & Hi & Hu). simpl. rewrite <- Ht, <- Hd, <- Hu.
  destruct (top st) as [m|]; [|done].
  destruct (unify_nets (lp st) m _ _) as [d1| | |] eqn:Eu; try done.
  rewrite (unify_nets_lp _ (lp st') _ _ _ _ Eu). simpl.
  destruct (validate _ (lp st) _ _ _) as [[]| | |] eqn:Ev; try done.
  by rewrite (validate_lp _ _ (lp st') _ _ _ Ev).
Qed.

Lemma same_result_sym a b : same_result a b → same_result b a.
Proof.
  destruct a, b; simpl; try done.
  - intros (? & ? & ? & ?). by repeat split.
  - by intros [-> ->].
Qed.

(** The parser returns a Design for a sequence of lines exactly when it
    returns it for the sequence without the empty lines, the other lines
    keeping their positions. *)
Lemma parse_nonblank (is_output : Port → bool) (d : Design)
    (lp0 : LexicalPosition) (inp : list Line) (d' : Design) :
  parse is_output d lp0 inp = Ok d'
  ↔ parse is_output d lp0 (nonblank inp) = Ok d'.
Proof.
  destruct (reading_skips_blank inp) as (Hloop & _).
  split; apply parse_skips_blank; intros st.
  - by apply Hloop.
  - by apply same_result_sym, Hloop.
Qed.

(* ===================================================================== *)
(** * Further properties of the directives *)
(* ===================================================================== *)

(** [w.find(c)] is the position of the first [c]. *)
Lemma find_char_first c formal rest :
  c ∉ chars formal →
  find_char c (formal +:+ String c rest) = Some (String.length formal).
Proof.
  induction formal as [|a formal IH]; simpl; intros Hc.
  - assert (ascii_eqb c c = true) as -> by by apply ascii_eqb_true. done.
  - unfold chars in Hc. simpl in Hc. apply not_elem_of_cons in Hc as [Hca Hc].
    assert (ascii_eqb a c = false) as -> by by apply ascii_eqb_false.
    by rewrite IH.
Qed.

Lemma find_char_absent c w : c ∉ chars w → find_char c w = None.
Proof.
  induction w as [|a w IH]; simpl; intros Hc; [done|].
  unfold chars in Hc. simpl in Hc. apply not_elem_of_cons in Hc as [Hca Hc].
  assert (ascii_eqb a c = false) as -> by by apply ascii_eqb_false.
  by rewrite IH.
Qed.

Lemma substring_prefix s t : substring 0 (String.length s) (s +:+ t) = s.
Proof. induction s as [|a s IH]; simpl; [by destruct t|by rewrite IH]. Qed.

Lemma substring_all t : substring 0 (String.length t) t = t.
Proof. induction t as [|a t IH]; simpl; [done|by rewrite IH]. Qed.

Lemma substring_suffix s t :
  substring (String.length s) (String.length t) (s +:+ t) = t.
Proof. induction s as [|a s IH]; simpl; [apply substring_all|done]. Qed.

Lemma length_append s t :
  String.length (s +:+ t) = String.length s + String.length t.
Proof. induction s as [|a s IH]; simpl; [done|by rewrite IH]. Qed.

Lemma append_cons s c t : (s +:+ String c EmptyString) +:+ t = s +:+ String c t.
Proof.
  induction s as [|a s IH]; [done|]. exact (f_equal (String a) IH).
Qed.

(** X10.  A word of a [.gate] line without [=] is fatal; a word with one
    is cut at its first [=] into the formal and the actual.  An empty
    actual is skipped before the formal is looked up, so that the word is
    accepted even when the model has no such pin; otherwise an unknown
    formal is fatal and a known one is connected to the net of the name of
    the actual. *)
Theorem gate_actual_split (m : string) (i : nat) (at_lp : LexicalPosition)
    (d : Design) :
  (∀ w, "="%char ∉ chars w →
     gate_actual m i at_lp w d = Fatal at_lp "invalid formal-actual")
  ∧ (∀ formal actual, "="%char ∉ chars formal →
       gate_actual m i at_lp (formal +:+ "=" +:+ actual) d
       = if decide (actual = EmptyString) then Ok d
         else match inst_find_port i formal d with
              | None => Fatal at_lp ("unknown formal `" +:+ formal +:+ "'")
              | Some port =>
                  Ok (connect port (find_or_add_net m actual d).1
                        (find_or_add_net m actual d).2)
              end).
Proof.
  split.
  - intros w Hw. unfold gate_actual. by rewrite find_char_absent.
  - intros formal actual Hf. unfold gate_actual.
    change (formal +:+ "=" +:+ actual) with (formal +:+ String "=" actual).
    rewrite find_char_first by done.
    rewrite substring_prefix.
    replace (String.length (formal +:+ String "=" actual)
             - (String.length formal + 1)) with (String.length actual)
      by (rewrite length_append; simpl; lia).
    replace (String.length formal + 1)
      with (String.length (formal +:+ "=")) by (by rewrite length_append).
    replace (formal +:+ String "=" actual) with ((formal +:+ "=") +:+ actual).
    2:{ apply append_cons. }
    rewrite substring_suffix.
    destruct (decide (actual = EmptyString)); [done|].
    destruct (inst_find_port i formal d); [|done].
    by destruct (find_or_add_net m actual d).
Qed.

Lemma gate_actual_split_witness :
  gate_actual "top" 5 Sample.lp0 "NOSUCH=" Sample.library = Ok Sample.library
  ∧ gate_actual "top" 5 Sample.lp0 "I" Sample.library
    = Fatal Sample.lp0 "invalid formal-actual".
Proof.
  destruct (gate_actual_split "top" 5 Sample.lp0 Sample.library) as [Hno Hsplit].
  split.
  - apply (Hsplit "NOSUCH" EmptyString). compute_done.
  - apply (Hno "I"). compute_done.
Defined.

Lemma char_at_end s c : char_at (s +:+ String c EmptyString) (String.length s) = c.
Proof.
  induction s as [|a s IH]; [done|]. exact IH.
Qed.

(** The first and last character of a quoted text and the text between
    them. *)
Lemma quoted_parts s :
  char_at (quoted s) 0 = "034"%char
  ∧ back (quoted s) = "034"%char
  ∧ unquote (quoted s) = s.
Proof.
  split; [done|]. unfold back, unquote, quoted. 
  change (String.length (String "034" (s +:+ String "034" EmptyString)))
    with (S (String.length (s +:+ String "034" EmptyString))).
  rewrite length_append.
  change (String.length (String "034" EmptyString)) with 1.
  replace (S (String.length s + 1) - 1) with (S (String.length s)) by lia.
  replace (S (String.length s + 1) - 2) with (String.length s) by lia.
  split.
  - apply (char_at_end s "034").
  - apply (substring_prefix s (String "034" EmptyString)).
Qed.

(** X12.  The value of an [.attr] or [.param] line that is written
    between double quotes is taken without the quotes, whatever the text
    between them is: [.attr] stores it as a string, and [.param] stores
    the vector [radiant_stobv] decodes from it, or the string when
    [radiant_stobv] returns [false]. *)
Theorem quoted_value_unquoted (l : Line) (k s : string) (i : nat)
    (st : PState) :
  inst st = Some i →
  (words l = [".attr"; k; quoted s] →
   attr_directive l st
   = Ok (with_design
           (set_attr i k (ConstString (lp st) s) (design st)) st))
  ∧ (words l = [".param"; k; quoted s] →
     param_directive l st
     = radiant_stobv (lp st) s [] ≫= λ r : bool * BitVector,
         Ok (with_design
               (set_param i k
                  (if r.1 then ConstBits (lp st) r.2
                   else ConstString (lp st) s) (design st)) st)).
Proof.
  intros Hi. destruct (quoted_parts s) as (H0 & Hb & Hu).
  split; intros Hw.
  all: assert (Hlen : length (words l) = 3) by (by rewrite Hw).
  all: assert (Hw1 : word l 1 = k) by (unfold word; by rewrite Hw).
  all: assert (Hw2 : word l 2 = quoted s) by (unfold word; by rewrite Hw).
  - unfold attr_directive. rewrite Hlen, Hi, Hw1, Hw2, H0, Hb, Hu.
    by destruct (decide (3 ≠ 3)).
  - unfold param_directive. rewrite Hlen, Hi, Hw1, Hw2, H0, Hb, Hu.
    destruct (decide (3 ≠ 3)); [done|].
    change (ascii_eqb "034" "034") with true. cbv iota.
    by destruct (radiant_stobv (lp st) s []) as [[[] bv]| | |].
Qed.

Lemma quoted_value_unquoted_witness :
  let st := Sample.state_after [[".model"; "top"]; [".gate"; "BUF"]] in
  let l := mkLine "" [".attr"; "loc"; quoted (quoted "a b")] Sample.lp0 in
  attr_directive l st
  = Ok (with_design
          (set_attr 5 "loc" (ConstString (lp st) (quoted "a b")) (design st))
          st).
Proof.
  intros st l.
  assert (Hi : inst st = Some 5) by (vm_compute; reflexivity).
  destruct (quoted_value_unquoted l "loc" (quoted "a b") 5 st Hi) as [Ha _].
  exact (Ha eq_refl).
Defined.

(** The net [find_or_add_net] returns is in the model under its name; the
    pins and instances of the model stay. *)
Lemma find_or_add_net_names m n d x d' M :
  find_or_add_net m n d = (x, d') → models d !! m = Some M →
  (∃ M', models d' !! m = Some M' ∧ m_nets M' !! n = Some x
         ∧ m_ports M' = m_ports M ∧ m_instances M' = m_instances M)
  ∧ instances d' = instances d.
Proof.
  intros Hrun HM. unfold find_or_add_net in Hrun. rewrite HM in Hrun.
  simpl in Hrun. destruct (m_nets M !! n) as [x0|] eqn:E.
  - injection Hrun as <- <-. split; [|done]. by exists M.
  - injection Hrun as <- <-. simpl.
    split; [|done]. rewrite lookup_alter_eq, HM. simpl.
    eexists. split; [done|]. simpl. by rewrite lookup_insert_eq.
Qed.







(** The pins of a new instance are new ports: models and instances stay. *)
Lemma add_instance_ports_frame i formals : ∀ pins d pins' d',
  foldl (fun acc np => add_instance_port i np acc) (pins, d) formals
  = (pins', d') →
  models d' = models d ∧ instances d' = instances d.
Proof.
  induction formals as [|np formals IH]; intros pins d pins' d'; cbn [foldl].
  - by intros [= <- <-].
  - destruct (add_instance_port i np (pins, d)) as [pins1 d1] eqn:E.
    intros Hrun. apply IH in Hrun as [-> ->].
    unfold add_instance_port in E. rewrite fresh_eq in E.
    by injection E as <- <-.
Qed.

Lemma gate_actual_frame m i at_lp w d d' M :
  gate_actual m i at_lp w d = Ok d' → models d !! m = Some M →
  instances d' = instances d
  ∧ ∃ M', models d' !! m = Some M' ∧ m_instances M' = m_instances M.
Proof.
  unfold gate_actual. intros Hrun HM.
  destruct (find_char "=" w) as [p|]; [|done].
  destruct (decide _); [injection Hrun as <-; split; [done|by exists M]|].
  destruct (inst_find_port _ _ _) as [port|]; [|done].
  destruct (find_or_add_net _ _ _) as [net d1] eqn:En.
  injection Hrun as <-.
  destruct (find_or_add_net_names _ _ _ _ _ M En HM)
    as ((M' & HM' & _ & _ & Hinst) & Hi).
  destruct (connect_frame d1 port net) as (Hmc & Hic & _).
  rewrite Hmc, Hic. split; [done|]. by exists M'.
Qed.

Lemma gate_actuals_frame m i at_lp ws : ∀ d d' M,
  gate_actuals m i at_lp ws d = Ok d' → models d !! m = Some M →
  instances d' = instances d
  ∧ ∃ M', models d' !! m = Some M' ∧ m_instances M' = m_instances M.
Proof.
  induction ws as [|w ws IH]; intros d d' M; simpl.
  - intros [= <-] HM. split; [done|]. by exists M.
  - destruct (gate_actual m i at_lp w d) as [d1| | |] eqn:E; try done.
    simpl. intros Hrun HM.
    destruct (gate_actual_frame _ _ _ _ _ _ M E HM) as (Hi1 & M1 & HM1 & Hl1).
    destruct (IH d1 d' M1 Hrun HM1) as (Hi & M' & HM' & Hl).
    split; [congruence|]. exists M'. split; [done|congruence].
Qed.

(** X11.  A [.gate] line that is accepted adds one instance of the model
    it names, which exists, at the end of the instances of the top model,
    without attributes and parameters, and makes it the instance the
    following [.attr] and [.param] lines write to; the other instances
    and the queue of the unifier stay as they are. *)
Theorem gate_makes_instance (l : Line) (st st' : PState) (m : string)
    (M : Model) :
  top st = Some m → models (design st) !! m = Some M →
  gate_directive l st = Ok st' →
  ∃ i ins M',
    inst st' = Some i
    ∧ i = id_counter (design st)
    ∧ instances (design st') !! i = Some ins
    ∧ instance_of ins = word l 1
    ∧ is_Some (models (design st) !! word l 1)
    ∧ attrs ins = ∅ ∧ params ins = ∅
    ∧ models (design st') !! m = Some M'
    ∧ m_instances M' = m_instances M ++ [i]
    ∧ (∀ j, j ≠ i → instances (design st') !! j = instances (design st) !! j)
    ∧ top st' = top st ∧ unify st' = unify st.
Proof.
  intros Htop HM. unfold gate_directive. rewrite Htop.
  destruct (decide (length (words l) < 2)); [done|].
  unfold find_model.
  destruct (decide (is_Some (models (design st) !! word l 1))) as [Hof|];
    [|done].
  unfold add_instance. rewrite fresh_eq.
  set (d0 := mkDesign _ _ _ _ _ (S _)).
  set (formals := default [] _).
  destruct (foldl _ _ formals) as [pins d1] eqn:Ef.
  destruct (add_instance_ports_frame _ _ _ _ _ _ Ef) as (Hm & Hi).
  simpl in Hm, Hi.
  set (i := id_counter (design st)) in *.
  set (d2 := upd_models _ _).
  assert (HM2 : models d2 !! m
                = Some (mkModel (model_name M) (m_ports M) (m_nets M)
                          (m_instances M ++ [i]))).
  { unfold d2. simpl. by rewrite lookup_alter_eq, Hm, HM. }
  destruct (gate_actuals m i (lp st) (drop 2 (words l)) d2)
    as [d3| | |] eqn:E; try done.
  simpl. intros [= <-]. simpl.
  destruct (gate_actuals_frame _ _ _ _ _ _ _ E HM2) as (Hi3 & M3 & HM3 & Hl3).
  eexists i, _, M3. split; [done|]. split; [done|].
  rewrite Hi3. unfold d2. simpl. rewrite lookup_insert_eq.
  split; [done|]. split; [done|]. split; [done|]. split; [done|].
  split; [done|]. split; [done|]. split; [done|]. split; [|done].
  intros j Hj. rewrite lookup_insert_ne by done. by rewrite Hi.
Qed.

Lemma gate_makes_instance_witness :
  let st := Sample.state_after [[".model"; "top"]; [".inputs"; "a"]] in
  let l := mkLine ".gate BUF I=a" [".gate"; "BUF"; "I=a"] (mkLP "top.blif" 3) in
  ∃ st' ins, gate_directive l st = Ok st'
             ∧ inst st' = Some 7
             ∧ instances (design st') !! 7 = Some ins
             ∧ instance_of ins = "BUF".
Proof.
  intros st l.
  destruct (gate_directive l st) as [st'| | |] eqn:E; [|by vm_compute in E..].
  destruct (models (design st) !! "top") as [M|] eqn:EM; [|by vm_compute in EM].
  assert (Htop : top st = Some "top") by (vm_compute; reflexivity).
  destruct (gate_makes_instance l st st' "top" M Htop EM E)
    as (i & ins & M' & Hi & Hid & Hins & Hof & _).
  vm_compute in Hid. subst i. exists st', ins. 
  split; [reflexivity|]. split; [exact Hi|]. split; [exact Hins|].
  exact Hof.
Defined.

(* ===================================================================== *)
(** * Further properties of the net unifier *)
(* ===================================================================== *)

Lemma aliases_mono es es' a b :
  (∀ e, e ∈ es → e ∈ es') → aliases es a b → aliases es' a b.
Proof.
  intros Hsub. unfold aliases. apply rtc_subrel. intros x y. apply Hsub.
Qed.

Lemma path_empty x k r : path (∅ : gmap nat nat) x k r → x = r.
Proof. inversion 1 as [|? ? ? ? Hx]; [done|]. by rewrite lookup_empty in Hx. Qed.

(** A chain of mappings runs along edges of the queue, backwards. *)
Lemma unify_edge_alias at_lp es d m n1 n2 s' :
  acyclic m → (∀ x k r, path m x k r → aliases es r x) →
  unify_edge at_lp (d, m) (n1, n2) = Ok s' →
  ∀ x k r, path s'.2 x k r → aliases (es ++ [(n1, n2)]) r x.
Proof.
  intros Hac Hinv Hrun x k r Hp.
  destruct (unify_edge_run at_lp d m n1 n2 Hac)
    as (r0 & m1 & Hroot & Hdom & Hac1 & Hr0 & Hpaths & _ & Heq).
  rewrite Heq in Hrun. clear Heq.
  destruct (decide (n2 = r0)) as [|Hne]; [done|].
  destruct (decide (is_Some (m1 !! n2))) as [|Hn2]; [done|].
  injection Hrun as <-. simpl in Hp.
  apply eq_None_not_Some in Hn2.
  apply find_root_Some in Hroot as (k1 & Hp1 & _).
  destruct (Hac x) as (kx & rx & Hpx & _).
  destruct (Hpaths x kx rx Hpx) as (k' & _ & Hpx1).
  pose proof (path_insert_fresh m1 n2 r0 Hn2 Hr0 Hne x k' rx Hpx1) as Hnew.
  destruct (path_det _ _ _ _ Hp _ _ Hnew) as [_ ->].
  assert (Hmono : ∀ a b, aliases es a b → aliases (es ++ [(n1, n2)]) a b).
  { intros a b. apply aliases_mono. intros e He. apply elem_of_app. by left. }
  destruct (decide (rx = n2)) as [->|].
  - unfold aliases in *. trans n2; [|by apply Hmono, (Hinv x kx)].
    eapply rtc_r; [by apply Hmono, (Hinv n1 k1)|].
    unfold drives. apply elem_of_app. right. by apply list_elem_of_here.
  - by apply Hmono, (Hinv x kx).
Qed.

Lemma unify_edges_alias at_lp es : ∀ es0 s s',
  acyclic s.2 → (∀ x k r, path s.2 x k r → aliases es0 r x) →
  unify_edges at_lp es s = Ok s' →
  ∀ x k r, path s'.2 x k r → aliases (es0 ++ es) r x.
Proof.
  induction es as [|[n1 n2] es IH]; intros es0 s s' Hac Hinv; simpl.
  - intros [= <-]. by rewrite app_nil_r.
  - destruct (unify_edge at_lp s (n1, n2)) as [s1| | |] eqn:E; try done.
    simpl. intros Hrun. rewrite cons_middle, app_assoc.
    apply (IH (es0 ++ [(n1, n2)]) s1 s'); [|  |done].
    + by eapply unify_edge_acyclic.
    + destruct s as [d m]. by eapply unify_edge_alias.
Qed.

(** The end of the chain of a net is a net that no edge aliases and from
    which a chain of edges leads to the net. *)
Lemma root_aliases at_lp es d s x r :
  unify_edges at_lp es (d, ∅) = Ok s →
  find_root (size s.2) s.2 x = Some r → aliases es r x ∧ r ∉ es.*2.
Proof.
  intros Hrun Hroot. apply find_root_Some in Hroot as (k & Hp & _). split.
  - apply (unify_edges_alias at_lp es [] (d, ∅) s acyclic_empty) with k;
      [|done|done].
    intros y ky ry Hy. apply path_empty in Hy as ->. apply rtc_refl.
  - apply path_end in Hp.
    destruct (unify_edges_roots at_lp es (d, ∅) s acyclic_empty Hrun)
      as (_ & _ & Hdom).
    simpl in Hdom. intros Hin. apply not_elem_of_dom in Hp. apply Hp.
    rewrite Hdom. set_solver.
Qed.

(** X13.  After a run of the loop over the edges that succeeds, the
    representative the [while] loop finds for a net [x] is the net [r]
    that no edge aliases and from which a chain of "drives" edges leads to
    [x]. *)
Theorem representative_spec (at_lp : LexicalPosition)
    (es : list (nat * nat)) (d : Design) (s : Design * gmap nat nat)
    (x r : nat) :
  unify_edges at_lp es (d, ∅) = Ok s →
  find_root (size s.2) s.2 x = Some r ↔ aliases es r x ∧ r ∉ es.*2.
Proof.
  intros Hrun. split.
  - by apply (root_aliases at_lp es d).
  - intros [Hal Hout]. by apply (alias_representative at_lp es d).
Qed.
Lemma unify_edges_snoc at_lp es e s :
  unify_edges at_lp (es ++ [e]) s
  = (s' ← unify_edges at_lp es s; unify_edge at_lp s' e).
Proof.
  rewrite unify_edges_app. destruct (unify_edges at_lp es s); try done.
  simpl. by destruct (unify_edge at_lp a e).
Qed.

Lemma no_closing_edge_snoc es n1 n2 :
  no_closing_edge (es ++ [(n1, n2)])
  ↔ no_closing_edge es ∧ ¬ aliases es n2 n1.
Proof.
  unfold no_closing_edge. split.
  - intros H. split.
    + intros i a b Hi. pose proof (lookup_lt_Some _ _ _ Hi) as Hlt.
      specialize (H i a b). rewrite lookup_app_l, take_app_le in H by lia.
      by apply H.
    + specialize (H (length es) n1 n2).
      rewrite take_app_length in H. apply H.
      rewrite lookup_app_r by lia. by rewrite Nat.sub_diag.
  - intros [H Hlast] i a b Hi.
    destruct (decide (i < length es)) as [Hlt|Hge].
    + rewrite lookup_app_l in Hi by lia. rewrite take_app_le by lia.
      by apply H.
    + rewrite lookup_app_r in Hi by lia.
      destruct (i - length es) as [|k] eqn:E; [|by destruct k].
      injection Hi as <- <-. assert (i = length es) as -> by lia.
      by rewrite take_app_length.
Qed.

(** The loop over the edges succeeds exactly on the queues in which no
    net is aliased twice and no edge closes a chain of earlier edges. *)
Lemma unify_edges_succeed at_lp d es :
  (∃ s, unify_edges at_lp es (d, ∅) = Ok s)
  ↔ NoDup es.*2 ∧ no_closing_edge es.
Proof.
  induction es as [|[n1 n2] es IH] using rev_ind.
  - split; [|by eexists]. intros _. split; [constructor|].
    intros i a b Hi. by rewrite lookup_nil in Hi.
  - rewrite no_closing_edge_snoc, fmap_app, NoDup_app. simpl.
    split.
    + intros [s' Hrun]. rewrite unify_edges_snoc in Hrun.
      destruct (unify_edges at_lp es (d, ∅)) as [s| | |] eqn:Es; try done.
      simpl in Hrun. destruct IH as [IH _].
      destruct IH as [Hnd Hnc]; [by eexists|].
      destruct (unify_edge_after at_lp es d s n1 n2 Es)
        as (r & m1 & Hroot & Hdom & Hr & Heq).
      rewrite Heq in Hrun.
      destruct (decide (n2 = r)) as [|Hne]; [done|].
      destruct (decide (is_Some (m1 !! n2))) as [|Hn2]; [done|].
      assert (Hout : n2 ∉ es.*2).
      { intros Hin. apply Hn2. apply elem_of_dom. rewrite Hdom.
        destruct (unify_edges_roots at_lp es (d, ∅) s acyclic_empty Es)
          as (_ & _ & ->). set_solver. }
      split; [|split; [done|]].
      * split; [done|]. split; [|apply NoDup_singleton].
        intros y Hy Hy'. apply list_elem_of_singleton in Hy' as ->. done.
      * intros Hal. apply Hne.
        pose proof (alias_representative at_lp es d s n1 n2 Es Hal Hout).
        congruence.
    + intros [(Hnd & Hdisj & _) [Hnc Hlast]].
      destruct IH as [_ IH]. destruct IH as [s Es]; [done|].
      rewrite unify_edges_snoc, Es. simpl.
      destruct (unify_edge_after at_lp es d s n1 n2 Es)
        as (r & m1 & Hroot & Hdom & Hr & Heq).
      rewrite Heq.
      destruct (decide (n2 = r)) as [->|Hne].
      { exfalso. apply Hlast. by apply (root_aliases at_lp es d s n1 r). }
      destruct (decide (is_Some (m1 !! n2))) as [Hn2|Hn2]; [|by eexists].
      exfalso. apply elem_of_dom in Hn2. rewrite Hdom in Hn2.
      destruct (unify_edges_roots at_lp es (d, ∅) s acyclic_empty Es)
        as (_ & _ & Hd). simpl in Hd.
      rewrite Hd, dom_empty_L, union_empty_r_L, elem_of_list_to_set in Hn2.
      apply (Hdisj n2); [done|]. by apply list_elem_of_here.
Qed.

(** X14.  The net unifier succeeds exactly when no net is the aliased net
    of two edges and no edge aliases a net from which a chain of earlier
    edges leads to its driver; in every other case it is fatal. *)
Theorem unify_succeeds_iff (at_lp : LexicalPosition) (m : string)
    (es : list (nat * nat)) (d : Design) :
  (∃ d', unify_nets at_lp m es d = Ok d')
  ↔ NoDup es.*2 ∧ no_closing_edge es.
Proof.
  rewrite <- (unify_edges_succeed at_lp d es). unfold unify_nets.
  split.
  - intros [d' Hrun].
    destruct (unify_edges at_lp es (d, ∅)) as [s| | |]; try done. by eexists.
  - intros [s ->]. by eexists.
Qed.
Lemma find_root_acyclic m x :
  acyclic m → ∃ r k, find_root (size m) m x = Some r ∧ path m x k r.
Proof.
  intros Hac. destruct (Hac x) as (k & r & Hp & Hk). exists r, k.
  split; [|done]. by apply (find_root_path m x k r).
Qed.

Lemma find_root_of_path m x k r :
  acyclic m → path m x k r → find_root (size m) m x = Some r.
Proof.
  intros Hac Hp. destruct (Hac x) as (k' & r' & Hp' & Hk).
  destruct (path_det _ _ _ _ Hp _ _ Hp') as [-> ->].
  by apply (find_root_path m x k' r').
Qed.

(** Every port is on the representative of the net it was on when the
    loop began. *)
Lemma unify_edge_conn at_lp d0 s n1 n2 s' :
  unify_inv d0 s → is_Some (nets d0 !! n1) →
  unify_edge at_lp s (n1, n2) = Ok s' →
  (∀ p, conn s.1 p = conn d0 p ≫= find_root (size s.2) s.2) →
  ∀ p, conn s'.1 p = conn d0 p ≫= find_root (size s'.2) s'.2.
Proof.
  intros Hinv Hn1 Hrun Hconn p.
  destruct (unify_edge_step at_lp d0 s n1 n2 s' Hinv Hn1 Hrun)
    as (r & Hroot & Hne & Hr & Hd' & Hinv' & _).
  destruct Hinv as (Hac & Hwf & _). destruct Hinv' as (Hac' & _).
  destruct s as [d m]. simpl in *.
  destruct (unify_edge_run at_lp d m n1 n2 Hac)
    as (r0 & m1 & Hroot0 & Hdom & Hac1 & Hr0 & Hpaths & _ & Heq).
  assert (r0 = r) as -> by congruence.
  rewrite Heq in Hrun. destruct (decide (n2 = r)) as [|_]; [done|].
  destruct (decide (is_Some (m1 !! n2))) as [|Hn2]; [done|].
  apply eq_None_not_Some in Hn2. injection Hrun as <-. simpl in *.
  destruct (replace_spec d n2 r Hne Hwf Hr)
    as (_ & _ & _ & _ & Hmoved & Hkept & _).
  specialize (Hconn p). destruct (conn d0 p) as [n|] eqn:E; simpl in *.
  - destruct (find_root_acyclic m n Hac) as (rn & k & Hrn & Hp).
    rewrite Hrn in Hconn.
    destruct (Hpaths n k rn Hp) as (k' & _ & Hp1).
    pose proof (path_insert_fresh m1 n2 r Hn2 Hr0 Hne n k' rn Hp1) as Hnew.
    rewrite (find_root_of_path _ _ _ _ Hac' Hnew).
    destruct (decide (rn = n2)) as [->|Hrn2].
    + apply Hmoved. by apply Hwf.
    + rewrite Hkept; [done|]. intros Hin. apply Hwf in Hin. congruence.
  - rewrite Hkept; [done|]. intros Hin. apply Hwf in Hin. congruence.
Qed.

Lemma unify_edges_conn at_lp d0 es : ∀ s s',
  unify_inv d0 s → edges_exist d0 es →
  unify_edges at_lp es s = Ok s' →
  (∀ p, conn s.1 p = conn d0 p ≫= find_root (size s.2) s.2) →
  ∀ p, conn s'.1 p = conn d0 p ≫= find_root (size s'.2) s'.2.
Proof.
  induction es as [|[n1 n2] es IH]; intros s s' Hinv Hex; simpl.
  - by intros [= <-].
  - destruct (unify_edge at_lp s (n1, n2)) as [s1| | |] eqn:E; try done.
    simpl. intros Hrun Hconn. inversion Hex as [|? ? [Hn1 _] Hex']; subst.
    apply (IH s1 s'); [|done|done|].
    + by destruct (unify_edge_step at_lp d0 s n1 n2 s1 Hinv Hn1 E)
        as (_ & _ & _ & _ & _ & ? & _).
    + by apply (unify_edge_conn at_lp d0 s n1 n2).
Qed.

Lemma remove_replaced_ports m ns : ∀ d,
  ports (remove_replaced m ns d) = ports d.
Proof.
  induction ns as [|n ns IH]; intros d; [done|].
  unfold remove_replaced in *. simpl. rewrite IH.
  unfold delete_net, remove_net. by destruct (nets d !! n).
Qed.

Lemma remove_replaced_nets m ns : ∀ d n,
  nets (remove_replaced m ns d) !! n
  = if decide (n ∈ ns) then None else nets d !! n.
Proof.
  induction ns as [|a ns IH]; intros d n; [done|].
  unfold remove_replaced in *. simpl. rewrite IH.
  assert (Hn : nets (delete_net a (remove_net m a d)) = delete a (nets d)).
  { unfold delete_net. simpl. by rewrite remove_net_nets. }
  rewrite Hn. destruct (decide (n ∈ ns)) as [Hin|Hin].
  - rewrite decide_True; [done|]. by apply list_elem_of_further.
  - destruct (decide (n = a)) as [->|Hna].
    + rewrite lookup_delete_eq. rewrite decide_True; [done|].
      apply list_elem_of_here.
    + rewrite lookup_delete_ne by done. rewrite decide_False; [done|].
      intros Hc. apply elem_of_cons in Hc as [|]; done.
Qed.

Lemma remove_replaced_named m ns : ∀ d,
  nets_named d m → nets_named (remove_replaced m ns d) m.
Proof.
  induction ns as [|a ns IH]; intros d Hd; [done|].
  unfold remove_replaced in *. simpl. apply IH.
  by destruct (remove_step_spec m a d Hd) as [? _].
Qed.

(** What the unifier leaves: the Design after the two loops. *)
Lemma unify_nets_final at_lp m es d0 dfin :
  graph_wf d0 → nets_named d0 m → edges_exist d0 es →
  unify_nets at_lp m es d0 = Ok dfin →
  ∃ s, unify_edges at_lp es (d0, ∅) = Ok s
       ∧ (∀ p, conn dfin p = conn d0 p ≫= find_root (size s.2) s.2)
       ∧ (∀ n, nets dfin !! n = None ↔ n ∈ es.*2 ∨ nets d0 !! n = None)
       ∧ (∀ p r, conn dfin p = Some r → is_Some (nets dfin !! r))
       ∧ graph_wf dfin
       ∧ nets_named dfin m
       ∧ ports dfin = ports (s.1).
Proof.
  intros Hwf Hnamed Hex Hrun. unfold unify_nets in Hrun.
  destruct (unify_edges at_lp es (d0, ∅)) as [s| | |] eqn:Es; try done.
  simpl in Hrun. injection Hrun as <-. exists s. split; [done|].
  pose proof (unify_inv_start d0 Hwf) as Hinv0.
  destruct (unify_edges_inv at_lp d0 es _ _ Hinv0 Hex Es) as [Hinv _].
  assert (Hconn : ∀ p, conn s.1 p = conn d0 p ≫= find_root (size s.2) s.2).
  { apply (unify_edges_conn at_lp d0 es (d0, ∅) s Hinv0 Hex Es).
    intros p. simpl. by destruct (conn d0 p). }
  destruct Hinv as (Hac & Hwfs & Hmodels & Hdomn & Hnames & _).
  destruct (unify_edges_roots at_lp es (d0, ∅) s acyclic_empty Es)
    as (_ & _ & Hdom). simpl in Hdom.
  rewrite dom_empty_L, union_empty_r_L in Hdom.
  set (dfin := remove_replaced m (replaced s.2) s.1).
  assert (Hports : ports dfin = ports s.1) by apply remove_replaced_ports.
  assert (Hc : ∀ p, conn dfin p = conn s.1 p).
  { intros p. unfold conn. by rewrite Hports. }
  assert (Hnets : ∀ n, nets dfin !! n
                       = if decide (n ∈ dom s.2) then None else nets s.1 !! n).
  { intros n. unfold dfin. rewrite remove_replaced_nets.
    destruct (decide (n ∈ replaced s.2)) as [Hin|Hin];
      apply elem_of_replaced in Hin || rewrite elem_of_replaced in Hin;
      [by rewrite decide_True|by rewrite decide_False]. }
  assert (Hroot : ∀ p r, conn s.1 p = Some r → r ∉ dom s.2).
  { intros p r Hp. rewrite Hconn in Hp.
    destruct (conn d0 p) as [n|]; [|done]. simpl in Hp.
    apply find_root_Some in Hp as (k & Hp & _). apply path_end in Hp.
    by apply not_elem_of_dom. }
  assert (Hstore : ∀ p r, conn s.1 p = Some r → is_Some (nets s.1 !! r)).
  { intros p r Hp. apply Hwfs in Hp. unfold conns in Hp.
    destruct (nets s.1 !! r); [by eexists|set_solver]. }
  split; [|split; [|split; [|split; [|split]]]].
  - intros p. by rewrite Hc.
  - intros n. rewrite Hnets. destruct (decide (n ∈ dom s.2)) as [Hin|Hin].
    + split; [|done]. intros _. left. rewrite Hdom in Hin. set_solver.
    + rewrite <- !not_elem_of_dom, Hdomn. split; [by right|].
      intros [Ho|]; [|done]. exfalso. apply Hin. rewrite Hdom. set_solver.
  - intros p r Hp. rewrite Hc in Hp. rewrite Hnets.
    rewrite decide_False by by eapply Hroot. by eapply Hstore.
  - intros p n. rewrite Hc. unfold conns. rewrite Hnets.
    destruct (decide (n ∈ dom s.2)) as [Hin|Hin].
    + simpl. split; [set_solver|]. intros Hp. by apply Hroot in Hp.
    + apply Hwfs.
  - apply remove_replaced_named.
    intros M name n HM Hn. rewrite Hnames. rewrite Hmodels in HM.
    by apply (Hnamed M).
  - done.
Qed.

(** X17.  When the net unifier succeeds on a well-formed graph, every port
    is on the representative of the net it was on before, a net is gone
    from the store exactly when an edge aliases it, no port is left on a
    net that is gone, and the nets still list exactly the ports that are
    on them. *)
Theorem unify_moves_ports (at_lp : LexicalPosition) (m : string)
    (es : list (nat * nat)) (d0 dfin : Design) :
  graph_wf d0 → nets_named d0 m → edges_exist d0 es →
  unify_nets at_lp m es d0 = Ok dfin →
  ∃ s, unify_edges at_lp es (d0, ∅) = Ok s
       ∧ (∀ p, conn dfin p = conn d0 p ≫= find_root (size s.2) s.2)
       ∧ (∀ n, nets dfin !! n = None ↔ n ∈ es.*2 ∨ nets d0 !! n = None)
       ∧ (∀ p r, conn dfin p = Some r → is_Some (nets dfin !! r))
       ∧ graph_wf dfin
       ∧ nets_named dfin m.
Proof.
  intros Hwf Hnamed Hex Hrun.
  destruct (unify_nets_final at_lp m es d0 dfin Hwf Hnamed Hex Hrun)
    as (s & Hs & Hconn & Hnets & Hstore & Hwf' & Hnamed' & _).
  by exists s.
Qed.

Lemma unify_moves_ports_witness :
  let st := Sample.state_after
              [[".model"; "top"]; [".inputs"; "a"]; [".outputs"; "b"; "c"];
               [".names"; "a"; "b"]; ["1"; "1"];
               [".names"; "b"; "c"]; ["1"; "1"]] in
  ∃ dfin,
    unify_nets Sample.lp0 "top" [(6, 8); (8, 10)] (design st) = Ok dfin
    ∧ graph_wf dfin
    ∧ (∀ n, nets dfin !! n = None
            ↔ n ∈ [(6, 8); (8, 10)].*2 ∨ nets (design st) !! n = None).
Proof.
  intros st.
  destruct (unify_nets Sample.lp0 "top" [(6, 8); (8, 10)] (design st))
    as [dfin| | |] eqn:E; [|by vm_compute in E..].
  exists dfin. split; [done|].
  destruct (unify_moves_ports Sample.lp0 "top" [(6, 8); (8, 10)] (design st)
              dfin) as (s & _ & _ & Hnets & _ & Hwf & _);
    [| | |exact E|by split].
  - apply graph_wf_check_sound. by vm_compute.
  - apply nets_named_check_sound. by vm_compute.
  - apply (bool_decide_unpack _). by vm_compute.
Defined.

(** X19.  The Design [parse] returns for a well-formed library is well
    formed: every net lists exactly the ports that are connected to it,
    every connected port is on a net of the store, the nets of the top
    model are in the store under their names, the nets that are gone are
    the aliased nets of the [.names] edges, and the three checks of the
    validator hold of it. *)
Theorem parse_design_wf (is_output : Port → bool) (d : Design)
    (lp0 : LexicalPosition) (inp : list Line) (d' : Design) :
  store_wf d →
  parse is_output d lp0 inp = Ok d' →
  graph_wf d'
  ∧ (∀ p r, conn d' p = Some r → is_Some (nets d' !! r))
  ∧ ∃ st m,
      reading_loop dispatch inp (mkPState d None None [] lp0) = Ok st
      ∧ top st = Some m
      ∧ nets_named d' m
      ∧ (∀ n, nets d' !! n = None
              ↔ n ∈ (unify st).*2 ∨ nets (design st) !! n = None)
      ∧ validate is_output (lp st) (find_model "SB_IO" d) m d' = Ok ().
Proof.
  intros Hd Hrun. unfold parse in Hrun.
  destruct (reading_loop dispatch inp _) as [st| | |] eqn:Est; try done.
  simpl in Hrun. destruct (top st) as [m|] eqn:Etop; [|done].
  destruct (unify_nets (lp st) m (unify st) (design st))
    as [dfin| | |] eqn:Eu; try done.
  simpl in Hrun.
  destruct (validate is_output (lp st) (find_model "SB_IO" d) m dfin)
    as [[]| | |] eqn:Ev; try done.
  simpl in Hrun. injection Hrun as <-.
  destruct (reading_loop_wf d lp0 inp st Hd Est) as (Hwf & Hnamed & Hex).
  destruct (unify_nets_final (lp st) m (unify st) (design st) dfin
              Hwf (Hnamed m) Hex Eu)
    as (s & _ & _ & Hnets & Hstore & Hwf' & Hnamed' & _).
  split; [done|]. split; [done|]. by exists st, m.
Qed.

Lemma parse_design_wf_witness :
  ∃ d', Sample.run [[".model"; "top"]; [".inputs"; "a"]; [".outputs"; "y"];
                    [".names"; "a"; "y"]; ["1"; "1"]; [".end"]] = Ok d'
        ∧ graph_wf d'.
Proof.
  destruct (Sample.run [[".model"; "top"]; [".inputs"; "a"]; [".outputs"; "y"];
                        [".names"; "a"; "y"]; ["1"; "1"]; [".end"]])
    as [d'| | |] eqn:E; [|by vm_compute in E..].
  exists d'. split; [done|].
  by destruct (parse_design_wf Sample.is_output Sample.library Sample.lp0 _ d'
                 library_wf E) as [? _].
Defined.
Lemma representative_spec_witness :
  let st := Sample.state_after
              [[".model"; "top"]; [".names"; "a"; "b"]; ["1"; "1"];
               [".names"; "b"; "c"]; ["1"; "1"]] in
  unify st = [(5, 6); (6, 7)]
  ∧ ∃ s, unify_edges Sample.lp0 [(5, 6); (6, 7)] (design st, ∅) = Ok s
         ∧ (find_root (size s.2) s.2 7 = Some 5
            ↔ aliases [(5, 6); (6, 7)] 5 7 ∧ 5 ∉ [(5, 6); (6, 7)].*2).
Proof.
  intros st. split; [by vm_compute|].
  destruct (unify_edges Sample.lp0 [(5, 6); (6, 7)] (design st, ∅))
    as [s| | |] eqn:E; [|by vm_compute in E..].
  exists s. split; [done|].
  exact (representative_spec Sample.lp0 [(5, 6); (6, 7)] (design st) s 7 5 E).
Defined.

(** X15.  The first edge that cannot be unified, after edges that can:
    when its aliased net is the aliased net of an earlier edge the error
    is "conflicting .names outputs", also when the edge closes a cycle;
    when it is not and a chain of earlier edges leads from it to the
    driver, the error is ".names cycle". *)
Theorem unify_first_error (at_lp : LexicalPosition) (m : string)
    (pre post : list (nat * nat)) (n1 n2 : nat) (d : Design) :
  NoDup pre.*2 → no_closing_edge pre →
  (n2 ∈ pre.*2 →
   unify_nets at_lp m (pre ++ (n1, n2) :: post) d
   = Fatal at_lp "conflicting .names outputs")
  ∧ (n2 ∉ pre.*2 → aliases pre n2 n1 →
     unify_nets at_lp m (pre ++ (n1, n2) :: post) d
     = Fatal at_lp cycle_message).
Proof.
  intros Hnd Hnc.
  destruct (proj2 (unify_edges_succeed at_lp d pre)) as [s Hs]; [done|].
  split.
  - intros Hin. by apply (names_alias_again_fatal at_lp m pre post n1 n2 d s).
  - intros Hout Hal.
    apply (cycle_edge_fatal at_lp m pre post n1 n2 d s Hs).
    by apply (alias_representative at_lp pre d s).
Qed.

Lemma unify_first_error_witness :
  let d := design (Sample.state_after
                     [[".model"; "top"]; [".names"; "a"; "b"]; ["1"; "1"];
                      [".names"; "b"; "c"]; ["1"; "1"]]) in
  unify_nets Sample.lp0 "top" ([(5, 6); (6, 7)] ++ (7, 6) :: []) d
  = Fatal Sample.lp0 "conflicting .names outputs"
  ∧ unify_nets Sample.lp0 "top" ([(5, 6); (6, 7)] ++ (7, 5) :: []) d
    = Fatal Sample.lp0 cycle_message.
Proof.
  intros d.
  assert (Hnd : NoDup [(5, 6); (6, 7)].*2)
    by (apply (bool_decide_unpack _); by vm_compute).
  assert (Hnc : no_closing_edge [(5, 6); (6, 7)]).
  { intros i a b Hi Hal.
    destruct i as [|[|i]]; simpl in Hi; [| |done]; injection Hi as <- <-.
    - inversion Hal as [|? ? ? Hd]. by apply elem_of_nil in Hd.
    - inversion Hal as [|? y ? Hd Hrest]; subst.
      apply list_elem_of_singleton in Hd. injection Hd as Hy. done. }
  split.
  - apply (unify_first_error Sample.lp0 "top" [(5, 6); (6, 7)] [] 7 6
             d Hnd Hnc).
    apply (bool_decide_unpack _). by vm_compute.
  - apply (unify_first_error Sample.lp0 "top" [(5, 6); (6, 7)] [] 7 5
             d Hnd Hnc).
    + apply (bool_decide_unpack _). by vm_compute.
    + eapply rtc_l; [|eapply rtc_l; [|apply rtc_refl]]; unfold drives.
      * apply list_elem_of_here.
      * apply list_elem_of_further, list_elem_of_here.
Defined.
(** The second [while] loop only writes the representative. *)
Lemma compress_keeps fuel : ∀ m x r m' y,
  compress fuel m x r = Ok m' → m !! y = Some r → m' !! y = Some r.
Proof.
  induction fuel as [|fuel IH]; intros m x r m' y; simpl.
  - destruct (decide (x = r)); [|done]. by intros [= <-].
  - destruct (decide (x = r)); [by intros [= <-]|].
    destruct (m !! x) as [t|] eqn:E; [|done]. intros Hrun Hy.
    apply (IH _ _ _ _ y Hrun).
    destruct (decide (y = x)) as [->|].
    + by rewrite lookup_insert_eq.
    + by rewrite lookup_insert_ne.
Qed.

(** X20.  Path compression: on mappings without a cycle the second
    [while] loop ends without failing its [assert], maps the net it starts
    from to the representative, writes no other value, and leaves the
    representative of every net as it was. *)
Theorem compress_keeps_representatives (m : gmap nat nat) (n1 r : nat) :
  acyclic m → find_root (size m) m n1 = Some r →
  ∃ m', compress (size m) m n1 r = Ok m'
        ∧ dom m' = dom m
        ∧ (∀ y, find_root (size m') m' y = find_root (size m) m y)
        ∧ (n1 ≠ r → m' !! n1 = Some r)
        ∧ ∀ k v, m' !! k = Some v → v = r ∨ m !! k = Some v.
Proof.
  intros Hac Hroot. apply find_root_Some in Hroot as (k & Hp & Hk).
  destruct (compress_ok (size m) m n1 k r Hp Hk) as (m' & Hrun & Hdom & Hpaths).
  exists m'. split; [done|]. split; [done|].
  assert (Hac' : acyclic m').
  { intros y. destruct (Hac y) as (ky & ry & Hy & Hky).
    destruct (Hpaths y ky ry Hy) as (k' & Hk' & Hy').
    exists k', ry. split; [done|]. rewrite (size_same_dom m m' Hdom). lia. }
  split; [|split].
  - intros y. destruct (find_root_acyclic m y Hac) as (ry & ky & -> & Hy).
    destruct (Hpaths y ky ry Hy) as (k' & _ & Hy').
    by apply (find_root_of_path m' y k' ry).
  - intros Hne. destruct (size m) as [|fuel] eqn:Es.
    { inversion Hp; subst; [done|lia]. }
    simpl in Hrun. destruct (decide (n1 = r)); [done|].
    destruct (m !! n1) as [t|]; [|done].
    apply (compress_keeps _ _ _ _ _ n1 Hrun). by rewrite lookup_insert_eq.
  - by apply (compress_values (size m) m n1 r).
Qed.

Lemma compress_keeps_representatives_witness :
  let m : gmap nat nat := <[3 := 2]> (<[2 := 1]> ∅) in
  ∃ m', compress (size m) m 3 1 = Ok m'
        ∧ m' !! 3 = Some 1
        ∧ ∀ y, find_root (size m') m' y = find_root (size m) m y.
Proof.
  intros m.
  assert (Hac : acyclic m).
  { intros x. destruct (decide (x = 3)) as [->|]; [|destruct (decide (x = 2)) as [->|]].
    - exists 2, 1. split; [|vm_compute; lia].
      apply path_step with 2; [done|]. apply path_step with 1; [done|].
      by apply path_root.
    - exists 1, 1. split; [|vm_compute; lia].
      apply path_step with 1; [done|]. by apply path_root.
    - exists 0, x. split; [|lia]. apply path_root. unfold m.
      by rewrite !lookup_insert_ne, lookup_empty. }
  destruct (compress_keeps_representatives m 3 1 Hac)
    as (m' & Hrun & _ & Hroots & H3 & _); [by vm_compute|].
  exists m'. split; [done|]. split; [by apply H3|done].
Defined.

(* ===================================================================== *)
(** * Further properties of the consistency validator *)
(* ===================================================================== *)

Lemma on_model_true d q :
  on_model d q = true ↔ ∃ Q mm, ports d !! q = Some Q ∧ port_node Q = NodeModel mm.
Proof.
  unfold on_model. destruct (ports d !! q) as [Q|]; simpl.
  - destruct (port_node Q) eqn:E; split; try done.
    + intros _. by eexists _, _.
    + intros (Q' & mm & [= <-] & HQ). congruence.
  - split; [done|]. by intros (Q & mm & ? & _).
Qed.

(** The loop over the instances succeeds only when every instance of the
    I/O model has its pad wired. *)
Lemma collect_boundary_wired at_lp io d insts : ∀ acc bn,
  collect_boundary at_lp io d insts acc = Ok bn →
  ∀ i ins, i ∈ insts → instances d !! i = Some ins →
    Some (instance_of ins) = io → pad_wired d ins.
Proof.
  induction insts as [|a insts IH]; intros acc bn Hrun i ins Hi Hins Hio.
  { by apply elem_of_nil in Hi. }
  simpl in Hrun. destruct (instances d !! a) as [ia|] eqn:Ea; [|done].
  destruct (decide (Some (instance_of ia) = io)) as [Ha|Ha].
  - destruct (inst_ports ia !! "PACKAGE_PIN") as [p|] eqn:Ep; [|done].
    destruct (conn d p) as [n|] eqn:En; [|done].
    destruct (connection_other_port p d) as [q|] eqn:Eq; [|done].
    destruct (on_model d q) eqn:Eo; [|done].
    apply elem_of_cons in Hi as [->|Hi]; [|by eapply IH].
    assert (ins = ia) as -> by congruence.
    apply on_model_true in Eo as (Q & mm & HQ & Hn).
    by exists p, n, q, Q, mm.
  - apply elem_of_cons in Hi as [->|Hi]; [|by eapply IH].
    congruence.
Qed.

Lemma collect_boundary_fatal at_lp io d insts : ∀ acc,
  (∀ i, i ∈ insts → ∃ ins, instances d !! i = Some ins
     ∧ (Some (instance_of ins) = io
        → is_Some (inst_ports ins !! "PACKAGE_PIN"))) →
  (∃ i ins, i ∈ insts ∧ instances d !! i = Some ins
            ∧ Some (instance_of ins) = io ∧ ¬ pad_wired d ins) →
  collect_boundary at_lp io d insts acc = Fatal at_lp pad_message.
Proof.
  induction insts as [|a insts IH]; intros acc Hall (i & ins & Hi & Hins & Hio & Hbad).
  { by apply elem_of_nil in Hi. }
  simpl. destruct (Hall a) as (ia & Ea & Hpin); [apply list_elem_of_here|].
  rewrite Ea.
  assert (Hrest : ∀ acc', i ≠ a ∨ True →
            i ∈ insts → collect_boundary at_lp io d insts acc'
                        = Fatal at_lp pad_message).
  { intros acc' _ Hi'. apply IH.
    - intros j Hj. apply Hall. by apply list_elem_of_further.
    - by exists i, ins. }
  destruct (decide (Some (instance_of ia) = io)) as [Ha|Ha].
  - destruct (Hpin Ha) as [p Ep]. rewrite Ep.
    destruct (conn d p) as [n|] eqn:En; [|done].
    destruct (connection_other_port p d) as [q|] eqn:Eq; [|done].
    destruct (on_model d q) eqn:Eo; [|done].
    apply elem_of_cons in Hi as [->|Hi]; [|by apply Hrest; [right|]].
    exfalso. apply Hbad. assert (ins = ia) as -> by congruence.
    apply on_model_true in Eo as (Q & mm & HQ & Hn).
    by exists p, n, q, Q, mm.
  - apply elem_of_cons in Hi as [->|Hi]; [congruence|].
    by apply Hrest; [right|].
Qed.

(** X18.  When the validator accepts a Design, the pin PACKAGE_PIN of
    every instance of the I/O model in the top model is on a net with
    exactly one other port, an interface pin of a model; and when the
    ports pass the first check and some instance of the I/O model is not
    wired so, the validator fails with "SB_IO PACKAGE_PIN not connected to
    toplevel port". *)
Theorem package_pins_on_ports (is_output : Port → bool)
    (at_lp : LexicalPosition) (io_model : option string) (m : string)
    (d : Design) (M : Model) :
  models d !! m = Some M →
  (validate is_output at_lp io_model m d = Ok () →
   ∀ i ins, i ∈ m_instances M → instances d !! i = Some ins →
     Some (instance_of ins) = io_model → pad_wired d ins)
  ∧ (check_bidir at_lp io_model d (by_name (m_ports M)) = Ok () →
     (∀ i, i ∈ m_instances M →
        ∃ ins, instances d !! i = Some ins
               ∧ (Some (instance_of ins) = io_model
                  → is_Some (inst_ports ins !! "PACKAGE_PIN"))) →
     (∃ i ins, i ∈ m_instances M ∧ instances d !! i = Some ins
               ∧ Some (instance_of ins) = io_model ∧ ¬ pad_wired d ins) →
     validate is_output at_lp io_model m d = Fatal at_lp pad_message).
Proof.
  intros HM. unfold validate. rewrite HM. split.
  - intros Hrun.
    destruct (check_bidir _ _ _ _) as [[]| | |]; try done. simpl in Hrun.
    destruct (collect_boundary _ _ _ _ _) as [bn| | |] eqn:Eb; try done.
    by apply (collect_boundary_wired at_lp io_model d (m_instances M) ∅ bn).
  - intros -> Hall Hbad. simpl.
    by rewrite (collect_boundary_fatal at_lp io_model d (m_instances M) ∅).
Qed.

Lemma package_pins_on_ports_witness :
  let d := design (Sample.state_after
                     [[".model"; "top"]; [".gate"; "SB_IO"; "D_OUT_0=x"]]) in
  validate Sample.is_output Sample.lp0 (Some "SB_IO") "top" d
  = Fatal Sample.lp0 pad_message.
Proof.
  intros d.
  destruct (models d !! "top") as [M|] eqn:EM; [|by vm_compute in EM].
  destruct (package_pins_on_ports Sample.is_output Sample.lp0 (Some "SB_IO")
              "top" d M EM) as [_ H].
  vm_compute in EM. injection EM as <-.
  apply H.
  - vm_compute. reflexivity.
  - intros i Hi. vm_compute in Hi.
    apply list_elem_of_singleton in Hi as ->.
    eexists. split; [vm_compute; reflexivity|]. intros _.
    vm_compute. by eexists.
  - exists 5. eexists.
    split; [vm_compute; apply list_elem_of_here|].
    split; [vm_compute; reflexivity|].
    split; [reflexivity|]. intros (p & n & q & Q & mm & Hp & Hn & _).
    vm_compute in Hp. injection Hp as <-. vm_compute in Hn. done.
Defined.

(* ===================================================================== *)
(** * Positions are carried along, never read *)
(* ===================================================================== *)

(** The parser on the input and the Design without their positions is the
    parser on the input and the Design, without the positions of its
    result: every operation commutes with the erasure. *)
Lemma erase_add_port m n dir d :
  add_port m n dir (erase_positions d)
    = ((add_port m n dir d).1, erase_positions (add_port m n dir d).2).
Proof. done. Qed.

Lemma erase_find_or_add_net m n d :
  find_or_add_net m n (erase_positions d)
  = ((find_or_add_net m n d).1, erase_positions (find_or_add_net m n d).2).
Proof.
  unfold find_or_add_net. simpl.
  by destruct (models d !! m ≫= _).
Qed.

Lemma erase_disconnect p d :
  disconnect p (erase_positions d) = erase_positions (disconnect p d).
Proof. unfold disconnect. simpl. by destruct (ports d !! p ≫= connection). Qed.

Lemma erase_connect p n d :
  connect p n (erase_positions d) = erase_positions (connect p n d).
Proof. unfold connect. by rewrite erase_disconnect. Qed.

Lemma erase_declare_port m dir other d w :
  declare_port m dir other (erase_positions d) w
    = erase_positions (declare_port m dir other d w).
Proof.
  unfold declare_port.
  change (find_port m w (erase_positions d)) with (find_port m w d).
  destruct (find_port m w d) as [port|].
  - change (ports (erase_positions d)) with (ports d).
    destruct (decide _).
    + change (set_direction port INOUT (erase_positions d))
        with (erase_positions (set_direction port INOUT d)).
      rewrite erase_find_or_add_net.
      destruct (find_or_add_net m w _) as [net d1]. simpl.
      apply erase_connect.
    + rewrite erase_find_or_add_net.
      destruct (find_or_add_net m w _) as [net d1]. simpl.
      apply erase_connect.
  - rewrite erase_add_port. destruct (add_port m w dir d) as [port d1]. simpl.
    rewrite erase_find_or_add_net.
    destruct (find_or_add_net m w _) as [net d2]. simpl.
    apply erase_connect.
Qed.

Lemma erase_declare_ports m dir other ws : ∀ d,
  foldl (declare_port m dir other) (erase_positions d) ws
  = erase_positions (foldl (declare_port m dir other) d ws).
Proof.
  induction ws as [|w ws IH]; intros d; [done|].
  simpl. by rewrite erase_declare_port, IH.
Qed.

Lemma erase_new_model n d :
  new_model n (erase_positions d)
    = erase_outcome erase_positions (new_model n d).
Proof.
  unfold new_model. change (models (erase_positions d)) with (models d).
  by destruct (decide _).
Qed.

Lemma erase_add_instance_ports i formals : ∀ pins d,
  foldl (fun acc np => add_instance_port i np acc) (pins, erase_positions d)
    formals
  = ((foldl (fun acc np => add_instance_port i np acc) (pins, d) formals).1,
     erase_positions
       (foldl (fun acc np => add_instance_port i np acc) (pins, d) formals).2).
Proof.
  induction formals as [|np formals IH]; intros pins d; [done|].
  cbn [foldl].
  change (add_instance_port i np (pins, erase_positions d))
    with ((add_instance_port i np (pins, d)).1,
          erase_positions (add_instance_port i np (pins, d)).2).
  destruct (add_instance_port i np (pins, d)) as [pins1 d1]. apply IH.
Qed.

Lemma erase_empty_instance inst_of pins :
  erase_instance (mkInstance inst_of pins ∅ ∅) = mkInstance inst_of pins ∅ ∅.
Proof. unfold erase_instance. simpl. by rewrite fmap_empty. Qed.

Lemma erase_add_instance m inst_of d :
  add_instance m inst_of (erase_positions d)
  = ((add_instance m inst_of d).1,
     erase_positions (add_instance m inst_of d).2).
Proof.
  unfold add_instance. rewrite !fresh_eq.
  change (models (erase_positions d)) with (models d).
  set (formals := default [] _).
  set (d0 := mkDesign (models d) _ _ _ (instances d) _).
  change (mkDesign (models d) (design_top (erase_positions d))
            (ports (erase_positions d)) (nets (erase_positions d))
            (instances (erase_positions d))
            (S (id_counter (erase_positions d))))
    with (erase_positions d0).
  rewrite erase_add_instance_ports.
  destruct (foldl _ (∅, d0) formals) as [pins d1]. simpl. f_equal.
  unfold erase_positions, upd_models, upd_instances. simpl. f_equal.
  by rewrite fmap_insert, erase_empty_instance.
Qed.

Lemma erase_inst_find_port i n d :
  inst_find_port i n (erase_positions d) = inst_find_port i n d.
Proof.
  unfold inst_find_port. simpl. rewrite lookup_fmap.
  by destruct (instances d !! i).
Qed.

Lemma erase_alter_instance (g g' : Instance → Instance) i d :
  (∀ ins, erase_instance (g ins) = g' (erase_instance ins)) →
  erase_positions (upd_instances (alter g i) d)
    = upd_instances (alter g' i) (erase_positions d).
Proof.
  intros Hg. unfold erase_positions, upd_instances. simpl. f_equal.
  apply map_eq. intros j. rewrite lookup_fmap.
  destruct (decide (j = i)) as [->|Hne].
  - rewrite !lookup_alter_eq, lookup_fmap.
    destruct (instances d !! i); simpl; [by rewrite Hg|done].
  - by rewrite !lookup_alter_ne, lookup_fmap.
Qed.

Lemma erase_set_attr i n c d :
  erase_positions (set_attr i n c d)
    = set_attr i n (erase_const c) (erase_positions d).
Proof.
  apply erase_alter_instance. intros ins. unfold erase_instance. simpl.
  by rewrite fmap_insert.
Qed.

Lemma erase_set_param i n c d :
  erase_positions (set_param i n c d)
    = set_param i n (erase_const c) (erase_positions d).
Proof.
  apply erase_alter_instance. intros ins. unfold erase_instance. simpl.
  by rewrite fmap_insert.
Qed.

Lemma erase_gate_actual m i at_lp w d :
  gate_actual m i no_lp w (erase_positions d)
    = erase_outcome erase_positions (gate_actual m i at_lp w d).
Proof.
  unfold gate_actual. destruct (find_char "=" w) as [p|]; [|done].
  destruct (decide _); [done|]. rewrite erase_inst_find_port.
  destruct (inst_find_port _ _ d) as [port|]; [|done].
  rewrite erase_find_or_add_net.
  destruct (find_or_add_net m _ d) as [net d1]. simpl.
  by rewrite erase_connect.
Qed.

Lemma erase_gate_actuals m i at_lp ws : ∀ d,
  gate_actuals m i no_lp ws (erase_positions d)
  = erase_outcome erase_positions (gate_actuals m i at_lp ws d).
Proof.
  induction ws as [|w ws IH]; intros d; [done|].
  simpl. rewrite (erase_gate_actual m i at_lp).
  destruct (gate_actual m i at_lp w d); simpl; [apply IH|done..].
Qed.

Lemma erase_stobv_loop lp s n k : ∀ i bv,
  stobv_loop no_lp s n k i bv = erase_outcome id (stobv_loop lp s n k i bv).
Proof.
  induction k as [|k IH]; intros i bv; [done|]. simpl.
  destruct (ascii_eqb _ "1").
  - destruct (BV.set i true bv); [apply IH|done].
  - destruct (_ || _); [apply IH|done].
Qed.

Lemma erase_stobv lp s : stobv no_lp s = erase_outcome id (stobv lp s).
Proof. apply erase_stobv_loop. Qed.

Lemma erase_radiant_decimal lp s k : ∀ offset acc,
  radiant_decimal no_lp s k offset acc
  = erase_outcome id (radiant_decimal lp s k offset acc).
Proof.
  induction k as [|k IH]; intros offset acc; [done|]. simpl.
  destruct (_ =? _)%Z; [done|]. destruct (_ <? _)%Z; [done|]. apply IH.
Qed.

Lemma erase_radiant_bits cval lb i : ∀ k j out,
  radiant_bits cval lb i k j out
  = erase_outcome id (radiant_bits cval lb i k j out).
Proof.
  induction k as [|k IH]; intros j out; [done|]. simpl.
  destruct (BV.set _ _ out); [apply IH|done].
Qed.

Lemma erase_radiant_digits s lb : ∀ k i out,
  radiant_digits s lb k i out
  = erase_outcome id (radiant_digits s lb k i out).
Proof.
  induction k as [|k IH]; intros i out; [done|]. cbn [radiant_digits].
  destruct (_ =? _)%Z; [done|].
  rewrite erase_radiant_bits.
  destruct (radiant_bits _ _ _ _ _ _); simpl; [apply IH|done..].
Qed.

Lemma erase_radiant_stobv lp s out :
  radiant_stobv no_lp s out = erase_outcome id (radiant_stobv lp s out).
Proof.
  unfold radiant_stobv. destruct (decide _); [|done].
  destruct (radiant_prefix s) as [[offset base] log2base].
  destruct (decide _).
  - rewrite (erase_radiant_decimal lp).
    by destruct (radiant_decimal lp s _ _ _) as [[v|]| | |].
  - apply erase_radiant_digits.
Qed.

Lemma erase_model_directive l st :
  model_directive (erase_line l) (erase_state st)
    = erase_outcome erase_state (model_directive l st).
Proof.
  unfold model_directive. change (words (erase_line l)) with (words l).
  destruct (decide _); [done|].
  change (top (erase_state st)) with (top st). destruct (decide _); [done|].
  change (word (erase_line l) 1) with (word l 1).
  change (design (erase_state st)) with (erase_positions (design st)).
  rewrite erase_new_model. by destruct (new_model _ _).
Qed.

Lemma erase_inputs_directive l st :
  inputs_directive (erase_line l) (erase_state st)
    = erase_outcome erase_state (inputs_directive l st).
Proof.
  unfold inputs_directive. change (top (erase_state st)) with (top st).
  destruct (top st) as [m|]; [|done].
  change (words (erase_line l)) with (words l).
  change (design (erase_state st)) with (erase_positions (design st)).
  rewrite erase_declare_ports. done.
Qed.

Lemma erase_outputs_directive l st :
  outputs_directive (erase_line l) (erase_state st)
    = erase_outcome erase_state (outputs_directive l st).
Proof.
  unfold outputs_directive. change (top (erase_state st)) with (top st).
  destruct (top st) as [m|]; [|done].
  change (words (erase_line l)) with (words l).
  change (design (erase_state st)) with (erase_positions (design st)).
  rewrite erase_declare_ports. done.
Qed.

Lemma erase_gate_directive l st :
  gate_directive (erase_line l) (erase_state st)
    = erase_outcome erase_state (gate_directive l st).
Proof.
  unfold gate_directive. change (top (erase_state st)) with (top st).
  destruct (top st) as [m|]; [|done].
  change (words (erase_line l)) with (words l). destruct (decide _); [done|].
  change (word (erase_line l) 1) with (word l 1).
  change (design (erase_state st)) with (erase_positions (design st)).
  change (find_model (word l 1) (erase_positions (design st)))
    with (find_model (word l 1) (design st)).
  destruct (find_model _ _) as [inst_of|]; [|done].
  rewrite erase_add_instance.
  destruct (add_instance m inst_of (design st)) as [i d1].
  cbv beta iota. change (lp (erase_state st)) with no_lp.
  rewrite (erase_gate_actuals m i (lp st)).
  by destruct (gate_actuals _ _ _ _ _).
Qed.

Lemma erase_attr_directive l st :
  attr_directive (erase_line l) (erase_state st)
    = erase_outcome erase_state (attr_directive l st).
Proof.
  unfold attr_directive. change (words (erase_line l)) with (words l).
  destruct (decide _); [done|].
  change (inst (erase_state st)) with (inst st).
  destruct (inst st) as [i|]; [|done].
  change (word (erase_line l) 2) with (word l 2).
  change (word (erase_line l) 1) with (word l 1).
  change (lp (erase_state st)) with no_lp.
  change (design (erase_state st)) with (erase_positions (design st)).
  destruct (ascii_eqb _ _).
  - destruct (ascii_eqb _ _); [|done]. simpl.
    unfold erase_state, with_design. simpl. by rewrite erase_set_attr.
  - rewrite (erase_stobv (lp st)).
    destruct (stobv (lp st) _); simpl; try done.
    unfold erase_state, with_design. simpl. by rewrite erase_set_attr.
Qed.

Lemma erase_param_directive l st :
  param_directive (erase_line l) (erase_state st)
    = erase_outcome erase_state (param_directive l st).
Proof.
  unfold param_directive. change (words (erase_line l)) with (words l).
  destruct (decide _); [done|].
  change (inst (erase_state st)) with (inst st).
  destruct (inst st) as [i|]; [|done].
  change (word (erase_line l) 2) with (word l 2).
  change (word (erase_line l) 1) with (word l 1).
  change (lp (erase_state st)) with no_lp.
  change (design (erase_state st)) with (erase_positions (design st)).
  destruct (ascii_eqb _ _).
  - destruct (ascii_eqb _ _); [|done].
    rewrite (erase_radiant_stobv (lp st)).
    destruct (radiant_stobv (lp st) _ _) as [[[] bv]| | |]; simpl; try done.
    + unfold erase_state, with_design. simpl. by rewrite erase_set_param.
    + unfold erase_state, with_design. simpl. by rewrite erase_set_param.
  - rewrite (erase_stobv (lp st)).
    destruct (stobv (lp st) _); simpl; try done.
    unfold erase_state, with_design. simpl. by rewrite erase_set_param.
Qed.

Lemma erase_names_head l st :
  names_head (erase_line l) (erase_state st)
    = erase_outcome erase_head (names_head l st).
Proof.
  unfold names_head. change (top (erase_state st)) with (top st).
  destruct (top st) as [m|]; [|done].
  change (words (erase_line l)) with (words l).
  change (word (erase_line l) 2) with (word l 2).
  change (word (erase_line l) 1) with (word l 1).
  change (design (erase_state st)) with (erase_positions (design st)).
  destruct (decide _).
  - rewrite erase_find_or_add_net.
    by destruct (find_or_add_net m _ (design st)) as [x d1].
  - destruct (decide _); [|done].
    rewrite erase_find_or_add_net.
    destruct (find_or_add_net m _ (design st)) as [n1 d1]. cbn [fst snd].
    rewrite erase_find_or_add_net.
    by destruct (find_or_add_net m _ d1) as [n2 d2].
Qed.

(** The three loops of the reader commute with the erasure. *)
Lemma erase_reading inp :
  (∀ st, reading_loop dispatch (erase_line <$> inp) (erase_state st)
         = erase_outcome erase_state (reading_loop dispatch inp st))
  ∧ (∀ n names_net names_lp saw11 st,
       names_table dispatch n names_net no_lp saw11 (erase_line <$> inp)
         (erase_state st)
       = erase_outcome erase_state
           (names_table dispatch n names_net names_lp saw11 inp st))
  ∧ (∀ l st, dispatch (erase_line l) (erase_line <$> inp) (erase_state st)
             = erase_outcome erase_state (dispatch l inp st)).
Proof.
  assert (Hstep : ∀ inp,
    (∀ st, reading_loop dispatch (erase_line <$> inp) (erase_state st)
           = erase_outcome erase_state (reading_loop dispatch inp st)) →
    (∀ n names_net names_lp saw11 st,
       names_table dispatch n names_net no_lp saw11 (erase_line <$> inp)
         (erase_state st)
       = erase_outcome erase_state
           (names_table dispatch n names_net names_lp saw11 inp st)) →
    ∀ l st, dispatch (erase_line l) (erase_line <$> inp) (erase_state st)
            = erase_outcome erase_state (dispatch l inp st)).
  { intros i Hloop Htable l st. rewrite !dispatch_eq.
    change (words (erase_line l)) with (words l).
    destruct (words l !! 0) as [cmd|]; [|done].
    repeat case_bool_decide.
    - rewrite erase_model_directive.
      destruct (model_directive l st); simpl; auto.
    - rewrite erase_inputs_directive.
      destruct (inputs_directive l st); simpl; auto.
    - rewrite erase_outputs_directive.
      destruct (outputs_directive l st); simpl; auto.
    - rewrite erase_names_head.
      destruct (names_head l st) as [[[n nn] st1]| | |]; simpl; auto.
    - rewrite erase_gate_directive.
      destruct (gate_directive l st); simpl; auto.
    - rewrite erase_attr_directive.
      destruct (attr_directive l st); simpl; auto.
    - rewrite erase_param_directive.
      destruct (param_directive l st); simpl; auto.
    - change (top (erase_state st)) with (top st). by destruct (top st).
    - done. }
  induction inp as [|a inp (IHloop & IHtable & IHdisp)].
  - assert (Htable : ∀ n names_net names_lp saw11 st,
       names_table dispatch n names_net no_lp saw11 (erase_line <$> [])
         (erase_state st)
       = erase_outcome erase_state
           (names_table dispatch n names_net names_lp saw11 [] st)).
    { intros n names_net names_lp saw11 st. simpl. by destruct (_ && _). }
    split; [done|]. split; [done|]. by apply Hstep.
  - assert (Hloop : ∀ st,
              reading_loop dispatch (erase_line <$> a :: inp) (erase_state st)
              = erase_outcome erase_state
                  (reading_loop dispatch (a :: inp) st)).
    { intros st. rewrite fmap_cons. cbn [reading_loop].
      change (line_empty (erase_line a)) with (line_empty a).
      change (line_is_directive (erase_line a)) with (line_is_directive a).
      change (read_line (erase_line a) (erase_state st))
        with (erase_state (read_line a st)).
      destruct (line_empty a); [apply IHloop|].
      destruct (line_is_directive a); [apply IHdisp|done]. }
    assert (Htable : ∀ n names_net names_lp saw11 st,
       names_table dispatch n names_net no_lp saw11 (erase_line <$> a :: inp)
         (erase_state st)
       = erase_outcome erase_state
           (names_table dispatch n names_net names_lp saw11 (a :: inp) st)).
    { intros n names_net names_lp saw11 st. rewrite fmap_cons.
      cbn [names_table].
      change (line_empty (erase_line a)) with (line_empty a).
      change (line_is_directive (erase_line a)) with (line_is_directive a).
      change (read_line (erase_line a) (erase_state st))
        with (erase_state (read_line a st)).
      change (words (erase_line a)) with (words a).
      change (word (erase_line a) 0) with (word a 0).
      change (word (erase_line a) 1) with (word a 1).
      destruct (line_empty a); [apply IHtable|].
      destruct (line_is_directive a).
      { destruct (_ && _); [done|]. apply IHdisp. }
      repeat case_bool_decide; try done; try destruct names_net as [x|];
        cbn [orb]; try done; try apply IHtable.
      apply (IHtable _ _ names_lp _
               (with_design (set_constant x ONE (design (read_line a st)))
                  (read_line a st))). }
    split; [done|]. split; [done|]. by apply Hstep.
Qed.

Lemma erase_connect_all r l : ∀ d,
  foldr (fun p d => connect p r d) (erase_positions d) l
  = erase_positions (foldr (fun p d => connect p r d) d l).
Proof.
  induction l as [|p l IH]; intros d; [done|].
  simpl. by rewrite IH, erase_connect.
Qed.

Lemma erase_replace n r d :
  replace n r (erase_positions d) = erase_positions (replace n r d).
Proof.
  unfold replace. change (nets (erase_positions d)) with (nets d).
  destruct (nets d !! n); [apply erase_connect_all|done].
Qed.

(** The second [while] loop of the unifier has no error message. *)
Lemma compress_not_fatal fuel : ∀ m x r at_lp msg,
  compress fuel m x r ≠ Fatal at_lp msg.
Proof.
  induction fuel as [|f IH]; intros m x r p msg; simpl.
  - by destruct (decide _).
  - destruct (decide _); [done|]. destruct (m !! x); [apply IH|done].
Qed.

Lemma erase_unify_edge lp s e :
  unify_edge no_lp (erase_pair s) e
  = erase_outcome erase_pair (unify_edge lp s e).
Proof.
  unfold unify_edge. change ((erase_pair s).2) with (s.2).
  change ((erase_pair s).1) with (erase_positions s.1).
  destruct (find_root _ _ _); [|done].
  destruct (compress _ _ _ _) as [m1| | |] eqn:Ec; simpl.
  - destruct (decide _); [done|]. rewrite erase_replace.
    by destruct (decide _).
  - by apply compress_not_fatal in Ec.
  - done.
  - done.
Qed.

Lemma erase_unify_edges lp es : ∀ s,
  unify_edges no_lp es (erase_pair s)
  = erase_outcome erase_pair (unify_edges lp es s).
Proof.
  induction es as [|e es IH]; intros s; [done|]. simpl.
  rewrite (erase_unify_edge lp).
  destruct (unify_edge lp s e); simpl; [apply IH|done..].
Qed.

Lemma erase_remove_replaced m ns : ∀ d,
  remove_replaced m ns (erase_positions d)
    = erase_positions (remove_replaced m ns d).
Proof.
  induction ns as [|n ns IH]; intros d; [done|].
  unfold remove_replaced in *. simpl. rewrite <- IH. f_equal.
  unfold delete_net, remove_net.
  change (nets (erase_positions d)) with (nets d).
  by destruct (nets d !! n).
Qed.

Lemma erase_unify_nets lp m es d :
  unify_nets no_lp m es (erase_positions d)
    = erase_outcome erase_positions (unify_nets lp m es d).
Proof.
  unfold unify_nets. change (erase_positions d, ∅) with (erase_pair (d, ∅)).
  rewrite (erase_unify_edges lp).
  destruct (unify_edges lp es (d, ∅)) as [s| | |]; simpl; try done.
  by rewrite erase_remove_replaced.
Qed.

Lemma erase_not_package_pin io d q :
  not_package_pin io (erase_positions d) q = not_package_pin io d q.
Proof.
  unfold not_package_pin. change (ports (erase_positions d)) with (ports d).
  destruct (q ≫= _) as [Q|]; [|done].
  destruct (port_node Q) as [|i]; [done|].
  simpl. rewrite lookup_fmap. by destruct (instances d !! i).
Qed.

Lemma erase_check_bidir lp io d ps :
  check_bidir no_lp io (erase_positions d) ps
    = erase_outcome id (check_bidir lp io d ps).
Proof.
  induction ps as [|p ps IH]; [done|]. simpl.
  unfold bidir_violation. change (ports (erase_positions d)) with (ports d).
  change (connection_other_port p.2 (erase_positions d))
    with (connection_other_port p.2 d).
  rewrite erase_not_package_pin.
  destruct (ports d !! p.2) as [P|]; [|apply IH].
  destruct (_ && _); [done|apply IH].
Qed.

Lemma erase_collect_boundary lp io d insts : ∀ acc,
  collect_boundary no_lp io (erase_positions d) insts acc
  = erase_outcome id (collect_boundary lp io d insts acc).
Proof.
  induction insts as [|a insts IH]; intros acc; [done|]. simpl.
  rewrite lookup_fmap. destruct (instances d !! a) as [ins|]; [|done]. simpl.
  destruct (decide _); [|apply IH].
  destruct (inst_ports ins !! _) as [p|]; [|done].
  change (conn (erase_positions d) p) with (conn d p).
  change (connection_other_port p (erase_positions d))
    with (connection_other_port p d).
  destruct (conn d p); [|done].
  destruct (connection_other_port p d) as [q|]; [|done].
  change (on_model (erase_positions d) q) with (on_model d q).
  destruct (on_model d q); [apply IH|done].
Qed.

Lemma erase_check_drivers is_output lp d bn ns :
  check_drivers is_output no_lp (erase_positions d) bn ns
  = erase_outcome id (check_drivers is_output lp d bn ns).
Proof.
  induction ns as [|p ns IH]; [done|]. simpl.
  destruct (decide _); [apply IH|].
  change (n_drivers is_output (erase_positions d) p.2)
    with (n_drivers is_output d p.2).
  destruct (decide _); [done|apply IH].
Qed.

Lemma erase_validate is_output lp io m d :
  validate is_output no_lp io m (erase_positions d)
  = erase_outcome id (validate is_output lp io m d).
Proof.
  unfold validate. change (models (erase_positions d)) with (models d).
  destruct (models d !! m) as [M|]; [|done].
  rewrite (erase_check_bidir lp).
  destruct (check_bidir lp io d _) as [[]| | |]; simpl; try done.
  rewrite (erase_collect_boundary lp).
  destruct (collect_boundary lp io d _ _) as [bn| | |]; simpl; try done.
  apply erase_check_drivers.
Qed.

(** [parse] commutes with the erasure. *)
Lemma erase_parse is_output d lp0 inp :
  parse is_output (erase_positions d) no_lp (erase_line <$> inp)
  = erase_outcome erase_positions (parse is_output d lp0 inp).
Proof.
  unfold parse.
  change (find_model "SB_IO" (erase_positions d)) with (find_model "SB_IO" d).
  destruct (erase_reading inp) as (Hloop & _).
  specialize (Hloop (mkPState d None None [] lp0)).
  change (erase_state (mkPState d None None [] lp0))
    with (mkPState (erase_positions d) None None [] no_lp) in Hloop.
  rewrite Hloop.
  destruct (reading_loop dispatch inp _) as [st| | |]; simpl; try done.
  destruct (top st) as [m|]; [|done].
  rewrite (erase_unify_nets (lp st)).
  destruct (unify_nets (lp st) m _ _) as [d1| | |]; simpl; try done.
  rewrite (erase_validate is_output (lp st)).
  by destruct (validate _ _ _ _ d1) as [[]| | |].
Qed.

Lemma same_text_erase ls ls' :
  Forall2 same_text ls ls' → erase_line <$> ls = erase_line <$> ls'.
Proof.
  induction 1 as [|l l' ls ls' [Hl Hw] _ IH]; [done|].
  rewrite !fmap_cons, IH. f_equal. unfold erase_line. by rewrite Hl, Hw.
Qed.

Lemma erase_outcome_Ok {A B} (f : A → B) (o : outcome A) b :
  erase_outcome f o = Ok b → ∃ a, o = Ok a ∧ f a = b.
Proof. destruct o; simpl; try done. intros [= <-]. by eexists. Qed.

(** The parser on two inputs whose lines, the empty ones apart, have the
    same text. *)
Lemma parse_same_text is_output d lp0 lp0' inp inp' d1 :
  Forall2 same_text (nonblank inp) (nonblank inp') →
  parse is_output d lp0 inp = Ok d1 →
  ∃ d1', parse is_output d lp0' inp'
    = Ok d1' ∧ erase_positions d1' = erase_positions d1.
Proof.
  intros Hsame Hrun.
  apply (parse_nonblank is_output d lp0 inp d1) in Hrun.
  pose proof (erase_parse is_output d lp0 (nonblank inp)) as H1.
  pose proof (erase_parse is_output d lp0' (nonblank inp')) as H2.
  rewrite (same_text_erase _ _ Hsame), H2, Hrun in H1. simpl in H1.
  apply erase_outcome_Ok in H1 as (d1' & Hrun' & Hd).
  exists d1'. split; [|done].
  by apply (parse_nonblank is_output d lp0' inp' d1').
Qed.

(** X21.  Empty lines and the numbering of the lines change nothing of
    the Design but the positions kept in its constants.  For two inputs
    whose lines, the empty ones apart, have the same text in the same
    order, as a text and the same text without its empty lines, where the
    reader numbers the lines anew, the parser returns a Design for the one
    exactly when it returns a Design for the other, and the two Designs
    are the same once the positions of the attribute and parameter
    constants are erased. *)
Theorem blank_lines_ignored (is_output : Port → bool) (d : Design)
    (lp0 lp0' : LexicalPosition) (inp inp' : list Line) :
  Forall2 same_text (nonblank inp) (nonblank inp') →
  (∀ d1, parse is_output d lp0 inp = Ok d1 →
     ∃ d1', parse is_output d lp0' inp' = Ok d1'
            ∧ erase_positions d1' = erase_positions d1)
  ∧ (∀ d1', parse is_output d lp0' inp' = Ok d1' →
       ∃ d1, parse is_output d lp0 inp = Ok d1
             ∧ erase_positions d1 = erase_positions d1').
Proof.
  intros Hsame. split; intros d1 Hrun.
  - by apply (parse_same_text is_output d lp0 lp0' inp inp').
  - apply (parse_same_text is_output d lp0' lp0 inp' inp); [|done].
    clear -Hsame.
    induction Hsame as [|l l' ls ls' [Hl Hw] _ IH]; [constructor|].
    constructor; [by split|done].
Qed.

Lemma blank_lines_ignored_witness :
  ∃ d1 d1',
    Sample.run [[".model"; "top"]; [".gate"; "BUF"]; []; [".attr"; "K"; "1"]]
    = Ok d1
    ∧ Sample.run [[".model"; "top"]; [".gate"; "BUF"]; [".attr"; "K"; "1"]]
      = Ok d1'
    ∧ erase_positions d1' = erase_positions d1
    ∧ (attrs <$> instances d1 !! 5)
      = Some {["K" := ConstBits (mkLP "top.blif" 4) [true]]}
    ∧ (attrs <$> instances d1' !! 5)
      = Some {["K" := ConstBits (mkLP "top.blif" 3) [true]]}.
Proof.
  destruct (Sample.run
              [[".model"; "top"]; [".gate"; "BUF"]; []; [".attr"; "K"; "1"]])
    as [d1| | |] eqn:E1; [|by vm_compute in E1..].
  destruct (blank_lines_ignored Sample.is_output Sample.library
              Sample.lp0 Sample.lp0
              (Sample.blif [[".model"; "top"]; [".gate"; "BUF"]; [];
                            [".attr"; "K"; "1"]])
              (Sample.blif [[".model"; "top"]; [".gate"; "BUF"];
                            [".attr"; "K"; "1"]])) as [H _].
  { vm_compute. repeat constructor. }
  destruct (H d1 E1) as (d1' & E1' & Hd).
  exists d1, d1'. split; [done|]. split; [exact E1'|]. split; [done|].
  vm_compute in E1. injection E1 as <-.
  vm_compute in E1'. injection E1' as <-.
  split; vm_compute; reflexivity.
Defined.
